(** * go-mydumper: the loader (src/common/loader.go)

    A shallow embedding of the restore side of go-mydumper: the file
    catalog ([loadFiles]), the schema and row-data restorers
    ([restoreDatabaseSchema], [restoreTableSchema], [restoreTable]) and the
    orchestrator ([Loader]).

    Go strings are byte strings: they are modelled by [string], whose
    characters are the 8-bit [ascii].  The collaborators that live outside
    loader.go (the connection, the pool, the logger, the file reader) are
    modelled through the calls loader.go makes on them. *)

From Stdlib Require Import ZArith Ascii String.
From stdpp Require Import base tactics option list gmap strings.

Local Open Scope Z_scope.
Local Open Scope nat_scope.

#[local] Set Warnings "-clear-no-such-hyp".

(** ** The Go library functions loader.go calls *)

Module GoStrings.

(** s[i:j] *)
Definition slice (s : string) (i j : nat) : string :=
  String.substring i (j - i) s.

(** strings.HasPrefix:
    len(s) >= len(prefix) && s[:len(prefix)] == prefix *)
Definition HasPrefix (s prefix : string) : bool :=
  (String.length prefix <=? String.length s)
  && String.eqb (slice s 0 (String.length prefix)) prefix.

(** strings.HasSuffix:
    len(s) >= len(suffix) && s[len(s)-len(suffix):] == suffix *)
Definition HasSuffix (s suffix : string) : bool :=
  (String.length suffix <=? String.length s)
  && String.eqb
       (slice s (String.length s - String.length suffix) (String.length s))
       suffix.

(** strings.TrimSuffix: s without the trailing suffix string, or s itself
    when it does not end in suffix. *)
Definition TrimSuffix (s suffix : string) : string :=
  if HasSuffix s suffix
  then slice s 0 (String.length s - String.length suffix)
  else s.

(** Membership of a byte in a cutset. *)
Fixpoint inCutset (cutset : string) (c : ascii) : bool :=
  match cutset with
  | EmptyString => false
  | String d rest => Ascii.eqb c d || inCutset rest c
  end.

Fixpoint TrimLeft (s cutset : string) : string :=
  match s with
  | EmptyString => EmptyString
  | String c s' => if inCutset cutset c then TrimLeft s' cutset else s
  end.

Fixpoint TrimRight (s cutset : string) : string :=
  match s with
  | EmptyString => EmptyString
  | String c s' =>
      match TrimRight s' cutset with
      | EmptyString => if inCutset cutset c then EmptyString
                       else String c EmptyString
      | r => String c r
      end
  end.

(** strings.Trim: s with all leading and trailing bytes contained in
    cutset removed.  (For an ASCII cutset Go trims byte by byte, first on
    the right, then on the left.) *)
Definition Trim (s cutset : string) : string :=
  TrimLeft (TrimRight s cutset) cutset.

(** The first occurrence of a non-empty sep in s: the text before it and
    the text after it (strings.Index followed by the two slices that
    genSplit takes). *)
Fixpoint cutAt (s sep : string) : option (string * string) :=
  if HasPrefix s sep
  then Some (EmptyString, slice s (String.length sep) (String.length s))
  else match s with
       | EmptyString => None
       | String c s' =>
           match cutAt s' sep with
           | Some (before, after) => Some (String c before, after)
           | None => None
           end
       end.

(** The loop of genSplit: cut at each separator, left to right; the last
    element is what remains. *)
Fixpoint genSplit (n : nat) (s sep : string) : list string :=
  match n with
  | O => [s]
  | S n' =>
      match cutAt s sep with
      | None => [s]
      | Some (before, after) => before :: genSplit n' after sep
      end
  end.

(** Split with an empty separator explodes s into its characters (bytes,
    for ASCII text). *)
Fixpoint explode (s : string) : list string :=
  match s with
  | EmptyString => []
  | String c s' => String c EmptyString :: explode s'
  end.

(** strings.Split(s, sep).  A non-empty separator occurs at most len(s)
    times, so len(s) iterations of the loop are enough. *)
Definition Split (s sep : string) : list string :=
  match sep with
  | EmptyString => explode s
  | _ => genSplit (String.length s) s sep
  end.

(** strings.Join, the inverse used to state what Split returns. *)
Fixpoint Join (elems : list string) (sep : string) : string :=
  match elems with
  | [] => EmptyString
  | [x] => x
  | x :: rest => x +:+ sep +:+ Join rest sep
  end.

End GoStrings.

Module Filepath.
Import GoStrings.

(** The text after the last path separator, when there is a separator. *)
Fixpoint afterLastSeparator (s : string) : option string :=
  match s with
  | EmptyString => None
  | String c s' =>
      match afterLastSeparator s' with
      | Some r => Some r
      | None => if Ascii.eqb c "/" then Some s' else None
      end
  end.

(** filepath.Base on Unix: the last element of path, trailing slashes
    removed first; "." for the empty path, "/" for a path of slashes. *)
Definition Base (path : string) : string :=
  if String.eqb path "" then "."
  else
    let p := TrimRight path "/" in
    let p := default p (afterLastSeparator p) in
    if String.eqb p "" then "/" else p.

End Filepath.

Import GoStrings Filepath.

(** ** Data model *)

(** type Files struct *)
Record Files := mkFiles {
  databases : list string;
  schemas : list string;
  tables : list string
}.

Definition dbSuffix : string := "-schema-create.sql".
Definition schemaSuffix : string := "-schema.sql".
Definition tableSuffix : string := ".sql".

(** The statement separator of the dump files: a semicolon followed by a
    newline (byte 10). *)
Definition newline : ascii := ascii_of_nat 10.
Definition stmtSep : string := String ";" (String newline EmptyString).

(** A Go [error] value, by the operation that produced it. *)
Inductive error :=
| ReadError (path : string)
| ExecError (connID : nat) (query : string)
| WalkError (path : string).

(** What a goroutine can panic with in loader.go. *)
Inductive panic :=
| PanicError (e : error)              (* AssertNil on a non-nil error *)
| PanicLog (format : string) (e : error) (* log.Panicf *)
| PanicIndex (i len : nat)            (* index out of range [i] with length len *)
| PanicTicker.                        (* time.NewTicker with an interval <= 0 *)

Inductive Outcome (A : Type) :=
| Ok (a : A)
| Panicked (p : panic).
Arguments Ok {A} a.
Arguments Panicked {A} p.

(** Modelled from the spec: the connection is defined outside loader.go,
    which uses its identity, ID, and its method Execute(sql), returning
    an error when the server rejects the text. *)
Record Connection := mkConn { ID : nat }.

(** Arguments of a log line. *)
Inductive LogArg :=
| AStr (s : string)
| AInt (n : Z)
| AClock.                              (* a value derived from the wall clock *)

Record LogLine := Info { format : string; args : list LogArg }.

(** ** The file catalog *)

(** One call filepath.Walk makes to its callback: the path, whether the
    entry is a directory (info.IsDir()), and the error of reaching it. *)
Record Visit := mkVisit {
  vpath : string;
  vIsDir : bool;
  verr : option error
}.

(** The callback of loadFiles (loader.go, lines 40-58), on the catalog
    built so far.  It returns the new catalog and the error it hands back
    to Walk, which is always nil. *)
Definition walkFn (files : Files) (v : Visit) : Outcome (Files * option error) :=
  match verr v with
  | Some err => Panicked (PanicLog "loader.file.walk.error:%+v" err)
  | None =>
      let path := vpath v in
      let files' :=
        if negb (vIsDir v) then
          if HasSuffix path dbSuffix then
            mkFiles (databases files ++ [path]) (schemas files) (tables files)
          else if HasSuffix path schemaSuffix then
            mkFiles (databases files) (schemas files ++ [path]) (tables files)
          else if HasSuffix path tableSuffix then
            mkFiles (databases files) (schemas files) (tables files ++ [path])
          else files
        else files in
      Ok (files', None)
  end.

(** filepath.Walk over the entries of a tree, in the order it visits them:
    it stops at the first error the callback returns. *)
Fixpoint Walk (visits : list Visit) (files : Files)
  : Outcome (Files * option error) :=
  match visits with
  | [] => Ok (files, None)
  | v :: rest =>
      match walkFn files v with
      | Panicked p => Panicked p
      | Ok (files', Some err) => Ok (files', Some err)
      | Ok (files', None) => Walk rest files'
      end
  end.

Definition loadFiles (visits : list Visit) : Outcome Files :=
  match Walk visits (mkFiles [] [] []) with
  | Panicked p => Panicked p
  | Ok (_, Some err) => Panicked (PanicLog "loader.file.walk.error:%+v" err)
  | Ok (files, None) => Ok files
  end.

(** The category a path falls in, as the switch of the callback decides. *)
Inductive Category := CatDatabase | CatSchema | CatTable | CatNone.

Definition classify (path : string) : Category :=
  if HasSuffix path dbSuffix then CatDatabase
  else if HasSuffix path schemaSuffix then CatSchema
  else if HasSuffix path tableSuffix then CatTable
  else CatNone.

Global Instance Category_eq_dec : EqDecision Category.
Proof. solve_decision. Defined.

(** The paths of the regular files of a walk that fall in category c, in
    walk order. *)
Definition inCategory (c : Category) (visits : list Visit) : list string :=
  vpath <$> filter (λ v, vIsDir v = false ∧ classify (vpath v) = c) visits.

(** ** Programs over the collaborators

    The restore functions call the connection, the file reader and the
    logger.  A program is the tree of these calls; it is given a
    sequential meaning by [run] below and an interleaved one by the
    orchestrator's step function. *)

Inductive Prog (A : Type) : Type :=
| Ret (a : A)
| Panic (p : panic)
| Execute (conn : Connection) (sql : string) (k : option error → Prog A)
| ReadFile (path : string) (k : string * option error → Prog A)
| LogInfo (line : LogLine) (k : Prog A).
Arguments Ret {A} a.
Arguments Panic {A} p.
Arguments Execute {A} conn sql k.
Arguments ReadFile {A} path k.
Arguments LogInfo {A} line k.

Fixpoint bind {A B : Type} (m : Prog A) (f : A → Prog B) : Prog B :=
  match m with
  | Ret a => f a
  | Panic p => Panic p
  | Execute conn sql k => Execute conn sql (λ r, bind (k r) f)
  | ReadFile path k => ReadFile path (λ r, bind (k r) f)
  | LogInfo line k => LogInfo line (bind k f)
  end.

Notation "x <- m ;; k" := (bind m (λ x, k))
  (at level 100, m at next level, right associativity).
Notation "m ;;; k" := (bind m (λ _, k))
  (at level 100, right associativity).

Definition conn_Execute (conn : Connection) (sql : string) : Prog (option error) :=
  Execute conn sql Ret.
Definition common_ReadFile (path : string) : Prog (string * option error) :=
  ReadFile path Ret.
Definition log_Info (fmt : string) (a : list LogArg) : Prog unit :=
  LogInfo (Info fmt a) (Ret tt).

(** Modelled from the spec: AssertNil is defined outside loader.go; the
    spec makes every read or execution failure fatal, so a non-nil error
    panics and a nil one lets the caller go on. *)
Definition AssertNil (err : option error) : Prog unit :=
  match err with
  | None => Ret tt
  | Some e => Panic (PanicError e)
  end.

(** l[i], which panics out of range. *)
Definition index (l : list string) (i : nat) : Prog string :=
  match l !! i with
  | Some x => Ret x
  | None => Panic (PanicIndex i (length l))
  end.

(** fmt.Sprintf("use `%s`", db) *)
Definition Sprintf_use (db : string) : string := "use `" +:+ db +:+ "`".

(** ** The restorers *)

Fixpoint restoreDatabaseSchema (conn : Connection) (dbs : list string)
  : Prog unit :=
  match dbs with
  | [] => Ret tt
  | db :: rest =>
      let base := Base db in
      let name := TrimSuffix base dbSuffix in
      r <- common_ReadFile db ;;
      let '(data, err) := r in
      AssertNil err ;;;
      let sql := data in
      err <- conn_Execute conn sql ;;
      AssertNil err ;;;
      log_Info "restoring.database[%s]" [AStr name] ;;;
      restoreDatabaseSchema conn rest
  end.

(** for _, query := range querys { if !HasPrefix(query, "/*") && query != ""
    { err = conn.Execute(query); AssertNil(err) } } *)
Fixpoint rangeQuerys (conn : Connection) (querys : list string) : Prog unit :=
  match querys with
  | [] => Ret tt
  | query :: rest =>
      (if negb (HasPrefix query "/*") && negb (String.eqb query "")
       then err <- conn_Execute conn query ;; AssertNil err
       else Ret tt) ;;;
      rangeQuerys conn rest
  end.

Fixpoint restoreTableSchema (conn : Connection) (schemas : list string)
  : Prog unit :=
  match schemas with
  | [] => Ret tt
  | schema :: rest =>
      let base := Base schema in
      let name := Trim base schemaSuffix in
      db <- index (Split name ".") 0 ;;
      let sql := Sprintf_use db in
      err <- conn_Execute conn sql ;;
      AssertNil err ;;;
      r <- common_ReadFile schema ;;
      let '(data, err) := r in
      AssertNil err ;;;
      let sql := data in
      let querys := Split sql stmtSep in
      rangeQuerys conn querys ;;;
      log_Info "restoring.schema[%s]" [AStr name] ;;;
      restoreTableSchema conn rest
  end.

Definition restoreTable (conn : Connection) (table : string) : Prog Z :=
  let part := "0" in
  let base := Base table in
  let name := Trim base tableSuffix in
  let splits := Split name "." in
  db <- index splits 0 ;;
  tbl <- index splits 1 ;;
  part <- (if 2 <? length splits then index splits 2 else Ret part) ;;
  log_Info "restoring.tables[%s].parts[%s].thread[%d]"
    [AStr tbl; AStr part; AInt (Z.of_nat (ID conn))] ;;;
  let sql := Sprintf_use db in
  err <- conn_Execute conn sql ;;
  AssertNil err ;;;
  r <- common_ReadFile table ;;
  let '(data, err) := r in
  AssertNil err ;;;
  let sql := data in
  let querys := Split sql stmtSep in
  let bytes := Z.of_nat (String.length sql) in
  rangeQuerys conn querys ;;;
  log_Info "restoring.tables[%s].parts[%s].thread[%d].done..."
    [AStr tbl; AStr part; AInt (Z.of_nat (ID conn))] ;;;
  Ret bytes.

(** ** The shuffle (loader.go, lines 153-156) *)

(** rand.Intn(n) returns a value in [0, n) for n > 0.  The random source
    is the sequence of its raw draws; the call number [call] reduces its
    draw modulo n, so that every sequence of in-range results is the
    behaviour of some source. *)
Definition Intn (src : nat → nat) (call : nat) (n : nat) : nat :=
  src call `mod` n.

(** a[i], a[j] = a[j], a[i]: both right-hand sides are read first, then
    a[i] and a[j] are assigned in this order; an index out of range
    panics. *)
Definition swap (a : list string) (i j : nat) : Outcome (list string) :=
  match a !! j, a !! i with
  | Some aj, Some ai => Ok (<[j := ai]> (<[i := aj]> a))
  | None, _ => Panicked (PanicIndex j (length a))
  | _, None => Panicked (PanicIndex i (length a))
  end.

Fixpoint shuffleLoop (src : nat → nat) (indices : list nat) (a : list string)
  : Outcome (list string) :=
  match indices with
  | [] => Ok a
  | i :: rest =>
      let j := Intn src i (i + 1) in
      match swap a i j with
      | Ok a' => shuffleLoop src rest a'
      | Panicked p => Panicked p
      end
  end.

(** for i := range files.tables { j := rand.Intn(i + 1); swap } *)
Definition Shuffle (src : nat → nat) (a : list string) : Outcome (list string) :=
  shuffleLoop src (seq 0 (length a)) a.

(** ** Observations *)

(** The phase a statement is executed in. *)
Inductive Origin := PhaseDatabase | PhaseSchema | PhaseData.

Global Instance Origin_eq_dec : EqDecision Origin.
Proof. solve_decision. Defined.

(** One call of conn.Execute: who made it, on which connection, with
    which text, and the error it returned. *)
Record Event := mkEvent {
  origin : Origin;
  onConn : Connection;
  stmt : string;
  result : option error
}.

(** What a run leaves behind: the calls made on the server, in their
    global order, and the log. *)
Record World := mkWorld {
  executed : list Event;
  logged : list LogLine
}.

Definition emptyWorld : World := mkWorld [] [].

(** Command-line arguments the loader uses. *)
Record Args := mkArgs {
  Threads : nat;
  IntervalMs : Z
}.

(** An int64, with its wrap-around. *)
Definition int64 (x : Z) : Z := ((x + 2 ^ 63) mod 2 ^ 64 - 2 ^ 63)%Z.

(** time.Millisecond, a time.Duration: an int64 count of nanoseconds. *)
Definition time_Millisecond : Z := 1000000%Z.

(** time.Millisecond * time.Duration(args.IntervalMs) (line 174): the
    conversion and the product are on int64 and wrap around. *)
Definition tickDuration (args : Args) : Z :=
  int64 (time_Millisecond * int64 (IntervalMs args)).

(** ** The orchestrator's state *)

(** Where the main goroutine stands in Loader (loader.go, lines 142-188).
    A panic of the main goroutine unwinds to the deferred pool.Close() of
    line 138 and then leaves Loader; the connection taken at line 143 or
    148 is not put back on that path. *)
Inductive Driver :=
| DGetDb                                        (* 143 *)
| DRestoreDb (conn : Connection) (p : Prog unit) (* 144 *)
| DPutDb (conn : Connection)                    (* 145 *)
| DGetSchema                                    (* 148 *)
| DRestoreSchema (conn : Connection) (p : Prog unit) (* 149 *)
| DPutSchema (conn : Connection)                (* 150 *)
| DShuffle                                      (* 153-156 *)
| DDispatch (rest : list string)                (* 161-172 *)
| DNewTicker                                    (* 174-183 *)
| DWait                                         (* 185 *)
| DSummary                                      (* 186-187 *)
| DTickStop                                     (* deferred, 175 *)
| DPoolClose                                    (* deferred, 138 *)
| DReturned
| DPanicRestore (conn : Connection) (pn : panic) (* 144 or 149 panicked;
                                                    deferred, 138 *)
| DPanicShuffle (pn : panic)                    (* 155 panicked; deferred, 138 *)
| DPanicTicker.                                 (* 174 panicked; deferred, 138 *)

(** Where a goroutine started at line 164 stands.  A panic inside
    restoreTable skips line 170 and unwinds to the deferred function of
    lines 165-168, which has no recover: wg.Done() and pool.Put(conn)
    run, then the panic leaves the goroutine and the runtime ends the
    process.  The other goroutines keep running until then. *)
Inductive Stage :=
| WRestore (p : Prog Z)     (* 169: inside restoreTable *)
| WAdd (r : Z)              (* 170: atomic.AddUint64(&bytes, uint64(r)) *)
| WDone                     (* 166: wg.Done() *)
| WPut                      (* 167: pool.Put(conn) *)
| WExited
| WPanicDone (pn : panic)   (* 166: wg.Done(), the goroutine panicking *)
| WPanicPut (pn : panic)    (* 167: pool.Put(conn), the goroutine panicking *)
| WFatal (pn : panic).      (* the panic leaves the goroutine *)

Record Worker := mkWorker {
  wconn : Connection;
  wtable : string;
  wstage : Stage
}.

(** A time.Ticker: whether it is running, whether a tick waits in its
    channel (of capacity one), whether the channel is closed. *)
Record Ticker := mkTicker {
  running : bool;
  pending : bool;
  closed : bool
}.

(** The goroutine started at line 176: blocked in [for range tick.C], or
    out of the loop. *)
Inductive Reporter := RNotStarted | RWaiting | RExited.

Record Config := mkConfig {
  driver : Driver;
  ctables : list string;       (* files.tables *)
  pool : list Connection;      (* the free connections, first in first out *)
  wg : Z;                      (* the WaitGroup counter *)
  workers : list Worker;
  bytes : Z;                   (* var bytes uint64 *)
  world : World;
  ticker : option Ticker;
  reporter : Reporter;
  crashed : option panic       (* the run ended in this panic: it left
                                  Loader, or a goroutine, unrecovered *)
}.

(** The goroutines, and the runtime timer that feeds the ticker. *)
Inductive Thread :=
| TDriver
| TWorker (i : nat)
| TTimer
| TReporter.

Definition uint64_add (x y : Z) : Z := ((x + y) mod 2 ^ 64)%Z.

(** Updates of single fields. *)
Definition setDriver (d : Driver) (c : Config) : Config :=
  mkConfig d (ctables c) (pool c) (wg c) (workers c) (bytes c) (world c)
    (ticker c) (reporter c) (crashed c).
Definition setPool (l : list Connection) (c : Config) : Config :=
  mkConfig (driver c) (ctables c) l (wg c) (workers c) (bytes c) (world c)
    (ticker c) (reporter c) (crashed c).
Definition setWorld (w : World) (c : Config) : Config :=
  mkConfig (driver c) (ctables c) (pool c) (wg c) (workers c) (bytes c) w
    (ticker c) (reporter c) (crashed c).
Definition setWorkers (ws : list Worker) (c : Config) : Config :=
  mkConfig (driver c) (ctables c) (pool c) (wg c) ws (bytes c) (world c)
    (ticker c) (reporter c) (crashed c).
Definition setWg (n : Z) (c : Config) : Config :=
  mkConfig (driver c) (ctables c) (pool c) n (workers c) (bytes c) (world c)
    (ticker c) (reporter c) (crashed c).
Definition setBytes (n : Z) (c : Config) : Config :=
  mkConfig (driver c) (ctables c) (pool c) (wg c) (workers c) n (world c)
    (ticker c) (reporter c) (crashed c).
Definition setTables (l : list string) (c : Config) : Config :=
  mkConfig (driver c) l (pool c) (wg c) (workers c) (bytes c) (world c)
    (ticker c) (reporter c) (crashed c).
Definition setTicker (t : option Ticker) (c : Config) : Config :=
  mkConfig (driver c) (ctables c) (pool c) (wg c) (workers c) (bytes c)
    (world c) t (reporter c) (crashed c).
Definition setReporter (r : Reporter) (c : Config) : Config :=
  mkConfig (driver c) (ctables c) (pool c) (wg c) (workers c) (bytes c)
    (world c) (ticker c) r (crashed c).
Definition crash (p : panic) (c : Config) : Config :=
  mkConfig (driver c) (ctables c) (pool c) (wg c) (workers c) (bytes c)
    (world c) (ticker c) (reporter c) (Some p).

(** Modelled from the spec: the pool is defined outside loader.go.  It
    holds a fixed number of connections, the configured thread count;
    Get takes a free connection and blocks when there is none, Put gives
    one back.  NewPool makes the connections 0 .. threads-1, all free;
    the free connections are kept first in, first out. *)
Definition NewPool (threads : nat) : list Connection := mkConn <$> seq 0 threads.

Section Semantics.

(** The dump directory: the text of every readable file. *)
Variable fsys : gmap string string.

(** The server: the error with which it answers a statement on a
    connection, given all the calls made before; None when it accepts. *)
Variable server : list Event → Connection → string → option error.

(** Modelled from the spec: ReadFile is defined outside loader.go; it
    returns the file's full text, or a read error. *)
Definition readFile (path : string) : string * option error :=
  match fsys !! path with
  | Some data => (data, None)
  | None => ("", Some (ReadError path))
  end.

Definition doExecute (o : Origin) (conn : Connection) (sql : string)
    (w : World) : option error * World :=
  let r := server (executed w) conn sql in
  (r, mkWorld (executed w ++ [mkEvent o conn sql r]) (logged w)).

Definition doLog (line : LogLine) (w : World) : World :=
  mkWorld (executed w) (logged w ++ [line]).

(** One call on a collaborator: the first action of a program. *)
Definition act {A : Type} (o : Origin) (p : Prog A) (w : World)
  : Prog A * World :=
  match p with
  | Ret _ | Panic _ => (p, w)
  | Execute conn sql k =>
      let '(r, w') := doExecute o conn sql w in (k r, w')
  | ReadFile path k => (k (readFile path), w)
  | LogInfo line k => (k, doLog line w)
  end.

(** A program run to its end by one goroutine, nothing in between. *)
Fixpoint run {A : Type} (o : Origin) (p : Prog A) (w : World)
  : Outcome A * World :=
  match p with
  | Ret a => (Ok a, w)
  | Panic pn => (Panicked pn, w)
  | Execute conn sql k =>
      let '(r, w') := doExecute o conn sql w in run o (k r) w'
  | ReadFile path k => run o (k (readFile path)) w
  | LogInfo line k => run o k (doLog line w)
  end.

(** "Execute each statement in sequence on the given connection", with
    the first failure ending it: the reading of the spec against which
    the statement loop is compared. *)
Fixpoint executeAll (o : Origin) (conn : Connection) (stmts : list string)
    (w : World) : Outcome unit * World :=
  match stmts with
  | [] => (Ok tt, w)
  | q :: rest =>
      match doExecute o conn q w with
      | (None, w') => executeAll o conn rest w'
      | (Some e, w') => (Panicked (PanicError e), w')
      end
  end.

(** The chunks of a file's text that are statements: non-empty and not
    starting with the comment marker. *)
Definition isStatement (q : string) : bool :=
  negb (HasPrefix q "/*") && negb (String.eqb q "").

Definition statementsOf (sql : string) : list string :=
  filter (λ q, isStatement q = true) (Split sql stmtSep).

(** *** The orchestrator *)

Variable src : nat → nat.
Variable args : Args.
Variable files : Files.

(** One step of the main goroutine.  Where it panics (in a restorer, in
    the shuffle, in time.NewTicker) it unwinds to the deferred
    pool.Close(), the only call deferred at those lines; the step after
    is that call and the panic leaving Loader. *)
Definition driverStep (c : Config) : option Config :=
  match driver c with
  | DGetDb =>
      match pool c with
      | conn :: free =>
          Some (setDriver
                  (DRestoreDb conn (restoreDatabaseSchema conn (databases files)))
                  (setPool free c))
      | [] => None
      end
  | DRestoreDb conn p =>
      match p with
      | Ret _ => Some (setDriver (DPutDb conn) c)
      | Panic pn => Some (setDriver (DPanicRestore conn pn) c)
      | _ => let '(p', w') := act PhaseDatabase p (world c) in
             Some (setDriver (DRestoreDb conn p') (setWorld w' c))
      end
  | DPutDb conn => Some (setDriver DGetSchema (setPool (pool c ++ [conn]) c))
  | DGetSchema =>
      match pool c with
      | conn :: free =>
          Some (setDriver
                  (DRestoreSchema conn (restoreTableSchema conn (schemas files)))
                  (setPool free c))
      | [] => None
      end
  | DRestoreSchema conn p =>
      match p with
      | Ret _ => Some (setDriver (DPutSchema conn) c)
      | Panic pn => Some (setDriver (DPanicRestore conn pn) c)
      | _ => let '(p', w') := act PhaseSchema p (world c) in
             Some (setDriver (DRestoreSchema conn p') (setWorld w' c))
      end
  | DPutSchema conn => Some (setDriver DShuffle (setPool (pool c ++ [conn]) c))
  | DShuffle =>
      match Shuffle src (ctables c) with
      | Ok l => Some (setDriver (DDispatch l) (setTables l c))
      | Panicked pn => Some (setDriver (DPanicShuffle pn) c)
      end
  | DDispatch [] => Some (setDriver DNewTicker c)
  | DDispatch (table :: rest) =>
      match pool c with
      | conn :: free =>
          Some (setDriver (DDispatch rest)
                  (setWorkers
                     (workers c ++
                        [mkWorker conn table (WRestore (restoreTable conn table))])
                     (setWg (wg c + 1)%Z (setPool free c))))
      | [] => None
      end
  | DNewTicker =>
      if (tickDuration args <=? 0)%Z then Some (setDriver DPanicTicker c)
      else Some (setDriver DWait
                   (setReporter RWaiting
                      (setTicker (Some (mkTicker true false false)) c)))
  | DWait => if (wg c =? 0)%Z then Some (setDriver DSummary c) else None
  | DSummary =>
      Some (setDriver DTickStop
              (setWorld
                 (doLog (Info "restoring.all.done.cost[%.2fsec].allbytes[%.2fMB].rate[%.2fMB/s]"
                           [AClock; AInt (bytes c / 1024 / 1024)%Z; AClock])
                    (world c)) c))
  | DTickStop =>
      Some (setDriver DPoolClose
              (setTicker
                 ((λ t, mkTicker false (pending t) (closed t)) <$> ticker c) c))
  | DPoolClose => Some (setDriver DReturned c)
  | DReturned => None
  | DPanicRestore _ pn | DPanicShuffle pn => Some (crash pn c)
  | DPanicTicker => Some (crash PanicTicker c)
  end.

Definition setStage (i : nat) (w : Worker) (s : Stage) (c : Config) : Config :=
  setWorkers (<[i := mkWorker (wconn w) (wtable w) s]> (workers c)) c.

(** One step of the goroutine started for the i-th table file.  When
    restoreTable has panicked the goroutine unwinds to its deferred
    function: wg.Done(), pool.Put(conn), and then the panic leaves the
    goroutine, which ends the process. *)
Definition workerStep (i : nat) (c : Config) : option Config :=
  match workers c !! i with
  | None => None
  | Some w =>
      match wstage w with
      | WRestore p =>
          match p with
          | Ret r => Some (setStage i w (WAdd r) c)
          | Panic pn => Some (setStage i w (WPanicDone pn) c)
          | _ => let '(p', w') := act PhaseData p (world c) in
                 Some (setStage i w (WRestore p') (setWorld w' c))
          end
      | WAdd r => Some (setStage i w WDone (setBytes (uint64_add (bytes c) r) c))
      | WDone => Some (setStage i w WPut (setWg (wg c - 1)%Z c))
      | WPut => Some (setStage i w WExited (setPool (pool c ++ [wconn w]) c))
      | WExited => None
      | WPanicDone pn =>
          Some (setStage i w (WPanicPut pn) (setWg (wg c - 1)%Z c))
      | WPanicPut pn =>
          Some (setStage i w (WFatal pn) (setPool (pool c ++ [wconn w]) c))
      | WFatal pn => Some (crash pn c)
      end
  end.

(** The runtime delivers a tick when the ticker runs and its channel has
    room. *)
Definition timerStep (c : Config) : option Config :=
  match ticker c with
  | Some t =>
      if running t && negb (pending t) && negb (closed t)
      then Some (setTicker (Some (mkTicker true true (closed t))) c)
      else None
  | None => None
  end.

(** [for range tick.C]: take a tick and log the progress line (lines
    178-181); leave the loop when the channel is closed and empty; block
    otherwise. *)
Definition reporterStep (c : Config) : option Config :=
  match reporter c, ticker c with
  | RWaiting, Some t =>
      if pending t then
        Some (setTicker (Some (mkTicker (running t) false (closed t)))
                (setWorld
                   (doLog (Info "restoring.allbytes[%vMB].time[%.2fsec].rates[%.2fMB/sec]..."
                             [AInt (bytes c / 1024 / 1024)%Z; AClock; AClock])
                      (world c)) c))
      else if closed t then Some (setReporter RExited c)
      else None
  | _, _ => None
  end.

(** One step of the goroutine the scheduler picks; None when it is
    blocked or gone, or when the run has ended in a panic. *)
Definition sched (t : Thread) (c : Config) : option Config :=
  match crashed c with
  | Some _ => None
  | None =>
      match t with
      | TDriver => driverStep c
      | TWorker i => workerStep i c
      | TTimer => timerStep c
      | TReporter => reporterStep c
      end
  end.

Definition step (c c' : Config) : Prop := ∃ t, sched t c = Some c'.

(** Loader after NewPool and loadFiles. *)
Definition init : Config :=
  mkConfig DGetDb (tables files) (NewPool (Threads args)) 0%Z [] 0%Z
    emptyWorld None RNotStarted None.

Definition reachable (c : Config) : Prop := rtc step init c.

(** A run under a given schedule. *)
Fixpoint runSchedule (ts : list Thread) (c : Config) : option Config :=
  match ts with
  | [] => Some c
  | t :: rest =>
      match sched t c with
      | Some c' => runSchedule rest c'
      | None => None
      end
  end.

End Semantics.

(** Loader up to its first pool.Get: the pool is made and the catalog
    loaded; a failure of the walk ends the run before anything is
    restored. *)
Definition Loader (args : Args) (visits : list Visit) : Outcome Config :=
  match loadFiles visits with
  | Ok files => Ok (init args files)
  | Panicked p => Panicked p
  end.

(** ** Notions used in the properties *)

(** "s ends in suffix", as a proposition. *)
Definition endsIn (s suffix : string) : Prop := ∃ stem, s = stem +:+ suffix.

(** "sep occurs in s", as a proposition. *)
Definition occursIn (sep s : string) : Prop :=
  ∃ before after, s = before +:+ sep +:+ after.

(** The regular files of a walk. *)
Definition regularFiles (visits : list Visit) : list Visit :=
  filter (λ v, vIsDir v = false) visits.

#[global] Arguments HasSuffix : simpl never.
#[global] Arguments HasPrefix : simpl never.
#[global] Arguments TrimSuffix : simpl never.
#[global] Arguments Trim : simpl never.
#[global] Arguments Split : simpl never.
#[global] Arguments Base : simpl never.

(** Every error a collaborator returns is fatal on the spot: in the tree
    of a program, the continuation of a failed read or of a failed Execute
    is the panic with that error, and nothing else. *)
Inductive Fatal {A : Type} : Prog A → Prop :=
| Fatal_Ret (a : A) : Fatal (Ret a)
| Fatal_Panic (p : panic) : Fatal (Panic p)
| Fatal_Execute (conn : Connection) (sql : string) (k : option error → Prog A) :
    (∀ e, k (Some e) = Panic (PanicError e)) →
    Fatal (k None) →
    Fatal (Execute conn sql k)
| Fatal_ReadFile (path : string) (k : string * option error → Prog A) :
    (∀ data e, k (data, Some e) = Panic (PanicError e)) →
    (∀ data, Fatal (k (data, None))) →
    Fatal (ReadFile path k)
| Fatal_LogInfo (line : LogLine) (k : Prog A) :
    Fatal k → Fatal (LogInfo line k).

(** The events of a run stop at the first rejected statement: a rejected
    statement is the last event, and the run ends in the panic with its
    error. *)
Definition stopsAtFailure {A : Type} (out : Outcome A) (evs : list Event)
  : Prop :=
  ∀ pre e post, evs = pre ++ e :: post →
    ∀ err, result e = Some err →
      post = [] ∧ out = Panicked (PanicError err).

(** Every value a program can return, with the files as they are,
    satisfies P. *)
Inductive Returns {A : Type} (fsys : gmap string string) (P : A → Prop)
  : Prog A → Prop :=
| Returns_Ret (a : A) : P a → Returns fsys P (Ret a)
| Returns_Panic (p : panic) : Returns fsys P (Panic p)
| Returns_Execute (conn : Connection) (sql : string)
    (k : option error → Prog A) :
    (∀ r, Returns fsys P (k r)) → Returns fsys P (Execute conn sql k)
| Returns_ReadFile (path : string) (k : string * option error → Prog A) :
    Returns fsys P (k (readFile fsys path)) → Returns fsys P (ReadFile path k)
| Returns_LogInfo (line : LogLine) (k : Prog A) :
    Returns fsys P k → Returns fsys P (LogInfo line k).

(** r is the byte length of the text of the readable file [table]. *)
Definition textLength (fsys : gmap string string) (r : Z) (table : string)
  : Prop :=
  ∃ sql, fsys !! table = Some sql ∧ r = Z.of_nat (String.length sql).

(** The byte length of a file's text; 0 for a file that cannot be read. *)
Definition flen (fsys : gmap string string) (table : string) : Z :=
  match fsys !! table with
  | Some sql => Z.of_nat (String.length sql)
  | None => 0%Z
  end.

Fixpoint sumOver {A : Type} (f : A → Z) (l : list A) : Z :=
  match l with
  | [] => 0%Z
  | x :: l' => (f x + sumOver f l')%Z
  end.

(** The sum of the byte lengths of the text of the files of a list. *)
Definition totalBytes (fsys : gmap string string) (l : list string) : Z :=
  sumOver (flen fsys) l.

(** The goroutine has added its byte count to the counter. *)
Definition hasAdded (s : Stage) : bool :=
  match s with
  | WDone | WPut | WExited => true
  | WRestore _ | WAdd _ | WPanicDone _ | WPanicPut _ | WFatal _ => false
  end.

(** The goroutine has not called wg.Done() yet. *)
Definition notDone (s : Stage) : bool :=
  match s with
  | WRestore _ | WAdd _ | WDone | WPanicDone _ => true
  | WPut | WExited | WPanicPut _ | WFatal _ => false
  end.

(** The goroutine is unwinding a panic of restoreTable, or has. *)
Definition panicking (s : Stage) : bool :=
  match s with
  | WPanicDone _ | WPanicPut _ | WFatal _ => true
  | _ => false
  end.

(** The main goroutine has not started to dispatch row-data work. *)
Definition beforeDispatch (d : Driver) : bool :=
  match d with
  | DGetDb | DRestoreDb _ _ | DPutDb _ | DGetSchema | DRestoreSchema _ _
  | DPutSchema _ | DShuffle | DPanicRestore _ _ | DPanicShuffle _ => true
  | _ => false
  end.

(** The main goroutine has left the dispatch loop. *)
Definition dispatched (d : Driver) : bool :=
  match d with
  | DNewTicker | DWait | DSummary | DTickStop | DPoolClose | DReturned
  | DPanicTicker => true
  | _ => false
  end.

(** The main goroutine has created the ticker and started the reporter. *)
Definition tickerStarted (d : Driver) : bool :=
  match d with
  | DWait | DSummary | DTickStop | DPoolClose | DReturned => true
  | _ => false
  end.

(** wg.Wait() has returned. *)
Definition pastWait (d : Driver) : bool :=
  match d with
  | DSummary | DTickStop | DPoolClose | DReturned => true
  | _ => false
  end.


(** The sum of the byte counts added so far. *)
Definition addedOf (fsys : gmap string string) (w : Worker) : Z :=
  if hasAdded (wstage w) then flen fsys (wtable w) else 0%Z.

Definition addedBytes (fsys : gmap string string) (ws : list Worker) : Z :=
  sumOver (addedOf fsys) ws.

(** The number of goroutines that have not called wg.Done(). *)
Definition countNotDone (ws : list Worker) : Z :=
  sumOver (λ w, if notDone (wstage w) then 1%Z else 0%Z) ws.

(** The unit of work of a goroutine has failed with pn: restoreTable
    has panicked, and the goroutine is at its deferred calls or past
    them. *)
Definition failedWith (pn : panic) (s : Stage) : Prop :=
  s = WRestore (Panic pn) ∨ s = WPanicDone pn ∨ s = WPanicPut pn
  ∨ s = WFatal pn.

(** The main goroutine has panicked with pn in one of the schema phases
    (lines 144 and 149). *)
Definition schemaPanic (pn : panic) (d : Driver) : Prop :=
  ∃ conn, d = DRestoreDb conn (Panic pn)
          ∨ d = DRestoreSchema conn (Panic pn)
          ∨ d = DPanicRestore conn pn.

(** "The failing operation aborts the run immediately", read on the
    calls made on the server: nothing is executed after a rejected
    statement. *)
Definition abortsAtOnce (evs : list Event) : Prop :=
  ∀ pre e post, evs = pre ++ e :: post → is_Some (result e) → post = [].

(** ** Invariants of the orchestrator *)

(** What a goroutine holds is the byte length of its file: the value
    restoreTable can return, the value about to be added, or, once added,
    a file that was read. *)
Definition workerOk (fsys : gmap string string) (w : Worker) : Prop :=
  match wstage w with
  | WRestore p => Returns fsys (λ r, textLength fsys r (wtable w)) p
  | WAdd r => textLength fsys r (wtable w)
  | WDone | WPut | WExited => is_Some (fsys !! wtable w)
  | WPanicDone _ | WPanicPut _ | WFatal _ => True
  end.

(** The counter is the sum of the counts added, as a uint64; the
    WaitGroup counts the goroutines that are not done; the goroutines are
    those of the files dispatched so far, in order. *)
Definition progressInv (fsys : gmap string string) (c : Config) : Prop :=
  bytes c = (addedBytes fsys (workers c) mod 2 ^ 64)%Z
  ∧ wg c = countNotDone (workers c)
  ∧ Forall (workerOk fsys) (workers c)
  ∧ match driver c with
    | DDispatch rest => (wtable <$> workers c) ++ rest = ctables c
    | d => if beforeDispatch d then workers c = []
           else wtable <$> workers c = ctables c
    end
  ∧ (pastWait (driver c) = true →
     Forall (λ w, notDone (wstage w) = false) (workers c)).

(** The ticker's channel is never closed, and the reporter is blocked on
    it from the moment it is started. *)
Definition reporterInv (c : Config) : Prop :=
  (∀ t, ticker c = Some t → closed t = false)
  ∧ reporter c = (if tickerStarted (driver c) then RWaiting else RNotStarted)
  ∧ (tickerStarted (driver c) = false → ticker c = None)
  ∧ match driver c with
    | DPoolClose | DReturned => ∃ t, ticker c = Some t ∧ running t = false
    | d => tickerStarted d = true → is_Some (ticker c)
    end.

Section PhaseInvariant.

Variable fsys : gmap string string.
Variable server : list Event → Connection → string → option error.
Variable src : nat → nat.
Variable files : Files.

(** w1 is what phase 1, run to its end without failure, leaves. *)
Definition databasesRestored (w1 : World) : Prop :=
  ∃ conn,
    run fsys server PhaseDatabase
      (restoreDatabaseSchema conn (databases files)) emptyWorld = (Ok tt, w1).

(** w2 is what phases 1 and 2, run to their end without failure, leave. *)
Definition schemasRestored (w2 : World) : Prop :=
  ∃ w1 conn,
    databasesRestored w1
    ∧ run fsys server PhaseSchema
        (restoreTableSchema conn (schemas files)) w1 = (Ok tt, w2).

Definition phaseInv (c : Config) : Prop :=
  if beforeDispatch (driver c) then
    workers c = []
    ∧ ctables c = tables files
    ∧ Forall (λ e, origin e ≠ PhaseData) (executed (world c))
    ∧ match driver c with
      | DGetDb => world c = emptyWorld
      | DRestoreDb _ p =>
          ∃ conn,
            run fsys server PhaseDatabase
              (restoreDatabaseSchema conn (databases files)) emptyWorld =
            run fsys server PhaseDatabase p (world c)
      | DPutDb _ | DGetSchema => databasesRestored (world c)
      | DRestoreSchema _ p =>
          ∃ w1 conn,
            databasesRestored w1
            ∧ run fsys server PhaseSchema
                (restoreTableSchema conn (schemas files)) w1 =
              run fsys server PhaseSchema p (world c)
      | DPanicRestore _ _ => True
      | _ => schemasRestored (world c)
      end
  else
    ∃ w2 rest,
      schemasRestored w2
      ∧ Shuffle src (tables files) = Ok (ctables c)
      ∧ executed (world c) = executed w2 ++ rest
      ∧ Forall (λ e, origin e = PhaseData) rest.

End PhaseInvariant.

(** Every program a goroutine is running treats errors as fatal. *)
Definition fatalInv (c : Config) : Prop :=
  match driver c with
  | DRestoreDb _ p | DRestoreSchema _ p => Fatal p
  | _ => True
  end
  ∧ Forall (λ w, match wstage w with WRestore p => Fatal p | _ => True end)
      (workers c).

(** ** A small dump, for examples

    One database file, one table-schema file with a comment and two
    statements, two row-data shards, and a file that is not SQL. *)

Definition lf : string := String newline EmptyString.

Definition demoFs : gmap string string :=
  <["dump/prod-schema-create.sql" := "CREATE DATABASE `prod`;"]>
  (<["dump/prod.t1-schema.sql" :=
       "/*!40101 SET NAMES binary*/;" +:+ lf +:+
       "CREATE TABLE `t1` (`a` int);" +:+ lf +:+
       "CREATE INDEX `i` ON `t1` (`a`);" +:+ lf]>
  (<["dump/prod.t1.1.sql" :=
       "INSERT INTO `t1` VALUES (1);" +:+ lf +:+
       "INSERT INTO `t1` VALUES (2);" +:+ lf]>
  (<["dump/prod.t1.2.sql" := "INSERT INTO `t1` VALUES (3);" +:+ lf]> ∅))).

Definition demoVisits : list Visit :=
  [ mkVisit "dump" true None;
    mkVisit "dump/metadata" false None;
    mkVisit "dump/prod-schema-create.sql" false None;
    mkVisit "dump/prod.t1-schema.sql" false None;
    mkVisit "dump/prod.t1.1.sql" false None;
    mkVisit "dump/prod.t1.2.sql" false None ].

Definition demoFiles : Files :=
  mkFiles ["dump/prod-schema-create.sql"] ["dump/prod.t1-schema.sql"]
    ["dump/prod.t1.1.sql"; "dump/prod.t1.2.sql"].

(** A server that accepts every statement. *)
Definition acceptAll : list Event → Connection → string → option error :=
  λ _ _ _, None.

(** A random source that always draws 0. *)
Definition zeroSrc : nat → nat := λ _, 0.

Definition demoArgs : Args := mkArgs 2 1000.

(** Dumps whose names meet the characters of the suffixes. *)
Definition saFs : gmap string string :=
  {["dump/sa-schema-create.sql" := "CREATE DATABASE `sa`;"]}.

Definition sbtestFs : gmap string string :=
  <["dump/sbtest.t1-schema.sql" := "CREATE TABLE `t1` (`a` int);" +:+ lf]>
  (<["dump/sbtest.t1.sql" := "INSERT INTO `t1` VALUES (1);" +:+ lf]>
  (<["dump/test.s.sql" := "INSERT INTO `s` VALUES (1);" +:+ lf]> ∅)).

(** A schedule of the run on the small dump: the main goroutine up to
    wg.Wait(), the two workers interleaved, two ticks taken by the
    reporter, and the main goroutine to its return. *)
Definition demoSchedule : list Thread :=
  replicate 19 TDriver
  ++ [TWorker 0; TWorker 1; TWorker 0; TWorker 1; TWorker 1; TWorker 0;
      TTimer; TReporter]
  ++ replicate 6 (TWorker 0) ++ [TTimer] ++ replicate 7 (TWorker 1)
  ++ [TReporter] ++ replicate 4 TDriver.

Definition demoRun : option Config :=
  runSchedule demoFs acceptAll zeroSrc demoArgs demoFiles demoSchedule
    (init demoArgs demoFiles).

(** ** Notions used in the further properties *)

(** Every panic a program can end in satisfies P, whatever its
    collaborators answer. *)
Inductive Panics {A : Type} (P : panic → Prop) : Prog A → Prop :=
| Panics_Ret (a : A) : Panics P (Ret a)
| Panics_Panic (pn : panic) : P pn → Panics P (Panic pn)
| Panics_Execute (conn : Connection) (sql : string)
    (k : option error → Prog A) :
    (∀ r, Panics P (k r)) → Panics P (Execute conn sql k)
| Panics_ReadFile (path : string) (k : string * option error → Prog A) :
    (∀ r, Panics P (k r)) → Panics P (ReadFile path k)
| Panics_LogInfo (line : LogLine) (k : Prog A) :
    Panics P k → Panics P (LogInfo line k).

(** The panic of AssertNil. *)
Definition isErrorPanic (pn : panic) : Prop := ∃ e, pn = PanicError e.

(** The first and the last byte of a string. *)
Definition firstByte (s : string) : option ascii :=
  match s with
  | EmptyString => None
  | String c _ => Some c
  end.

Fixpoint lastByte (s : string) : option ascii :=
  match s with
  | EmptyString => None
  | String c EmptyString => Some c
  | String _ s' => lastByte s'
  end.

(** Neither end of s is a byte of cutset: strings.Trim(s, cutset) has
    nothing to strip. *)
Definition endsClearOf (cutset s : string) : Prop :=
  (∃ a, firstByte s = Some a ∧ inCutset cutset a = false)
  ∧ (∃ z, lastByte s = Some z ∧ inCutset cutset z = false).

(** The text of a dump file holding the statements qs, each followed by
    the statement separator. *)
Fixpoint dumpText (qs : list string) : string :=
  match qs with
  | [] => EmptyString
  | q :: rest => q +:+ stmtSep +:+ dumpText rest
  end.

(** The text of a file, empty when it cannot be read. *)
Definition textOf (fsys : gmap string string) (path : string) : string :=
  default "" (fsys !! path).

(** Every call a program can make on a connection is on one that
    satisfies E, and every file it can read satisfies R. *)
Inductive Calls {A : Type} (E : Connection → Prop) (R : string → Prop)
  : Prog A → Prop :=
| Calls_Ret (a : A) : Calls E R (Ret a)
| Calls_Panic (pn : panic) : Calls E R (Panic pn)
| Calls_Execute (conn : Connection) (sql : string)
    (k : option error → Prog A) :
    E conn → (∀ r, Calls E R (k r)) → Calls E R (Execute conn sql k)
| Calls_ReadFile (path : string) (k : string * option error → Prog A) :
    R path → (∀ r, Calls E R (k r)) → Calls E R (ReadFile path k)
| Calls_LogInfo (line : LogLine) (k : Prog A) :
    Calls E R k → Calls E R (LogInfo line k).

(** The connection the main goroutine has taken from the pool and not
    put back. *)
Definition driverHolds (d : Driver) : list Connection :=
  match d with
  | DRestoreDb conn _ | DPutDb conn | DRestoreSchema conn _ | DPutSchema conn
  | DPanicRestore conn _ =>
      [conn]
  | _ => []
  end.

(** A goroutine keeps its connection until its deferred pool.Put. *)
Definition holdsConn (s : Stage) : bool :=
  match s with
  | WExited | WFatal _ => false
  | _ => true
  end.

Definition workerHolds (w : Worker) : list Connection :=
  if holdsConn (wstage w) then [wconn w] else [].

(** The connections in use. *)
Definition held (c : Config) : list Connection :=
  driverHolds (driver c) ++ (workers c ≫= workerHolds).

(** Every connection of the pool is either free or in use by one
    goroutine. *)
Definition poolInv (args : Args) (c : Config) : Prop :=
  pool c ++ held c ≡ₚ NewPool (Threads args).

(** The panics of restoreTable on a table file: the one of AssertNil,
    or the index panic at splits[1] when the trimmed name has no dot. *)
Definition tablePanic (table : string) (pn : panic) : Prop :=
  isErrorPanic pn
  ∨ (pn = PanicIndex 1 1 ∧ ¬ occursIn "." (Trim (Base table) tableSuffix)).

(** Every program a goroutine is running panics only in these ways; a
    goroutine that is unwinding a panic carries one of them; and when
    the run has ended in a panic, the goroutine that raised it has run
    its deferred calls. *)
Definition panicsInv (args : Args) (c : Config) : Prop :=
  match driver c with
  | DRestoreDb _ p | DRestoreSchema _ p => Panics isErrorPanic p
  | DPanicRestore _ pn => isErrorPanic pn
  | DPanicShuffle _ => False
  | DPanicTicker => (tickDuration args ≤ 0)%Z
  | _ => True
  end
  ∧ Forall (λ w, match wstage w with
                 | WRestore p => Panics (tablePanic (wtable w)) p
                 | WPanicDone pn | WPanicPut pn | WFatal pn =>
                     tablePanic (wtable w) pn
                 | _ => True
                 end) (workers c)
  ∧ ∀ pn, crashed c = Some pn →
          (∃ conn, driver c = DPanicRestore conn pn)
          ∨ (pn = PanicTicker ∧ driver c = DPanicTicker)
          ∨ (∃ w, w ∈ workers c ∧ wstage w = WFatal pn).

(** ** Further examples *)

(** A server that rejects every statement. *)
Definition rejectAll : list Event → Connection → string → option error :=
  λ _ conn q, Some (ExecError (ID conn) q).

(** A walk that meets an entry it cannot reach. *)
Definition brokenVisits : list Visit :=
  [ mkVisit "dump" true None;
    mkVisit "dump/prod-schema-create.sql" false None;
    mkVisit "dump/lost" false (Some (WalkError "dump/lost"));
    mkVisit "dump/prod.t1.1.sql" false None ].

(** Arguments without a connection, and with a zero reporting interval. *)
Definition noPoolArgs : Args := mkArgs 0 1000.
Definition noTickArgs : Args := mkArgs 2 0.

(** The run on the small dump up to wg.Wait(), with both goroutines
    started and none of them run; and up to the summary. *)
Definition demoWaiting : option Config :=
  runSchedule demoFs acceptAll zeroSrc demoArgs demoFiles
    (replicate 19 TDriver) (init demoArgs demoFiles).

Definition demoSummary : option Config :=
  runSchedule demoFs acceptAll zeroSrc demoArgs demoFiles
    (take 43 demoSchedule) (init demoArgs demoFiles).

(** The run with a zero interval, up to time.NewTicker. *)
Definition noTickRun : option Config :=
  runSchedule demoFs acceptAll zeroSrc noTickArgs demoFiles
    (replicate 18 TDriver) (init noTickArgs demoFiles).

(** The run against the rejecting server, up to the panic of
    restoreDatabaseSchema. *)
Definition rejectedRun : option Config :=
  runSchedule demoFs rejectAll zeroSrc demoArgs demoFiles
    (replicate 3 TDriver) (init demoArgs demoFiles).

(** The same run to its end: the deferred pool.Close(), and the panic
    leaves Loader. *)
Definition rejectedEnd : option Config :=
  runSchedule demoFs rejectAll zeroSrc demoArgs demoFiles
    (replicate 5 TDriver) (init demoArgs demoFiles).

(** A server that rejects the one statement of the second shard. *)
Definition rejectThree : list Event → Connection → string → option error :=
  λ _ conn q,
    if String.eqb q "INSERT INTO `t1` VALUES (3)"
    then Some (ExecError (ID conn) q) else None.

(** Against it: the main goroutine up to wg.Wait(), the goroutine of the
    second shard up to its rejected statement, then the goroutine of the
    first shard for two calls. *)
Definition raceSchedule : list Thread :=
  replicate 19 TDriver ++ replicate 4 (TWorker 0) ++ replicate 2 (TWorker 1).

Definition raceRun : option Config :=
  runSchedule demoFs rejectThree zeroSrc demoArgs demoFiles raceSchedule
    (init demoArgs demoFiles).

(** Against it again: after the rejected statement the goroutine of the
    first shard runs to its end, the failed goroutine unwinds to its
    deferred wg.Done(), and the main goroutine passes wg.Wait() and logs
    the summary. *)
Definition lateSchedule : list Thread :=
  replicate 19 TDriver ++ replicate 4 (TWorker 0)
  ++ replicate 10 (TWorker 1) ++ replicate 2 (TWorker 0)
  ++ replicate 2 TDriver.

Definition lateRun : option Config :=
  runSchedule demoFs rejectThree zeroSrc demoArgs demoFiles lateSchedule
    (init demoArgs demoFiles).

(** * Properties *)

(** ** Strings *)

Section StringFacts.

Lemma sapp_cons (c : ascii) (a b : string) :
  String c a +:+ b = String c (a +:+ b).
Proof. reflexivity. Qed.

Lemma sapp_nil_l (a : string) : "" +:+ a = a.
Proof. reflexivity. Qed.

Lemma slength_app (a b : string) :
  String.length (a +:+ b) = String.length a + String.length b.
Proof.
  induction a as [|c a IH]; [done|].
  rewrite sapp_cons. simpl. by rewrite IH.
Qed.

Lemma sapp_assoc (a b c : string) : (a +:+ b) +:+ c = a +:+ b +:+ c.
Proof. induction a as [|x a IH]; [done|]. by rewrite !sapp_cons, IH. Qed.

Lemma substring_all (s : string) : String.substring 0 (String.length s) s = s.
Proof. induction s as [|c s IH]; simpl; [done | by rewrite IH]. Qed.

Lemma substring_app_l (a b : string) :
  String.substring 0 (String.length a) (a +:+ b) = a.
Proof.
  induction a as [|c a IH].
  - rewrite sapp_nil_l. by destruct b.
  - rewrite sapp_cons. simpl. by rewrite IH.
Qed.

Lemma substring_app_r (a b : string) (n : nat) :
  String.substring (String.length a) n (a +:+ b) = String.substring 0 n b.
Proof. induction a as [|c a IH]; [done|]. by rewrite sapp_cons. Qed.

(** A string is its first n characters followed by the others. *)
Lemma substring_split (s : string) (n : nat) :
  n ≤ String.length s →
  s = String.substring 0 n s +:+ String.substring n (String.length s - n) s.
Proof.
  revert n. induction s as [|c s IH]; intros [|n] Hn; simpl in *;
    try done; try lia.
  - by rewrite sapp_nil_l, substring_all.
  - rewrite sapp_cons. f_equal. apply IH. lia.
Qed.

Lemma slice_prefix (a b : string) : slice (a +:+ b) 0 (String.length a) = a.
Proof. unfold slice. rewrite Nat.sub_0_r. apply substring_app_l. Qed.

Lemma slice_suffix (a b : string) :
  slice (a +:+ b) (String.length a) (String.length (a +:+ b)) = b.
Proof.
  unfold slice. rewrite slength_app, substring_app_r.
  replace (String.length a + String.length b - String.length a)
    with (String.length b) by lia.
  apply substring_all.
Qed.

(** HasSuffix decides "s ends in suffix". *)
Lemma HasSuffix_spec (s suffix : string) :
  HasSuffix s suffix = true ↔ ∃ stem, s = stem +:+ suffix.
Proof.
  unfold HasSuffix. rewrite andb_true_iff, Nat.leb_le, String.eqb_eq. split.
  - intros [Hlen Heq].
    exists (String.substring 0 (String.length s - String.length suffix) s).
    unfold slice in Heq.
    pose proof (substring_split s (String.length s - String.length suffix))
      as Hs.
    rewrite Heq in Hs. apply Hs. lia.
  - intros [stem ->]. rewrite slength_app. split; [lia|].
    replace (String.length stem + String.length suffix - String.length suffix)
      with (String.length stem) by lia.
    rewrite <-slength_app. apply slice_suffix.
Qed.

Lemma HasSuffix_app (stem suffix : string) :
  HasSuffix (stem +:+ suffix) suffix = true.
Proof. apply HasSuffix_spec. by exists stem. Qed.

(** TrimSuffix removes the literal suffix, once. *)
Lemma TrimSuffix_app (stem suffix : string) :
  TrimSuffix (stem +:+ suffix) suffix = stem.
Proof.
  unfold TrimSuffix. rewrite HasSuffix_app, slength_app.
  replace (String.length stem + String.length suffix - String.length suffix)
    with (String.length stem) by lia.
  apply slice_prefix.
Qed.

Lemma TrimSuffix_no_suffix (s suffix : string) :
  HasSuffix s suffix = false → TrimSuffix s suffix = s.
Proof. unfold TrimSuffix. by intros ->. Qed.

(** HasPrefix decides "s starts with prefix". *)
Lemma HasPrefix_spec (s prefix : string) :
  HasPrefix s prefix = true ↔ ∃ rest, s = prefix +:+ rest.
Proof.
  unfold HasPrefix. rewrite andb_true_iff, Nat.leb_le, String.eqb_eq. split.
  - intros [Hlen Heq].
    exists (String.substring (String.length prefix)
              (String.length s - String.length prefix) s).
    unfold slice in Heq. rewrite Nat.sub_0_r in Heq.
    pose proof (substring_split s (String.length prefix) Hlen) as Hs.
    by rewrite Heq in Hs.
  - intros [rest ->]. rewrite slength_app. split; [lia|]. apply slice_prefix.
Qed.

(** The more specific suffixes end in the generic one. *)
Lemma dbSuffix_ends_sql (s : string) :
  HasSuffix s dbSuffix = true → HasSuffix s tableSuffix = true.
Proof.
  rewrite !HasSuffix_spec. intros [stem ->].
  exists (stem +:+ "-schema-create"). by rewrite sapp_assoc.
Qed.

Lemma schemaSuffix_ends_sql (s : string) :
  HasSuffix s schemaSuffix = true → HasSuffix s tableSuffix = true.
Proof.
  rewrite !HasSuffix_spec. intros [stem ->].
  exists (stem +:+ "-schema"). by rewrite sapp_assoc.
Qed.

(** Cutting at the first separator splits the text around it. *)
Lemma cutAt_prefix (s sep : string) :
  HasPrefix s sep = true →
  cutAt s sep = Some ("", slice s (String.length sep) (String.length s)).
Proof. intros Hp. destruct s; simpl; by rewrite Hp. Qed.

Lemma cutAt_Some (s sep before after : string) :
  cutAt s sep = Some (before, after) → s = before +:+ sep +:+ after.
Proof.
  revert before after. induction s as [|c s IH]; intros before after.
  - destruct (HasPrefix "" sep) eqn:Hp.
    + rewrite (cutAt_prefix _ _ Hp). intros [= <- <-].
      apply HasPrefix_spec in Hp as [rest Hrest].
      destruct sep; [|done]. by destruct rest.
    + simpl. by rewrite Hp.
  - destruct (HasPrefix (String c s) sep) eqn:Hp.
    + rewrite (cutAt_prefix _ _ Hp). intros [= <- <-].
      apply HasPrefix_spec in Hp as [rest Hrest].
      assert (String.length (String c s) = String.length (sep +:+ rest))
        as Hlen by (by rewrite Hrest).
      simpl in Hlen. rewrite Hrest, Hlen, slice_suffix. done.
    + simpl. rewrite Hp.
      destruct (cutAt s sep) as [[b a]|] eqn:Hcut; [|done].
      intros [= <- <-]. rewrite sapp_cons. f_equal. by apply IH.
Qed.

Lemma genSplit_Join (n : nat) (s sep : string) :
  sep ≠ "" → String.length s ≤ n → Join (genSplit n s sep) sep = s.
Proof.
  intros Hsep. revert s.
  induction n as [|n IH]; intros s Hn; simpl; [done|].
  destruct (cutAt s sep) as [[before after]|] eqn:Hcut; [|done].
  pose proof (cutAt_Some _ _ _ _ Hcut) as Hs.
  assert (String.length after ≤ n) as Hafter.
  { apply (f_equal String.length) in Hs. rewrite !slength_app in Hs.
    destruct sep; [done|]. simpl in Hs. lia. }
  specialize (IH after Hafter).
  simpl. destruct (genSplit n after sep) as [|x l] eqn:Hg.
  - destruct n; simpl in Hg; [done|].
    by destruct (cutAt after sep) as [[??]|].
  - by rewrite IH.
Qed.

(** Split returns the pieces between the separators: joined by the
    separator they give the text back. *)
Lemma Split_Join (s sep : string) : sep ≠ "" → Join (Split s sep) sep = s.
Proof.
  intros Hsep. unfold Split. destruct sep; [done|].
  by apply genSplit_Join.
Qed.

Lemma HasPrefix_app_r (a b prefix : string) :
  HasPrefix a prefix = true → HasPrefix (a +:+ b) prefix = true.
Proof.
  rewrite !HasPrefix_spec. intros [rest ->]. exists (rest +:+ b).
  by rewrite sapp_assoc.
Qed.

Lemma HasPrefix_nil (sep : string) : sep ≠ "" → HasPrefix "" sep = false.
Proof.
  intros Hsep. destruct (HasPrefix "" sep) eqn:Hp; [|done].
  apply HasPrefix_spec in Hp as [rest Hrest]. by destruct sep.
Qed.

(** The text before the first separator holds no separator. *)
Lemma cutAt_before (s sep before after : string) :
  sep ≠ "" → cutAt s sep = Some (before, after) → cutAt before sep = None.
Proof.
  intros Hsep. revert before after.
  induction s as [|c s IH]; intros before after.
  - simpl. by rewrite (HasPrefix_nil _ Hsep).
  - destruct (HasPrefix (String c s) sep) eqn:Hp.
    + rewrite (cutAt_prefix _ _ Hp). intros [= <- <-]. simpl.
      by rewrite (HasPrefix_nil _ Hsep).
    + simpl. rewrite Hp.
      destruct (cutAt s sep) as [[b a]|] eqn:Hcut; [|done].
      intros [= <- <-]. simpl. rewrite (IH b a eq_refl).
      destruct (HasPrefix (String c b) sep) eqn:Hpb; [|done].
      apply cutAt_Some in Hcut. rewrite Hcut, <-sapp_cons in Hp.
      by rewrite (HasPrefix_app_r _ _ _ Hpb) in Hp.
Qed.

(** cutAt finds a separator wherever there is one. *)
Lemma cutAt_None (s sep : string) : cutAt s sep = None → ¬ occursIn sep s.
Proof.
  intros Hcut (before & after & ->). revert Hcut.
  induction before as [|c before IH].
  - rewrite sapp_nil_l, cutAt_prefix; [done|].
    apply HasPrefix_spec. by exists after.
  - rewrite sapp_cons. simpl.
    destruct (HasPrefix _ sep); [done|].
    destruct (cutAt (before +:+ sep +:+ after) sep) as [[b a]|]; [done|].
    intros _. by apply IH.
Qed.

(** With len(s) iterations the loop runs to its end: no element of the
    result holds a separator. *)
Lemma genSplit_complete (n : nat) (s sep : string) :
  sep ≠ "" → String.length s ≤ n →
  Forall (λ q, cutAt q sep = None) (genSplit n s sep).
Proof.
  intros Hsep. revert s. induction n as [|n IH]; intros s Hn; simpl.
  - destruct s; [|simpl in Hn; lia]. constructor; [|done]. simpl.
    by rewrite (HasPrefix_nil _ Hsep).
  - destruct (cutAt s sep) as [[before after]|] eqn:Hcut.
    + constructor; [by eapply cutAt_before|]. apply IH.
      apply cutAt_Some, (f_equal String.length) in Hcut.
      rewrite !slength_app in Hcut. destruct sep; [done|].
      simpl in Hcut. lia.
    + by constructor.
Qed.

Lemma Split_complete (s sep : string) :
  sep ≠ "" → Forall (λ q, ¬ occursIn sep q) (Split s sep).
Proof.
  intros Hsep. unfold Split. destruct sep; [done|].
  eapply Forall_impl; [by apply genSplit_complete|].
  intros q. apply cutAt_None.
Qed.

(** Split by a non-empty separator returns at least one element. *)
Lemma Split_head (s sep : string) :
  sep ≠ "" → ∃ x l, Split s sep = x :: l.
Proof.
  intros Hsep. unfold Split. destruct sep as [|c sep]; [done|].
  destruct (String.length s) as [|n]; simpl; [by eauto|].
  destruct (cutAt s (String c sep)) as [[before after]|]; by eauto.
Qed.

End StringFacts.

(** ** The file catalog *)

Section Catalog.

Lemma classify_database (p : string) :
  classify p = CatDatabase ↔ endsIn p dbSuffix.
Proof.
  unfold classify, endsIn. rewrite <-HasSuffix_spec.
  destruct (HasSuffix p dbSuffix), (HasSuffix p schemaSuffix),
    (HasSuffix p tableSuffix); intuition congruence.
Qed.

Lemma classify_schema (p : string) :
  classify p = CatSchema ↔ ¬ endsIn p dbSuffix ∧ endsIn p schemaSuffix.
Proof.
  unfold classify, endsIn. rewrite <-!HasSuffix_spec.
  destruct (HasSuffix p dbSuffix), (HasSuffix p schemaSuffix),
    (HasSuffix p tableSuffix); intuition congruence.
Qed.

Lemma classify_table (p : string) :
  classify p = CatTable ↔
  ¬ endsIn p dbSuffix ∧ ¬ endsIn p schemaSuffix ∧ endsIn p tableSuffix.
Proof.
  unfold classify, endsIn. rewrite <-!HasSuffix_spec.
  destruct (HasSuffix p dbSuffix), (HasSuffix p schemaSuffix),
    (HasSuffix p tableSuffix); intuition congruence.
Qed.

Lemma classify_none (p : string) :
  classify p = CatNone ↔ ¬ endsIn p tableSuffix.
Proof.
  unfold classify, endsIn. rewrite <-!HasSuffix_spec.
  pose proof (dbSuffix_ends_sql p). pose proof (schemaSuffix_ends_sql p).
  destruct (HasSuffix p dbSuffix), (HasSuffix p schemaSuffix),
    (HasSuffix p tableSuffix); intuition congruence.
Qed.

Lemma inCategory_singleton (c : Category) (v : Visit) :
  inCategory c [v] =
    if decide (vIsDir v = false ∧ classify (vpath v) = c)
    then [vpath v] else [].
Proof.
  unfold inCategory. rewrite filter_cons, filter_nil. by case_decide.
Qed.

(** The callback appends the path of a regular file to the sequence of
    its category and to no other. *)
Lemma walkFn_classify (files : Files) (v : Visit) :
  verr v = None →
  walkFn files v =
    Ok (mkFiles (databases files ++ inCategory CatDatabase [v])
                (schemas files ++ inCategory CatSchema [v])
                (tables files ++ inCategory CatTable [v]), None).
Proof.
  intros Herr. unfold walkFn. rewrite Herr, !inCategory_singleton.
  unfold classify. destruct files as [ds ss ts], v as [p d e]; simpl.
  destruct d, (HasSuffix p dbSuffix), (HasSuffix p schemaSuffix),
    (HasSuffix p tableSuffix); simpl;
    repeat case_decide; rewrite ?app_nil_r; try done;
    intuition congruence.
Qed.

Lemma inCategory_cons (c : Category) (v : Visit) (visits : list Visit) :
  inCategory c (v :: visits) = inCategory c [v] ++ inCategory c visits.
Proof.
  unfold inCategory. change (v :: visits) with ([v] ++ visits).
  by rewrite filter_app, fmap_app.
Qed.

Lemma Walk_classify (visits : list Visit) (files : Files) :
  Forall (λ v, verr v = None) visits →
  Walk visits files =
    Ok (mkFiles (databases files ++ inCategory CatDatabase visits)
                (schemas files ++ inCategory CatSchema visits)
                (tables files ++ inCategory CatTable visits), None).
Proof.
  intros Hok. revert files.
  induction Hok as [|v visits Hv _ IH]; intros files; simpl.
  - unfold inCategory; simpl. rewrite !app_nil_r. by destruct files.
  - rewrite (walkFn_classify _ _ Hv), IH. simpl.
    by rewrite !(inCategory_cons _ v visits), !(assoc_L (++)).
Qed.

(** Every regular file counts in exactly one category. *)
Lemma categories_partition (visits : list Visit) :
  length (inCategory CatDatabase visits) + length (inCategory CatSchema visits)
  + length (inCategory CatTable visits) + length (inCategory CatNone visits)
  = length (regularFiles visits).
Proof.
  unfold inCategory, regularFiles. rewrite !length_fmap.
  induction visits as [|v visits IH]; [done|].
  rewrite !filter_cons.
  destruct (vIsDir v) eqn:Hd, (classify (vpath v)) eqn:Hc;
    repeat case_decide; simpl; try lia; intuition congruence.
Qed.

Lemma inCategory_elem (c : Category) (visits : list Visit) (p : string) :
  p ∈ inCategory c visits ↔
  ∃ v, v ∈ visits ∧ vpath v = p ∧ vIsDir v = false ∧ classify p = c.
Proof.
  unfold inCategory. rewrite list_elem_of_fmap. split.
  - intros (v & -> & Hv). apply list_elem_of_filter in Hv as [[Hd Hc] Hv].
    by exists v.
  - intros (v & Hv & <- & Hd & Hc). exists v. split; [done|].
    by apply list_elem_of_filter.
Qed.

(** C1. For a walk without error the catalog holds, in walk order, the
    regular files ending in "-schema-create.sql" in [databases]; of the
    others, those ending in "-schema.sql" in [schemas]; of the others,
    those ending in ".sql" in [tables]; a file with none of the suffixes
    is in no sequence.  The three sequences are disjoint and, with the
    dropped files, account for every regular file once. *)
Theorem loadFiles_classification (visits : list Visit) :
  Forall (λ v, verr v = None) visits →
  ∃ files,
    loadFiles visits = Ok files
    ∧ databases files = inCategory CatDatabase visits
    ∧ schemas files = inCategory CatSchema visits
    ∧ tables files = inCategory CatTable visits
    ∧ (∀ p, (classify p = CatDatabase ↔ endsIn p dbSuffix)
          ∧ (classify p = CatSchema ↔
             ¬ endsIn p dbSuffix ∧ endsIn p schemaSuffix)
          ∧ (classify p = CatTable ↔
             ¬ endsIn p dbSuffix ∧ ¬ endsIn p schemaSuffix
             ∧ endsIn p tableSuffix)
          ∧ (classify p = CatNone ↔ ¬ endsIn p tableSuffix))
    ∧ (∀ p, ¬ (p ∈ databases files ∧ p ∈ schemas files)
          ∧ ¬ (p ∈ databases files ∧ p ∈ tables files)
          ∧ ¬ (p ∈ schemas files ∧ p ∈ tables files))
    ∧ length (databases files) + length (schemas files)
      + length (tables files) + length (inCategory CatNone visits)
      = length (regularFiles visits).
Proof.
  intros Hok.
  exists (mkFiles (inCategory CatDatabase visits) (inCategory CatSchema visits)
            (inCategory CatTable visits)).
  unfold loadFiles. rewrite (Walk_classify _ _ Hok).
  cbn [databases schemas tables app]. split_and!; try done.
  - intros p. split_and!; [apply classify_database | apply classify_schema
                          | apply classify_table | apply classify_none].
  - intros p. rewrite !inCategory_elem. split_and!;
      intros [(v1 & _ & _ & _ & H1) (v2 & _ & _ & _ & H2)]; congruence.
  - apply categories_partition.
Qed.

End Catalog.

(** ** The restorers, run by one goroutine *)

Section Restorers.

Variable fsys : gmap string string.
Variable server : list Event → Connection → string → option error.

Local Abbreviation run := (run fsys server).
Local Abbreviation executeAll := (executeAll server).

Lemma run_bind {A B : Type} (o : Origin) (m : Prog A) (f : A → Prog B)
    (w : World) :
  run o (bind m f) w =
    match run o m w with
    | (Ok a, w') => run o (f a) w'
    | (Panicked p, w') => (Panicked p, w')
    end.
Proof.
  revert w. induction m as [a|p|conn sql k IH|path k IH|line k IH];
    intros w; simpl; try done; apply IH.
Qed.

(** One call, then the rest: a run goes through [act]. *)
Lemma run_act {A : Type} (o : Origin) (p : Prog A) (w : World) :
  run o p w = run o (act fsys server o p w).1 (act fsys server o p w).2.
Proof.
  by destruct p as [a|pn|conn sql k|path k|line k].
Qed.

(** The events of a run are added at the end, with the run's origin. *)
Lemma run_executed {A : Type} (o : Origin) (p : Prog A) (w : World) :
  ∃ evs, executed (run o p w).2 = executed w ++ evs
         ∧ Forall (λ e, origin e = o) evs.
Proof.
  revert w. induction p as [a|pn|conn sql k IH|path k IH|line k IH];
    intros w; simpl.
  - exists []. by rewrite app_nil_r.
  - exists []. by rewrite app_nil_r.
  - destruct (IH (server (executed w) conn sql)
                (mkWorld (executed w ++
                   [mkEvent o conn sql (server (executed w) conn sql)])
                   (logged w))) as (evs & Hevs & Ho).
    exists (mkEvent o conn sql (server (executed w) conn sql) :: evs).
    unfold doExecute. rewrite Hevs. simpl. rewrite <-(assoc_L (++)).
    split; [done|]. by constructor.
  - apply IH.
  - destruct (IH (doLog line w)) as (evs & Hevs & Ho). by exists evs.
Qed.

(** The statement loop executes the statements among the chunks, in
    order, up to the first failure. *)
Lemma run_rangeQuerys (o : Origin) (conn : Connection) (querys : list string)
    (w : World) :
  run o (rangeQuerys conn querys) w =
    executeAll o conn (filter (λ q, isStatement q = true) querys) w.
Proof.
  revert w. induction querys as [|q querys IH]; intros w; [done|].
  rewrite filter_cons. cbn [rangeQuerys]. rewrite run_bind.
  change (negb (HasPrefix q "/*") && negb (String.eqb q ""))
    with (isStatement q).
  case_decide as Hq.
  - rewrite Hq. simpl.
    destruct (server (executed w) conn q) as [e|]; simpl; [done|].
    apply IH.
  - apply not_true_is_false in Hq. rewrite Hq. simpl. apply IH.
Qed.

Lemma executeAll_accepted (o : Origin) (conn : Connection)
    (stmts : list string) (w : World) :
  (∀ h q, q ∈ stmts → server h conn q = None) →
  executeAll o conn stmts w =
    (Ok tt, mkWorld (executed w ++ ((λ q, mkEvent o conn q None) <$> stmts))
              (logged w)).
Proof.
  revert w. induction stmts as [|q stmts IH]; intros w Hacc; simpl.
  - rewrite app_nil_r. by destruct w.
  - unfold doExecute. rewrite (Hacc _ q) by left.
    rewrite IH by (intros; apply Hacc; by right). simpl.
    by rewrite <-(assoc_L (++)).
Qed.

Lemma statementsOf_elem (sql q : string) :
  q ∈ statementsOf sql ↔
  q ∈ Split sql stmtSep ∧ q ≠ "" ∧ ¬ (∃ rest, q = "/*" +:+ rest).
Proof.
  unfold statementsOf, isStatement. rewrite list_elem_of_filter.
  rewrite andb_true_iff, !negb_true_iff, String.eqb_neq.
  rewrite <-HasPrefix_spec. destruct (HasPrefix q "/*"); intuition congruence.
Qed.


Lemma run_part (o : Origin) (splits : list string) (w : World) :
  ∃ part, run o (if 2 <? length splits then index splits 2 else Ret "0") w
          = (Ok part, w).
Proof.
  destruct (2 <? length splits) eqn:Hlen; [|by eexists].
  apply Nat.ltb_lt in Hlen. apply lookup_lt_is_Some in Hlen as [part Hpart].
  exists part. unfold index. by rewrite Hpart.
Qed.

(** restoreTable on a file whose name yields a database and a table
    segment: the start line, the use statement, the read, the statements,
    the done line. *)
Lemma restoreTable_run (o : Origin) (conn : Connection) (table db tbl : string)
    (w : World) :
  Split (Trim (Base table) tableSuffix) "." !! 0 = Some db →
  Split (Trim (Base table) tableSuffix) "." !! 1 = Some tbl →
  ∃ part,
    run o (restoreTable conn table) w =
      let w1 := doLog (Info "restoring.tables[%s].parts[%s].thread[%d]"
                         [AStr tbl; AStr part; AInt (Z.of_nat (ID conn))]) w in
      match doExecute server o conn (Sprintf_use db) w1 with
      | (Some e, w2) => (Panicked (PanicError e), w2)
      | (None, w2) =>
          match fsys !! table with
          | None => (Panicked (PanicError (ReadError table)), w2)
          | Some sql =>
              match executeAll o conn (statementsOf sql) w2 with
              | (Ok _, w3) =>
                  (Ok (Z.of_nat (String.length sql)),
                   doLog (Info "restoring.tables[%s].parts[%s].thread[%d].done..."
                            [AStr tbl; AStr part; AInt (Z.of_nat (ID conn))]) w3)
              | (Panicked p, w3) => (Panicked p, w3)
              end
          end
      end.
Proof.
  intros Hdb Htbl. unfold restoreTable.
  destruct (run_part o (Split (Trim (Base table) tableSuffix) ".") w)
    as [part Hpart].
  exists part. rewrite run_bind. unfold index at 1. rewrite Hdb. simpl.
  rewrite run_bind. unfold index at 1. rewrite Htbl. simpl.
  rewrite run_bind, Hpart. simpl.
  destruct (server (executed w) conn (Sprintf_use db)) as [e|]; simpl; [done|].
  unfold readFile. destruct (fsys !! table) as [sql|]; simpl; [|done].
  rewrite run_bind, run_rangeQuerys. fold (statementsOf sql).
  by destruct (executeAll _ _ _ _) as [[[]|p] w3].
Qed.

(** restoreTableSchema on its first file, then on the others. *)
Lemma restoreTableSchema_run (o : Origin) (conn : Connection)
    (schema db : string) (rest : list string) (w : World) :
  Split (Trim (Base schema) schemaSuffix) "." !! 0 = Some db →
  run o (restoreTableSchema conn (schema :: rest)) w =
    match doExecute server o conn (Sprintf_use db) w with
    | (Some e, w1) => (Panicked (PanicError e), w1)
    | (None, w1) =>
        match fsys !! schema with
        | None => (Panicked (PanicError (ReadError schema)), w1)
        | Some sql =>
            match executeAll o conn (statementsOf sql) w1 with
            | (Ok _, w2) =>
                run o (restoreTableSchema conn rest)
                  (doLog (Info "restoring.schema[%s]"
                            [AStr (Trim (Base schema) schemaSuffix)]) w2)
            | (Panicked p, w2) => (Panicked p, w2)
            end
        end
    end.
Proof.
  intros Hdb. cbn [restoreTableSchema].
  rewrite run_bind. unfold index at 1. rewrite Hdb. simpl.
  destruct (server (executed w) conn (Sprintf_use db)) as [e|]; simpl; [done|].
  unfold readFile. destruct (fsys !! schema) as [sql|]; simpl; [|done].
  rewrite run_bind, run_rangeQuerys. fold (statementsOf sql).
  by destruct (executeAll _ _ _ _) as [[[]|p] w2].
Qed.

(** restoreDatabaseSchema on its first file, then on the others. *)
Lemma restoreDatabaseSchema_run (o : Origin) (conn : Connection)
    (db : string) (rest : list string) (w : World) :
  run o (restoreDatabaseSchema conn (db :: rest)) w =
    match fsys !! db with
    | None => (Panicked (PanicError (ReadError db)), w)
    | Some sql =>
        match doExecute server o conn sql w with
        | (Some e, w1) => (Panicked (PanicError e), w1)
        | (None, w1) =>
            run o (restoreDatabaseSchema conn rest)
              (doLog (Info "restoring.database[%s]"
                        [AStr (TrimSuffix (Base db) dbSuffix)]) w1)
        end
    end.
Proof.
  cbn [restoreDatabaseSchema]. simpl. unfold readFile.
  destruct (fsys !! db) as [sql|]; simpl; [|done].
  by destruct (server (executed w) conn sql) as [e|].
Qed.

(** X22. The text of a table-schema file, or of a row-data file whose
    trimmed base name has at least two dot-separated segments, is split
    on ";\n" (the chunks hold no separator and, joined by the separator,
    are the text); the chunks that are non-empty and do not start with
    "/*" are its statements; when the server accepts them they are executed, after
    the use statement, in their order of appearance and all on the given
    connection, and nothing else is. *)
Theorem statements_executed (conn : Connection) (file sql db : string)
    (w : World) :
  fsys !! file = Some sql →
  (∀ h q, q ∈ Sprintf_use db :: statementsOf sql → server h conn q = None) →
  Join (Split sql stmtSep) stmtSep = sql
  ∧ Forall (λ q, ¬ occursIn stmtSep q) (Split sql stmtSep)
  ∧ (∀ q, q ∈ statementsOf sql ↔
          q ∈ Split sql stmtSep ∧ q ≠ "" ∧ ¬ (∃ rest, q = "/*" +:+ rest))
  ∧ statementsOf sql = filter (λ q, isStatement q = true) (Split sql stmtSep)
  ∧ (∀ o rest,
       Split (Trim (Base file) schemaSuffix) "." !! 0 = Some db →
       ∃ w1, run o (restoreTableSchema conn (file :: rest)) w
             = run o (restoreTableSchema conn rest) w1
             ∧ executed w1 = executed w ++
                 ((λ q, mkEvent o conn q None) <$>
                    (Sprintf_use db :: statementsOf sql)))
  ∧ (∀ o tbl,
       Split (Trim (Base file) tableSuffix) "." !! 0 = Some db →
       Split (Trim (Base file) tableSuffix) "." !! 1 = Some tbl →
       ∃ w1, run o (restoreTable conn file) w
             = (Ok (Z.of_nat (String.length sql)), w1)
             ∧ executed w1 = executed w ++
                 ((λ q, mkEvent o conn q None) <$>
                    (Sprintf_use db :: statementsOf sql))).
Proof.
  intros Hfile Hacc. split_and!.
  - by apply Split_Join.
  - by apply Split_complete.
  - apply statementsOf_elem.
  - done.
  - intros o rest Hdb. rewrite (restoreTableSchema_run _ _ _ _ _ _ Hdb).
    unfold doExecute. rewrite (Hacc _ (Sprintf_use db)) by left.
    rewrite Hfile, executeAll_accepted by (intros; apply Hacc; by right).
    eexists. split; [done|]. simpl. by rewrite <-(assoc_L (++)).
  - intros o tbl Hdb Htbl.
    destruct (restoreTable_run o conn file db tbl w Hdb Htbl) as [part ->].
    simpl. rewrite (Hacc _ (Sprintf_use db)) by left.
    rewrite Hfile, executeAll_accepted by (intros; apply Hacc; by right).
    eexists. split; [done|]. simpl. by rewrite <-(assoc_L (++)).
Qed.

(** C10. restoreDatabaseSchema logs the base name of the file without
    its literal suffix "-schema-create.sql", removed once at the end:
    for a base name [name ++ "-schema-create.sql"] the line logged is
    for [name], whatever characters [name] is made of. *)
Theorem restoreDatabaseSchema_logs_name (o : Origin) (conn : Connection)
    (db name sql : string) (rest : list string) (w : World) :
  Base db = name +:+ dbSuffix →
  fsys !! db = Some sql →
  server (executed w) conn sql = None →
  TrimSuffix (Base db) dbSuffix = name
  ∧ run o (restoreDatabaseSchema conn (db :: rest)) w =
      run o (restoreDatabaseSchema conn rest)
        (mkWorld (executed w ++ [mkEvent o conn sql None])
           (logged w ++ [Info "restoring.database[%s]" [AStr name]])).
Proof.
  intros Hbase Hfile Hacc. rewrite restoreDatabaseSchema_run, Hfile.
  unfold doExecute. rewrite Hacc, Hbase, TrimSuffix_app. done.
Qed.


(** *** Errors are fatal in the three restorers *)

Lemma Fatal_bind {A B : Type} (m : Prog A) (f : A → Prog B) :
  Fatal m → (∀ a, Fatal (f a)) → Fatal (bind m f).
Proof.
  intros Hm Hf. induction Hm as [a|p|conn sql k Hk _ IH|path k Hk _ IH|line k _ IH];
    simpl; [apply Hf | constructor | | | by constructor].
  - constructor; [|done]. intros e. by rewrite Hk.
  - constructor; [|done]. intros data e. by rewrite Hk.
Qed.

Lemma Fatal_rangeQuerys (conn : Connection) (querys : list string) :
  Fatal (rangeQuerys conn querys).
Proof.
  induction querys as [|q querys IH]; [constructor|].
  cbn [rangeQuerys]. apply Fatal_bind; [|done].
  destruct (negb (HasPrefix q "/*") && negb (String.eqb q ""));
    repeat constructor.
Qed.

Lemma Fatal_restoreDatabaseSchema (conn : Connection) (dbs : list string) :
  Fatal (restoreDatabaseSchema conn dbs).
Proof.
  induction dbs as [|db dbs IH]; [constructor|].
  cbn [restoreDatabaseSchema]. simpl.
  constructor; [done|]. intros data. simpl.
  constructor; [done|]. simpl. by constructor.
Qed.

Lemma Fatal_restoreTableSchema (conn : Connection) (schemas : list string) :
  Fatal (restoreTableSchema conn schemas).
Proof.
  induction schemas as [|schema schemas IH]; [constructor|].
  cbn [restoreTableSchema]. apply Fatal_bind.
  { unfold index. destruct (_ !! 0); constructor. }
  intros db. simpl. constructor; [done|]. simpl.
  constructor; [done|]. intros data. simpl.
  apply Fatal_bind; [apply Fatal_rangeQuerys|]. intros _. simpl.
  by constructor.
Qed.

Lemma Fatal_restoreTable (conn : Connection) (table : string) :
  Fatal (restoreTable conn table).
Proof.
  unfold restoreTable. apply Fatal_bind.
  { unfold index. destruct (_ !! 0); constructor. }
  intros db. apply Fatal_bind.
  { unfold index. destruct (_ !! 1); constructor. }
  intros tbl. apply Fatal_bind.
  { destruct (2 <? _); [|constructor].
    unfold index. destruct (_ !! 2); constructor. }
  intros part. simpl. constructor. constructor; [done|]. simpl.
  constructor; [done|]. intros data. simpl.
  apply Fatal_bind; [apply Fatal_rangeQuerys|]. intros _. simpl.
  repeat constructor.
Qed.

(** What a fatal program does on the server: it stops at the first
    rejected statement. *)
Lemma Fatal_stops {A : Type} (p : Prog A) :
  Fatal p →
  ∀ o w, ∃ evs, executed (run o p w).2 = executed w ++ evs
                ∧ stopsAtFailure (run o p w).1 evs.
Proof.
  induction 1 as [a|pn|conn sql k Hk _ IH|path k Hk _ IH|line k _ IH];
    intros o w; simpl.
  - exists []. rewrite app_nil_r. split; [done|].
    intros pre e post Hevs. by destruct pre.
  - exists []. rewrite app_nil_r. split; [done|].
    intros pre e post Hevs. by destruct pre.
  - destruct (server (executed w) conn sql) as [err|] eqn:Hr.
    + rewrite Hk. simpl.
      exists [mkEvent o conn sql (Some err)]. split; [done|].
      intros pre e post Hevs err' Herr.
      destruct pre as [|e' pre]; simplify_eq/=; [done|].
      by destruct pre.
    + destruct (IH o (mkWorld (executed w ++ [mkEvent o conn sql None])
                        (logged w))) as (evs & Hevs & Hstop).
      exists (mkEvent o conn sql None :: evs).
      rewrite Hevs. simpl. rewrite <-(assoc_L (++)). split; [done|].
      intros pre e post Heq err Herr.
      destruct pre as [|e' pre]; simplify_eq/=.
      by eapply Hstop.
  - destruct (readFile fsys path) as [data [err|]].
    + rewrite Hk. simpl. exists []. rewrite app_nil_r. split; [done|].
      intros pre e post Hevs. by destruct pre.
    + apply IH.
  - destruct (IH o (doLog line w)) as (evs & Hevs & Hstop). by exists evs.
Qed.

(** One call of a fatal program leaves a fatal program; a rejected
    statement leaves the panic. *)
Lemma Fatal_act {A : Type} (o : Origin) (p : Prog A) (w : World) :
  Fatal p → Fatal (act fsys server o p w).1.
Proof.
  destruct 1 as [a|pn|conn sql k Hk Hn|path k Hk Hn|line k Hn]; simpl;
    try by constructor.
  - destruct (server (executed w) conn sql); [rewrite Hk; constructor|done].
  - destruct (readFile fsys path) as [data [err|]];
      [rewrite Hk; constructor|done].
  - done.
Qed.

(** *** What restoreTable returns *)

Lemma Returns_bind {A B : Type} (Q : A → Prop) (P : B → Prop)
    (m : Prog A) (f : A → Prog B) :
  Returns fsys Q m → (∀ a, Q a → Returns fsys P (f a)) →
  Returns fsys P (bind m f).
Proof.
  intros Hm Hf. induction Hm; simpl; try (by constructor). by apply Hf.
Qed.

Lemma Returns_any {A : Type} (p : Prog A) : Returns fsys (λ _, True) p.
Proof. induction p; by constructor. Qed.

Lemma Returns_restoreTable (conn : Connection) (table : string) :
  Returns fsys (λ r, textLength fsys r table) (restoreTable conn table).
Proof.
  unfold restoreTable.
  eapply Returns_bind; [apply Returns_any|]. intros db _.
  eapply Returns_bind; [apply Returns_any|]. intros tbl _.
  eapply Returns_bind; [apply Returns_any|]. intros part _.
  simpl. constructor. constructor. intros r. simpl.
  eapply Returns_bind; [apply Returns_any|]. intros _ _.
  constructor. unfold readFile.
  destruct (fsys !! table) as [sql|] eqn:Hsql; simpl; [|constructor].
  eapply Returns_bind; [apply Returns_any|]. intros _ _. simpl.
  constructor. constructor. by exists sql.
Qed.


End Restorers.

(** ** The shuffle *)

Section ShuffleFacts.

Lemma Intn_range (src : nat → nat) (call n : nat) :
  0 < n → Intn src call n < n.
Proof. intros Hn. unfold Intn. apply Nat.mod_upper_bound. lia. Qed.

(** A swap within range exchanges two elements and keeps the others. *)
Lemma swap_in_range (a : list string) (i j : nat) :
  i < length a → j < length a →
  ∃ a', swap a i j = Ok a' ∧ a' ≡ₚ a ∧ length a' = length a.
Proof.
  intros Hi Hj. unfold swap.
  apply lookup_lt_is_Some in Hi as [ai Hai].
  apply lookup_lt_is_Some in Hj as [aj Haj].
  rewrite Hai, Haj. eexists. split; [done|]. split.
  - by apply Permutation_insert_swap.
  - by rewrite !length_insert.
Qed.

Lemma shuffleLoop_perm (src : nat → nat) (indices : list nat)
    (a : list string) :
  Forall (λ i, i < length a) indices →
  ∃ a', shuffleLoop src indices a = Ok a' ∧ a' ≡ₚ a ∧ length a' = length a.
Proof.
  revert a. induction indices as [|i indices IH]; intros a Hin; simpl.
  - by exists a.
  - apply Forall_cons in Hin as [Hi Hin].
    assert (Intn src i (i + 1) < length a) as Hj.
    { pose proof (Intn_range src i (i + 1)). lia. }
    destruct (swap_in_range a i _ Hi Hj) as (a1 & -> & Hp1 & Hl1).
    destruct (IH a1) as (a' & -> & Hp & Hl).
    { by rewrite Hl1. }
    exists a'. split; [done|]. split; [by rewrite Hp | by rewrite Hl].
Qed.

Lemma Shuffle_perm (src : nat → nat) (a : list string) :
  ∃ a', Shuffle src a = Ok a' ∧ a' ≡ₚ a ∧ length a' = length a.
Proof.
  apply shuffleLoop_perm. apply Forall_forall. intros i Hi.
  apply elem_of_seq in Hi. lia.
Qed.

(** C4. Whatever the random source draws, the shuffle does not fail
    and returns a permutation of the list it is given: the same length,
    the elements of the input rearranged by a one-to-one map of the
    positions, no element duplicated and none dropped. *)
Theorem Shuffle_is_permutation (src : nat → nat) (a : list string) :
  ∃ a',
    Shuffle src a = Ok a'
    ∧ a' ≡ₚ a
    ∧ length a' = length a
    ∧ (∃ f : nat → nat, Inj (=) (=) f ∧ ∀ i, a' !! i = a !! f i)
    ∧ (∀ x, x ∈ a' ↔ x ∈ a)
    ∧ (NoDup a → NoDup a').
Proof.
  destruct (Shuffle_perm src a) as (a' & Hs & Hp & Hl).
  exists a'. split_and!; try done.
  - by apply Permutation_inj in Hp as [_ Hf].
  - intros x. by rewrite Hp.
  - intros Hnd. by rewrite Hp.
Qed.

End ShuffleFacts.

(** ** The orchestrator *)

Section Orchestrator.

Variable fsys : gmap string string.
Variable server : list Event → Connection → string → option error.
Variable src : nat → nat.
Variable args : Args.
Variable files : Files.

Local Abbreviation run' := (run fsys server).
Local Abbreviation act' := (act fsys server).
Local Abbreviation sched' := (sched fsys server src args files).
Local Abbreviation step' := (step fsys server src args files).
Local Abbreviation init' := (init args files).
Local Abbreviation reachable' := (reachable fsys server src args files).

(** Invariants are proved on the initial state and over one step. *)
Lemma reachable_inv (P : Config → Prop) :
  P init' →
  (∀ c c' t, reachable' c → P c → sched' t c = Some c' → P c') →
  ∀ c, reachable' c → P c.
Proof.
  intros Hinit Hstep. unfold reachable.
  apply rtc_ind_r; [done|].
  intros c c' Hc [t Ht] IH. by eapply Hstep.
Qed.

Lemma runSchedule_reachable (ts : list Thread) (c c' : Config) :
  reachable' c → runSchedule fsys server src args files ts c = Some c' →
  reachable' c'.
Proof.
  revert c. induction ts as [|t ts IH]; intros c Hc; simpl.
  - by intros [= <-].
  - destruct (sched' t c) as [c1|] eqn:Ht; [|done].
    apply IH. eapply rtc_r; [done|]. by exists t.
Qed.

(** The cases of one step. *)
Ltac step_cases H :=
  unfold sched, driverStep, workerStep, timerStep, reporterStep,
    setStage in H;
  repeat (case_match; simplify_eq/=; try done).

(** *** The reporter *)

Lemma reporterInv_reachable (c : Config) : reachable' c → reporterInv c.
Proof.
  apply reachable_inv; clear c.
  - unfold reporterInv. simpl. by split_and!.
  - intros c c' t _ (Hcl & Hrep & Htk & Hst) Hstep. unfold reporterInv.
    destruct c as [d tb po n ws b w tk rp cr]; simpl in *.
    step_cases Hstep;
      try (split_and!; simpl; try done; intros; simplify_eq/=; by eauto);
      try (by specialize (Htk eq_refl));
      try (specialize (Hcl _ eq_refl); congruence).
    + destruct (Hst eq_refl) as [t ->]. simpl. split_and!; try done.
      * intros t' [= <-]. simpl. by apply Hcl.
      * by eexists.
    + destruct Hst as (t0 & [= <-] & Hrun). by rewrite Hrun in *.
    + destruct Hst as (t0 & [= <-] & Hrun). by rewrite Hrun in *.
    + destruct Hst as (t0 & [= <-] & Hrun). split_and!; try done.
      * intros t' [= <-]. simpl. by apply Hcl.
      * by eexists.
    + destruct Hst as (t0 & [= <-] & Hrun). split_and!; try done.
      * intros t' [= <-]. simpl. by apply Hcl.
      * by eexists.
Qed.

(** The loop of the reporter is never left, and once started the
    reporter is blocked on the channel of the ticker. *)
Lemma reporter_never_exits (c : Config) :
  reachable' c →
  reporter c ≠ RExited
  ∧ (tickerStarted (driver c) = true → reporter c = RWaiting).
Proof.
  intros Hc. destruct (reporterInv_reachable c Hc) as (_ & Hrep & _).
  rewrite Hrep. by destruct (tickerStarted (driver c)).
Qed.

(** When Loader has returned the ticker is stopped and its channel is
    open: no tick comes any more, and the reporter can only take the
    tick that may be left in the channel. *)
Lemma reporter_after_return (c : Config) :
  reachable' c → driver c = DReturned →
  timerStep c = None
  ∧ ∀ c', reporterStep c = Some c' →
          reporter c' = RWaiting ∧ reporterStep c' = None.
Proof.
  intros Hc Hd. destruct (reporterInv_reachable c Hc) as (Hcl & Hrep & _ & Hst).
  rewrite Hd in Hrep, Hst. simpl in *.
  destruct Hst as (t & Htk & Hrun). specialize (Hcl t Htk).
  unfold timerStep, reporterStep. rewrite Htk, Hrep, Hrun, Hcl. simpl.
  split; [done|]. intros c'. destruct (pending t); [|done].
  intros [= <-]. simpl. by rewrite Hrep.
Qed.


(** *** Phase order *)

(** What a step of a worker, of the timer and of the reporter leaves
    unchanged. *)
Lemma workerStep_frame (i : nat) (c c' : Config) :
  workerStep fsys server i c = Some c' →
  driver c' = driver c ∧ ctables c' = ctables c
  ∧ ticker c' = ticker c ∧ reporter c' = reporter c
  ∧ is_Some (workers c !! i)
  ∧ ∃ evs, executed (world c') = executed (world c) ++ evs
           ∧ Forall (λ e, origin e = PhaseData) evs.
Proof.
  unfold workerStep, setStage. intros Hstep.
  destruct (workers c !! i) as [w|]; [|done].
  destruct (wstage w) as [p|r| | | |pn'|pn'|pn']; simplify_eq/=;
    try (split_and!; try done; exists []; by rewrite app_nil_r).
  destruct p as [a|pn|conn sql k|path k|line k]; simplify_eq/=;
    try (split_and!; try done; exists []; by rewrite app_nil_r).
  split_and!; try done. eexists [_]. split; [done|]. by repeat constructor.
Qed.

Lemma timerStep_frame (c c' : Config) :
  timerStep c = Some c' →
  driver c' = driver c ∧ ctables c' = ctables c ∧ workers c' = workers c
  ∧ world c' = world c ∧ bytes c' = bytes c ∧ wg c' = wg c
  ∧ reporter c' = reporter c ∧ is_Some (ticker c).
Proof.
  unfold timerStep. intros Hstep.
  destruct (ticker c) as [t|]; [|done].
  destruct (running t && negb (pending t) && negb (closed t));
    simplify_eq/=. by split_and!.
Qed.

Lemma reporterStep_frame (c c' : Config) :
  reporterStep c = Some c' →
  driver c' = driver c ∧ ctables c' = ctables c ∧ workers c' = workers c
  ∧ executed (world c') = executed (world c) ∧ bytes c' = bytes c
  ∧ wg c' = wg c ∧ is_Some (ticker c).
Proof.
  unfold reporterStep. intros Hstep.
  destruct (reporter c); try done.
  destruct (ticker c) as [t|]; [|done].
  destruct (pending t); simplify_eq/=; [by split_and!|].
  destruct (closed t); simplify_eq/=. by split_and!.
Qed.

Lemma phaseInv_driver (c c' : Config) :
  phaseInv fsys server src files c →
  driverStep fsys server src args files c = Some c' →
  phaseInv fsys server src files c'.
Proof.
  unfold phaseInv, driverStep. intros Hinv Hstep.
  destruct c as [d tb po n ws b w tk rp cr]; simpl in *.
  destruct d; simpl in *;
    repeat (case_match; simplify_eq/=);
    repeat match goal with
           | H : _ ∧ _ |- _ => destruct H
           | H : ∃ _, _ |- _ => destruct H
           | a : unit |- _ => destruct a
           end;
    simplify_eq/=; try done;
    try (split_and!; rewrite ?Forall_app, ?Forall_singleton;
         by eauto 10);
    unfold schemasRestored, databasesRestored in *;
    first [ by eauto 10
          | naive_solver
          | eexists _, []; rewrite app_nil_r; naive_solver ].
Qed.

Lemma phaseInv_reachable (c : Config) :
  reachable' c → phaseInv fsys server src files c.
Proof.
  apply reachable_inv; clear c.
  - unfold phaseInv. simpl. split_and!; by try constructor.
  - intros c c' t Hc Hinv Hstep.
    pose proof (reporterInv_reachable c Hc) as (_ & _ & Htk & _).
    unfold sched in Hstep. destruct (crashed c); [done|].
    destruct t as [|i| |].
    + (* the main goroutine *)
      by eapply phaseInv_driver.
    + (* a worker *)
      apply workerStep_frame in Hstep
        as (Hd & Htb & _ & _ & [w Hw] & evs & Hevs & Hdata).
      unfold phaseInv in *. rewrite Hd, Htb.
      destruct (beforeDispatch (driver c)).
      { destruct Hinv as (Hws & _). by rewrite Hws in Hw. }
      destruct Hinv as (w2 & rest & Hw2 & Hsh & Hex & Hrest).
      exists w2, (rest ++ evs). split; [done|]. split; [done|].
      rewrite Hevs, Hex, (assoc_L (++)). split; [done|].
      by apply Forall_app.
    + (* the timer *)
      apply timerStep_frame in Hstep
        as (Hd & Htb & Hws & Hw & _ & _ & _ & [tk Htk']).
      unfold phaseInv in *. rewrite Hd, Htb, Hws, Hw. done.
    + (* the reporter *)
      apply reporterStep_frame in Hstep
        as (Hd & Htb & Hws & Hw & _ & _ & [tk Htk']).
      unfold phaseInv in *. rewrite Hd, Htb, Hws, Hw.
      destruct (beforeDispatch (driver c)) eqn:Hb; [|done].
      rewrite Htk in Htk'; [done|]. by destruct (driver c).
Qed.


(** C5. In every state a run can reach, if a statement of a row-data
    file has been executed, then phase 1 and phase 2 have run to their
    end, in this order, without failure, and the shuffle is done; the
    statements executed are those of all database-schema files, then
    those of all table-schema files, then row-data statements only. *)
Theorem phase_order (c : Config) (e : Event) :
  reachable' c →
  e ∈ executed (world c) →
  origin e = PhaseData →
  ∃ conn1 conn2 w1 w2 s2 rest,
    run' PhaseDatabase (restoreDatabaseSchema conn1 (databases files))
      emptyWorld = (Ok tt, w1)
    ∧ run' PhaseSchema (restoreTableSchema conn2 (schemas files)) w1
      = (Ok tt, w2)
    ∧ Shuffle src (tables files) = Ok (ctables c)
    ∧ beforeDispatch (driver c) = false
    ∧ executed w2 = executed w1 ++ s2
    ∧ executed (world c) = executed w1 ++ s2 ++ rest
    ∧ Forall (λ e, origin e = PhaseDatabase) (executed w1)
    ∧ Forall (λ e, origin e = PhaseSchema) s2
    ∧ Forall (λ e, origin e = PhaseData) rest.
Proof.
  intros Hc He Ho. pose proof (phaseInv_reachable c Hc) as Hinv.
  unfold phaseInv in Hinv.
  destruct (beforeDispatch (driver c)).
  { destruct Hinv as (_ & _ & Hnd & _).
    rewrite Forall_forall in Hnd. by destruct (Hnd e He). }
  destruct Hinv as (w2 & rest & (w1 & conn2 & [conn1 H1] & H2)
                    & Hsh & Hex & Hrest).
  destruct (run_executed fsys server PhaseDatabase
              (restoreDatabaseSchema conn1 (databases files)) emptyWorld)
    as (s1 & Hs1 & Ho1).
  destruct (run_executed fsys server PhaseSchema
              (restoreTableSchema conn2 (schemas files)) w1)
    as (s2 & Hs2 & Ho2).
  rewrite H1 in Hs1. rewrite H2 in Hs2. simpl in *.
  exists conn1, conn2, w1, w2, s2, rest.
  split_and!; try done.
  - by rewrite Hex, Hs2, (assoc_L (++)).
  - by rewrite Hs1.
Qed.


(** *** The progress counter *)

Lemma flen_nonneg (t : string) : (0 ≤ flen fsys t)%Z.
Proof. unfold flen. destruct (fsys !! t); lia. Qed.

Lemma sumOver_app {A : Type} (f : A → Z) (l1 l2 : list A) :
  sumOver f (l1 ++ l2) = (sumOver f l1 + sumOver f l2)%Z.
Proof. induction l1 as [|x l1 IH]; simpl; [done|]. rewrite IH. lia. Qed.

Lemma sumOver_insert {A : Type} (f : A → Z) (l : list A) (i : nat) (x y : A) :
  l !! i = Some x →
  sumOver f (<[i := y]> l) = (sumOver f l - f x + f y)%Z.
Proof.
  revert i. induction l as [|z l IH]; intros [|i] Hi; simplify_eq/=.
  - lia.
  - rewrite (IH _ Hi). lia.
Qed.

Lemma sumOver_perm {A : Type} (f : A → Z) (l1 l2 : list A) :
  l1 ≡ₚ l2 → sumOver f l1 = sumOver f l2.
Proof. induction 1; simpl; lia. Qed.

Lemma sumOver_nonneg {A : Type} (f : A → Z) (l : list A) :
  (∀ x, 0 ≤ f x)%Z → (0 ≤ sumOver f l)%Z.
Proof.
  intros Hf. induction l as [|x l IH]; simpl; [lia|].
  specialize (Hf x). lia.
Qed.

Lemma addedOf_bounds (w : Worker) :
  (0 ≤ addedOf fsys w ≤ flen fsys (wtable w))%Z.
Proof.
  unfold addedOf. pose proof (flen_nonneg (wtable w)).
  destruct (hasAdded (wstage w)); lia.
Qed.

Lemma addedBytes_le (ws : list Worker) :
  (0 ≤ addedBytes fsys ws ≤ totalBytes fsys (wtable <$> ws))%Z.
Proof.
  unfold addedBytes, totalBytes.
  induction ws as [|w ws IH]; csimpl; [lia|].
  pose proof (addedOf_bounds w). lia.
Qed.

Lemma addedBytes_all (ws : list Worker) :
  Forall (λ w, hasAdded (wstage w) = true) ws →
  addedBytes fsys ws = totalBytes fsys (wtable <$> ws).
Proof.
  unfold addedBytes, totalBytes.
  induction 1 as [|w ws Hw _ IH]; csimpl; [done|].
  unfold addedOf at 1. rewrite Hw, IH. done.
Qed.

Lemma countNotDone_zero (ws : list Worker) :
  countNotDone ws = 0%Z → Forall (λ w, notDone (wstage w) = false) ws.
Proof.
  unfold countNotDone. induction ws as [|w ws IH]; simpl; [done|].
  pose proof (sumOver_nonneg
                (λ w, if notDone (wstage w) then 1%Z else 0%Z) ws) as Hn.
  destruct (notDone (wstage w)) eqn:Hw; intros Hsum.
  - assert (0 ≤ sumOver (λ w, if notDone (wstage w) then 1 else 0) ws)%Z
      by (apply Hn; intros x; destruct (notDone (wstage x)); lia).
    lia.
  - constructor; [done|]. apply IH. lia.
Qed.


Lemma progressInv_driver (c c' : Config) :
  progressInv fsys c →
  driverStep fsys server src args files c = Some c' →
  progressInv fsys c'.
Proof.
  unfold progressInv, driverStep. intros (Hb & Hwg & Hok & Hd & Hpw) Hstep.
  destruct c as [d tb po n ws b w tk rp cr]; simpl in *.
  destruct d; simpl in *; repeat (case_match; simplify_eq/=);
    try (split_and!; done).
  - split_and!; try done. by rewrite app_nil_r.
  - unfold addedBytes, countNotDone. rewrite !sumOver_app. cbn [sumOver].
    split_and!; try done.
    + change (addedOf fsys (mkWorker _ _ (WRestore _))) with 0%Z.
      by rewrite !Z.add_0_r.
    + apply Forall_app. split; [done|].
      constructor; [|constructor]. apply Returns_restoreTable.
    + by rewrite fmap_app, <-(assoc_L (++)).
  - split_and!; try done. intros _. apply countNotDone_zero.
    by apply Z.eqb_eq.
Qed.

(** A goroutine moves to another stage. *)
Lemma progressInv_setStage (c : Config) (i : nat) (w : Worker) (s' : Stage)
    (b' n' : Z) (po' : list Connection) (wd' : World) :
  progressInv fsys c →
  workers c !! i = Some w →
  workerOk fsys (mkWorker (wconn w) (wtable w) s') →
  b' = ((addedBytes fsys (workers c) - addedOf fsys w
         + addedOf fsys (mkWorker (wconn w) (wtable w) s')) mod 2 ^ 64)%Z →
  n' = (wg c - (if notDone (wstage w) then 1 else 0)
        + (if notDone s' then 1 else 0))%Z →
  (notDone (wstage w) = false → notDone s' = false) →
  progressInv fsys
    (mkConfig (driver c) (ctables c) po' n'
       (<[i := mkWorker (wconn w) (wtable w) s']> (workers c)) b' wd'
       (ticker c) (reporter c) (crashed c)).
Proof.
  unfold progressInv.
  intros (Hb & Hwg & Hok & Hd & Hpw) Hw Hwok -> -> Hnd. simpl.
  assert (wtable <$> <[i := mkWorker (wconn w) (wtable w) s']> (workers c)
          = wtable <$> workers c) as Htables.
  { rewrite list_fmap_insert. simpl. apply list_insert_id.
    by rewrite list_lookup_fmap, Hw. }
  split_and!.
  - unfold addedBytes. by rewrite (sumOver_insert _ _ _ _ _ Hw).
  - unfold countNotDone. rewrite (sumOver_insert _ _ _ _ _ Hw). simpl.
    rewrite Hwg. done.
  - by apply Forall_insert.
  - rewrite Htables.
    destruct (driver c); simpl in *; try done; by rewrite Hd in Hw.
  - intros Hp. specialize (Hpw Hp). apply Forall_insert; [done|].
    simpl. apply Hnd. by apply (Forall_lookup_1 _ _ _ _ Hpw Hw).
Qed.

Lemma uint64_add_mod (x r : Z) :
  uint64_add (x mod 2 ^ 64) r = ((x + r) mod 2 ^ 64)%Z.
Proof. unfold uint64_add. by rewrite Zplus_mod_idemp_l. Qed.

Lemma textLength_flen (r : Z) (t : string) :
  textLength fsys r t → flen fsys t = r ∧ is_Some (fsys !! t).
Proof. intros (sql & Hsql & ->). unfold flen. by rewrite Hsql. Qed.

Lemma progressInv_worker (i : nat) (c c' : Config) :
  progressInv fsys c →
  workerStep fsys server i c = Some c' →
  progressInv fsys c'.
Proof.
  intros Hinv Hstep. unfold workerStep, setStage in Hstep.
  destruct (workers c !! i) as [w|] eqn:Hw; [|done].
  pose proof Hinv as (Hb & Hwg & Hok & _).
  pose proof (Forall_lookup_1 _ _ _ _ Hok Hw) as Hwok.
  unfold workerOk in Hwok.
  destruct (wstage w) as [p|r| | | |pn'|pn'|pn'] eqn:Hst; simplify_eq/=;
    [destruct p as [r|pn|conn sql k|path k|line k]; simplify_eq/=;
     [inversion_clear Hwok as [? Hr| | | |]
     |clear Hwok
     |inversion_clear Hwok as [| |??? Hk| |]
     |inversion_clear Hwok as [| | |?? Hk|]
     |inversion_clear Hwok as [| | | |?? Hk]]
    |apply textLength_flen in Hwok as [Hr Hsome]
    |..
    |by destruct c];
    unfold setWorkers, setWorld, setBytes, setWg, setPool; simpl;
    (eapply progressInv_setStage; [done|done|..]);
    try (unfold workerOk; simpl; by eauto);
    unfold addedOf; rewrite ?Hst; simpl;
    rewrite ?Hb, ?uint64_add_mod, ?Hr; try done; try lia;
    f_equal; lia.
Qed.

Lemma progressInv_reachable (c : Config) : reachable' c → progressInv fsys c.
Proof.
  apply reachable_inv; clear c.
  - unfold progressInv. simpl. by split_and!.
  - intros c c' t Hc Hinv Hstep.
    unfold sched in Hstep. destruct (crashed c); [done|].
    destruct t as [|i| |].
    + by eapply progressInv_driver.
    + by eapply progressInv_worker.
    + apply timerStep_frame in Hstep
        as (Hd & Htb & Hws & _ & Hb & Hwg & _).
      unfold progressInv in *. by rewrite Hd, Htb, Hws, Hb, Hwg.
    + apply reporterStep_frame in Hstep
        as (Hd & Htb & Hws & _ & Hb & Hwg & _).
      unfold progressInv in *. by rewrite Hd, Htb, Hws, Hb, Hwg.
Qed.


Lemma ctables_perm (c : Config) : reachable' c → ctables c ≡ₚ tables files.
Proof.
  intros Hc. pose proof (phaseInv_reachable c Hc) as Hinv.
  unfold phaseInv in Hinv. destruct (beforeDispatch (driver c)).
  - destruct Hinv as (_ & -> & _). done.
  - destruct Hinv as (w2 & rest & _ & Hsh & _).
    destruct (Shuffle_perm src (tables files)) as (l & Hl & Hp & _).
    rewrite Hl in Hsh. by simplify_eq.
Qed.

(** The files of the goroutines are among the files of the catalog. *)
Lemma workers_tables (c : Config) :
  reachable' c → ∃ rest, (wtable <$> workers c) ++ rest ≡ₚ tables files.
Proof.
  intros Hc. pose proof (ctables_perm c Hc) as Hp.
  pose proof (progressInv_reachable c Hc) as (_ & _ & _ & Hd & _).
  destruct (driver c); simpl in Hd;
    try (exists (ctables c); by rewrite Hd);
    try (exists []; by rewrite app_nil_r, Hd).
  exists rest. by rewrite Hd.
Qed.

Lemma addedBytes_bound (c : Config) :
  reachable' c →
  (0 ≤ addedBytes fsys (workers c) ≤ totalBytes fsys (tables files))%Z.
Proof.
  intros Hc. destruct (workers_tables c Hc) as [rest Hrest].
  pose proof (addedBytes_le (workers c)).
  pose proof (sumOver_nonneg (flen fsys) rest flen_nonneg).
  unfold totalBytes in *.
  rewrite <-(sumOver_perm _ _ _ Hrest), sumOver_app. lia.
Qed.

(** Below 2^64 the counter is the sum of the counts added. *)
Lemma bytes_exact (c : Config) :
  reachable' c → (totalBytes fsys (tables files) < 2 ^ 64)%Z →
  bytes c = addedBytes fsys (workers c).
Proof.
  intros Hc Hlt. pose proof (progressInv_reachable c Hc) as (Hb & _).
  pose proof (addedBytes_bound c Hc). rewrite Hb. apply Z.mod_small. lia.
Qed.





(** *** Errors are fatal *)

Lemma fatalInv_reachable (c : Config) : reachable' c → fatalInv c.
Proof.
  apply reachable_inv; clear c.
  - unfold fatalInv. simpl. by split.
  - intros c c' t Hc [Hd Hws] Hstep. unfold fatalInv.
    unfold sched in Hstep. destruct (crashed c); [done|].
    destruct t as [|i| |].
    + unfold driverStep in Hstep.
      destruct c as [d tb po n ws b w tk rp cr]; simpl in *.
      destruct d as [|conn p| | |conn p| | |rest| | | | | | |conn pn|pn|];
        try (pose proof (Fatal_act fsys server PhaseDatabase p w Hd) as Hdb;
             pose proof (Fatal_act fsys server PhaseSchema p w Hd) as Hsch;
             destruct p as [a|pn|conn' sql k|path k|line k]);
        simpl in *; repeat case_match; simplify_eq/=;
        split; try done;
        try apply Fatal_restoreDatabaseSchema;
        try apply Fatal_restoreTableSchema.
      apply Forall_app. split; [done|].
      constructor; [|done]. apply Fatal_restoreTable.
    + unfold workerStep, setStage in Hstep.
      destruct (workers c !! i) as [w|] eqn:Hw; [|done].
      pose proof (Forall_lookup_1 _ _ _ _ Hws Hw) as Hwf.
      destruct c as [d tb po n ws b wd tk rp cr]; simpl in *.
      destruct (wstage w) as [p|r| | | |pn'|pn'|pn'] eqn:Hst; simplify_eq/=;
        try (split; [done|]; first [by apply Forall_insert|done]).
      pose proof (Fatal_act fsys server PhaseData p wd Hwf) as Hact.
      destruct p as [a|pn|conn sql k|path k|line k]; simplify_eq/=;
        split; try done; by apply Forall_insert.
    + apply timerStep_frame in Hstep as (-> & _ & -> & _). done.
    + apply reporterStep_frame in Hstep as (-> & _ & -> & _). done.
Qed.

(** What the steps of the other goroutines leave of a goroutine. *)
Lemma driverStep_workers (c c' : Config) :
  driverStep fsys server src args files c = Some c' →
  workers c' = workers c ∨ ∃ wk, workers c' = workers c ++ [wk].
Proof.
  unfold driverStep. intros Hstep.
  destruct c as [d tb po n ws b w tk rp cr]; simpl in *.
  destruct d; simpl in *; repeat case_match; simplify_eq/=; eauto.
Qed.

Lemma workerStep_others (i j : nat) (c c' : Config) :
  workerStep fsys server j c = Some c' → i ≠ j →
  workers c' !! i = workers c !! i.
Proof.
  unfold workerStep, setStage. intros Hstep Hij.
  destruct (workers c !! j) as [w|]; [|done].
  destruct (wstage w) as [p|r| | | |pn'|pn'|pn']; [destruct p|..];
    simplify_eq/=; try done; by apply list_lookup_insert_ne.
Qed.

(** A goroutine whose unit of work has failed stays failed, with the
    same panic, whatever goroutine takes a step; its own steps execute
    nothing, log nothing and add nothing to the counter. *)
Lemma failed_stays (t : Thread) (c c' : Config) (i : nat) (w : Worker)
    (pn : panic) :
  sched' t c = Some c' →
  workers c !! i = Some w → failedWith pn (wstage w) →
  (∃ w', workers c' !! i = Some w' ∧ failedWith pn (wstage w')
         ∧ wtable w' = wtable w ∧ wconn w' = wconn w)
  ∧ (t = TWorker i → world c' = world c ∧ bytes c' = bytes c).
Proof.
  unfold sched. intros Hstep Hw Hf.
  destruct (crashed c) eqn:Hcr; [done|].
  destruct t as [|j| |].
  - split; [|done].
    destruct (driverStep_workers c c' Hstep) as [->|[wk ->]]; [by exists w|].
    exists w. by rewrite (lookup_app_l_Some _ _ _ _ Hw).
  - destruct (decide (i = j)) as [<-|Hij].
    + pose proof (lookup_lt_Some _ _ _ Hw) as Hi.
      unfold workerStep, setStage in Hstep. rewrite Hw in Hstep.
      destruct c as [d tb po n ws b wd tk rp cr]; simpl in *.
      destruct Hf as [Hf|[Hf|[Hf|Hf]]]; rewrite Hf in Hstep;
        simplify_eq/=; (split; [|done]).
      1-3: eexists; rewrite list_lookup_insert_eq by done;
        split; [done|]; unfold failedWith; simpl; naive_solver.
      exists w. unfold failedWith. naive_solver.
    + split; [|by intros [=]].
      exists w. by rewrite (workerStep_others i j c c' Hstep Hij).
  - split; [|done].
    apply timerStep_frame in Hstep as (_ & _ & -> & _). by exists w.
  - split; [|done].
    apply reporterStep_frame in Hstep as (_ & _ & -> & _). by exists w.
Qed.

(** Left to itself, such a goroutine runs its two deferred calls and
    the run ends with its panic. *)
Lemma failed_worker_dies (c : Config) (i : nat) (w : Worker) (pn : panic) :
  crashed c = None →
  workers c !! i = Some w → wstage w = WRestore (Panic pn) →
  ∃ c', runSchedule fsys server src args files (replicate 4 (TWorker i)) c
        = Some c'
        ∧ crashed c' = Some pn
        ∧ world c' = world c ∧ bytes c' = bytes c
        ∧ wg c' = (wg c - 1)%Z ∧ pool c' = pool c ++ [wconn w]
        ∧ driver c' = driver c.
Proof.
  intros Hcr Hw Hst.
  pose proof (lookup_lt_Some _ _ _ Hw) as Hi.
  destruct c as [d tb po n ws b wd tk rp cr]; simpl in *. subst cr.
  eexists. unfold runSchedule, replicate, sched, workerStep, setStage. simpl.
  rewrite Hw, Hst. simpl.
  rewrite list_lookup_insert_eq by done. simpl.
  rewrite list_lookup_insert_eq by (by rewrite length_insert). simpl.
  rewrite list_lookup_insert_eq by (by rewrite !length_insert). simpl.
  split; [reflexivity|]. by simpl.
Qed.

(** A panic of the main goroutine in a schema phase is the end of the
    run: the deferred pool.Close() and then nothing; no goroutine was
    started, so no other step is possible. *)
Lemma schema_panic_final (c0 c : Config) (pn : panic) :
  reachable' c0 → schemaPanic pn (driver c0) → rtc step' c0 c →
  schemaPanic pn (driver c)
  ∧ world c = world c0 ∧ bytes c = bytes c0
  ∧ workers c = [] ∧ ctables c = tables files
  ∧ ticker c = None ∧ reporter c = RNotStarted
  ∧ (crashed c0 = None → crashed c = None ∨ crashed c = Some pn).
Proof.
  intros Hc0 Hp0 Hsteps.
  assert (Hb0 : beforeDispatch (driver c0) = true).
  { by destruct Hp0 as (conn & [-> | [-> | ->]]). }
  pose proof (phaseInv_reachable c0 Hc0) as Hph. unfold phaseInv in Hph.
  rewrite Hb0 in Hph. destruct Hph as (Hws0 & Htb0 & _).
  pose proof (reporterInv_reachable c0 Hc0) as (_ & Hrep0 & Htk0 & _).
  assert (Hts0 : tickerStarted (driver c0) = false).
  { by destruct Hp0 as (conn & [-> | [-> | ->]]). }
  rewrite Hts0 in Hrep0. specialize (Htk0 Hts0).
  revert c Hsteps. apply rtc_ind_r.
  { split_and!; try done. by left. }
  intros c c' Hsteps [t Hstep] (Hp & Hw & Hb & Hws & Htb & Htk & Hrep & Hcr).
  unfold sched in Hstep. destruct (crashed c) eqn:Hcrc; [done|].
  destruct t as [|i| |].
  - unfold driverStep in Hstep.
    destruct c as [d tb po n ws b w tk rp cr]; simpl in *.
    destruct Hp as (conn & [-> | [-> | ->]]); simplify_eq/=;
      (split_and!; try done;
       first [by exists conn; eauto|intros _; by eauto]).
  - unfold workerStep in Hstep. by rewrite Hws in Hstep.
  - unfold timerStep in Hstep. by rewrite Htk in Hstep.
  - unfold reporterStep in Hstep. by rewrite Hrep in Hstep.
Qed.

(** A rejected statement is the panic of the goroutine that sent it,
    in the same step. *)
Lemma rejection_panics (t : Thread) (c c' : Config) (e : Event)
    (err : error) :
  reachable' c → sched' t c = Some c' →
  executed (world c') = executed (world c) ++ [e] →
  result e = Some err →
  (t = TDriver ∧ schemaPanic (PanicError err) (driver c'))
  ∨ (∃ i w', t = TWorker i ∧ workers c' !! i = Some w'
             ∧ wstage w' = WRestore (Panic (PanicError err))).
Proof.
  intros Hc Hstep Hev He.
  pose proof (fatalInv_reachable c Hc) as [Hfd Hfw].
  assert (Hnil : ∀ l : list Event, l = l ++ [e] → False).
  { intros l Hl. apply (f_equal length) in Hl.
    rewrite length_app in Hl. simpl in Hl. lia. }
  unfold sched in Hstep. destruct (crashed c) eqn:Hcr; [done|].
  destruct t as [|i| |].
  - left. split; [done|]. unfold driverStep in Hstep.
    destruct c as [d tb po n ws b w tk rp cr]; simpl in *.
    destruct d as [|conn p| | |conn p| | |rest| | | | | | |conn pn|pn|];
      try (destruct p as [a|pn|conn' sql k|path k|line k];
           inversion Hfd as [| |??? Hk _| |]; subst);
      simpl in *; repeat case_match; simplify_eq/=;
      try (by destruct (Hnil _ Hev)).
    all: rewrite He, Hk; exists conn; by eauto.
  - right. unfold workerStep, setStage in Hstep.
    destruct (workers c !! i) as [w|] eqn:Hw; [|done].
    pose proof (lookup_lt_Some _ _ _ Hw) as Hi.
    pose proof (Forall_lookup_1 _ _ _ _ Hfw Hw) as Hf.
    destruct c as [d tb po n ws b wd tk rp cr]; simpl in *.
    destruct (wstage w) as [p|r| | | |pn'|pn'|pn'] eqn:Hst;
      try (destruct p as [a|pn|conn' sql k|path k|line k];
           inversion Hf as [| |??? Hk _| |]; subst);
      simplify_eq/=; try (by destruct (Hnil _ Hev)).
    rewrite He, Hk. eexists i, _. split; [done|].
    by rewrite list_lookup_insert_eq.
  - apply timerStep_frame in Hstep as (_ & _ & _ & Hw & _).
    rewrite Hw in Hev. by destruct (Hnil _ Hev).
  - apply reporterStep_frame in Hstep as (_ & _ & _ & Hw & _).
    rewrite Hw in Hev. by destruct (Hnil _ Hev).
Qed.

(** C8 (amended).  In the three restorers every failed read and every
    rejected statement is followed by the panic with its error and by
    nothing else: run by one goroutine, a restorer stops at the first
    rejected statement, which is its last event, and an unreadable file
    ends it before any statement of that file.  In the orchestrator every
    goroutine runs such a program, and a rejected statement is the panic
    of the goroutine that sent it, in the same step.  A panic of the
    main goroutine in a schema phase ends the run after the deferred
    pool.Close(), with nothing executed any more.  A goroutine of the row-data phase whose
    unit has failed executes nothing further, whatever the interleaving:
    it runs its deferred wg.Done() and pool.Put(conn) and the run ends
    with its panic; a run that has ended takes no step. *)
Theorem errors_are_fatal :
  (∀ conn dbs, Fatal (restoreDatabaseSchema conn dbs))
  ∧ (∀ conn schemas, Fatal (restoreTableSchema conn schemas))
  ∧ (∀ conn table, Fatal (restoreTable conn table))
  ∧ (∀ (p : Prog unit) o w,
       (∃ conn l, p = restoreDatabaseSchema conn l
                  ∨ p = restoreTableSchema conn l) →
       ∃ evs, executed (run' o p w).2 = executed w ++ evs
              ∧ stopsAtFailure (run' o p w).1 evs)
  ∧ (∀ conn table o w,
       ∃ evs, executed (run' o (restoreTable conn table) w).2
              = executed w ++ evs
              ∧ stopsAtFailure (run' o (restoreTable conn table) w).1 evs)
  ∧ (∀ o conn db rest w,
       fsys !! db = None →
       run' o (restoreDatabaseSchema conn (db :: rest)) w
       = (Panicked (PanicError (ReadError db)), w))
  ∧ (∀ o conn schema rest w,
       fsys !! schema = None →
       ∃ pn evs,
         (run' o (restoreTableSchema conn (schema :: rest)) w).1 = Panicked pn
         ∧ executed (run' o (restoreTableSchema conn (schema :: rest)) w).2
           = executed w ++ evs
         ∧ length evs ≤ 1)
  ∧ (∀ o conn table w,
       fsys !! table = None →
       ∃ pn evs,
         (run' o (restoreTable conn table) w).1 = Panicked pn
         ∧ executed (run' o (restoreTable conn table) w).2
           = executed w ++ evs
         ∧ length evs ≤ 1)
  ∧ (∀ c, reachable' c → fatalInv c)
  ∧ (∀ c0 c pn,
       reachable' c0 → schemaPanic pn (driver c0) → crashed c0 = None →
       rtc step' c0 c →
       world c = world c0 ∧ workers c = []
       ∧ (crashed c = None ∨ crashed c = Some pn))
  ∧ (∀ t c c' e err,
       reachable' c → sched' t c = Some c' →
       executed (world c') = executed (world c) ++ [e] →
       result e = Some err →
       (t = TDriver ∧ schemaPanic (PanicError err) (driver c'))
       ∨ (∃ i w', t = TWorker i ∧ workers c' !! i = Some w'
                  ∧ wstage w' = WRestore (Panic (PanicError err))))
  ∧ (∀ c conn pn,
       crashed c = None →
       driver c = DRestoreDb conn (Panic pn)
       ∨ driver c = DRestoreSchema conn (Panic pn) →
       ∃ c', runSchedule fsys server src args files [TDriver; TDriver] c
             = Some c'
             ∧ crashed c' = Some pn
             ∧ world c' = world c ∧ workers c' = workers c
             ∧ pool c' = pool c)
  ∧ (∀ c i w pn,
       crashed c = None →
       workers c !! i = Some w → wstage w = WRestore (Panic pn) →
       ∃ c', runSchedule fsys server src args files
               (replicate 4 (TWorker i)) c = Some c'
             ∧ crashed c' = Some pn
             ∧ world c' = world c ∧ bytes c' = bytes c
             ∧ wg c' = (wg c - 1)%Z ∧ pool c' = pool c ++ [wconn w])
  ∧ (∀ t c c' i w pn,
       sched' t c = Some c' →
       workers c !! i = Some w → failedWith pn (wstage w) →
       (∃ w', workers c' !! i = Some w' ∧ failedWith pn (wstage w'))
       ∧ (t = TWorker i → world c' = world c ∧ bytes c' = bytes c))
  ∧ (∀ c t, is_Some (crashed c) → sched' t c = None).
Proof.
  split_and!.
  - apply Fatal_restoreDatabaseSchema.
  - apply Fatal_restoreTableSchema.
  - apply Fatal_restoreTable.
  - intros p o w (conn & l & [-> | ->]); apply Fatal_stops.
    + apply Fatal_restoreDatabaseSchema.
    + apply Fatal_restoreTableSchema.
  - intros conn table o w. apply Fatal_stops, Fatal_restoreTable.
  - intros o conn db rest w Hno.
    by rewrite restoreDatabaseSchema_run, Hno.
  - intros o conn schema rest w Hno.
    destruct (Split_head (Trim (Base schema) schemaSuffix) ".")
      as (db & l & Hsplit); [done|].
    rewrite (restoreTableSchema_run fsys server o conn schema db rest w)
      by (by rewrite Hsplit).
    unfold doExecute. rewrite Hno.
    destruct (server (executed w) conn (Sprintf_use db)) as [e|];
      simpl; by eexists _, [_].
  - intros o conn table w Hno.
    destruct (Split (Trim (Base table) tableSuffix) "." !! 0)
      as [db|] eqn:Hdb;
      [destruct (Split (Trim (Base table) tableSuffix) "." !! 1)
         as [tbl|] eqn:Htbl|].
    + destruct (restoreTable_run fsys server o conn table db tbl w Hdb Htbl)
        as [part ->].
      simpl. rewrite Hno.
      destruct (server (executed w) conn (Sprintf_use db)) as [e|];
        simpl; by eexists _, [_].
    + assert (∃ pn, run' o (restoreTable conn table) w = (Panicked pn, w))
        as [pn ->].
      { unfold restoreTable. rewrite run_bind. unfold index.
        rewrite Hdb. simpl. rewrite run_bind, Htbl. simpl. by eexists. }
      exists pn, []. rewrite app_nil_r. split_and!; [done|done|simpl; lia].
    + assert (∃ pn, run' o (restoreTable conn table) w = (Panicked pn, w))
        as [pn ->].
      { unfold restoreTable. rewrite run_bind. unfold index.
        rewrite Hdb. simpl. by eexists. }
      exists pn, []. rewrite app_nil_r. split_and!; [done|done|simpl; lia].
  - apply fatalInv_reachable.
  - intros c0 c pn Hc0 Hp Hcr0 Hsteps.
    destruct (schema_panic_final c0 c pn Hc0 Hp Hsteps)
      as (_ & Hw & _ & Hws & _ & _ & _ & Hcr).
    split_and!; [done|done|by apply Hcr].
  - intros t c c' e err Hc Hstep Hev He.
    by eapply rejection_panics.
  - intros c conn pn Hcr [Hd | Hd]; eexists;
      unfold runSchedule, sched, driverStep;
      rewrite Hcr, Hd; simpl; rewrite Hcr; by split.
  - intros c i w pn Hcr Hw Hst.
    destruct (failed_worker_dies c i w pn Hcr Hw Hst)
      as (c' & ? & ? & ? & ? & ? & ? & _).
    by exists c'.
  - intros t c c' i w pn Hstep Hw Hf.
    destruct (failed_stays t c c' i w pn Hstep Hw Hf)
      as [(w' & ? & ? & _) ?].
    split; [by exists w'|done].
  - intros c t [pn Hcr]. unfold sched. by rewrite Hcr.
Qed.

End Orchestrator.

(** ** The small dump, run *)

Section Demo.

Local Abbreviation demoReachable :=
  (reachable demoFs acceptAll zeroSrc demoArgs demoFiles).

Lemma demoRun_reachable (c : Config) : demoRun = Some c → demoReachable c.
Proof.
  apply runSchedule_reachable. unfold reachable. apply rtc_refl.
Qed.

Example demoFiles_loaded :
  loadFiles demoVisits = Ok demoFiles
  ∧ Loader demoArgs demoVisits = Ok (init demoArgs demoFiles).
Proof. by split. Qed.

Example Trim_strips_characters :
  Trim "sbtest.t1-schema.sql" schemaSuffix = "btest.t1"
  ∧ Trim "sa-schema-create.sql" dbSuffix = ""
  ∧ TrimSuffix "sa-schema-create.sql" dbSuffix = "sa".
Proof. by vm_compute. Qed.

Example Shuffle_demo :
  Shuffle zeroSrc ["a"; "b"; "c"] = Ok ["c"; "a"; "b"].
Proof. reflexivity. Qed.

Lemma loadFiles_classification_witness :
  Forall (λ v, verr v = None) demoVisits
  ∧ ∃ files,
      loadFiles demoVisits = Ok files
      ∧ databases files = ["dump/prod-schema-create.sql"]
      ∧ schemas files = ["dump/prod.t1-schema.sql"]
      ∧ tables files = ["dump/prod.t1.1.sql"; "dump/prod.t1.2.sql"]
      ∧ length (inCategory CatNone demoVisits) = 1.
Proof.
  assert (Forall (λ v, verr v = None) demoVisits) as Hok
    by (repeat constructor).
  split; [exact Hok|].
  destruct (loadFiles_classification demoVisits Hok)
    as (files & Hload & Hd & Hs & Ht & _).
  exists files. rewrite Hd, Hs, Ht. split; [exact Hload|].
  repeat split; vm_compute; reflexivity.
Defined.

Lemma statements_executed_witness :
  demoFs !! "dump/prod.t1.1.sql"
  = Some ("INSERT INTO `t1` VALUES (1);" +:+ lf +:+
          "INSERT INTO `t1` VALUES (2);" +:+ lf)
  ∧ (∀ h q, acceptAll h (mkConn 1) q = None)
  ∧ ∃ w1,
      run demoFs acceptAll PhaseData
        (restoreTable (mkConn 1) "dump/prod.t1.1.sql") emptyWorld
      = (Ok 58%Z, w1)
      ∧ stmt <$> executed w1
        = ["use `prod`"; "INSERT INTO `t1` VALUES (1)";
           "INSERT INTO `t1` VALUES (2)"].
Proof.
  assert (demoFs !! "dump/prod.t1.1.sql"
          = Some ("INSERT INTO `t1` VALUES (1);" +:+ lf +:+
                  "INSERT INTO `t1` VALUES (2);" +:+ lf)) as Hfile
    by (vm_compute; reflexivity).
  split; [exact Hfile|]. split; [reflexivity|].
  destruct (statements_executed demoFs acceptAll (mkConn 1)
              "dump/prod.t1.1.sql" _ "prod" emptyWorld Hfile
              (λ h q _, eq_refl))
    as (_ & _ & _ & _ & _ & Htable).
  assert (Split (Trim (Base "dump/prod.t1.1.sql") tableSuffix) "." !! 0
          = Some "prod") as Hdb by (vm_compute; reflexivity).
  assert (Split (Trim (Base "dump/prod.t1.1.sql") tableSuffix) "." !! 1
          = Some "t1") as Htbl by (vm_compute; reflexivity).
  destruct (Htable PhaseData "t1" Hdb Htbl) as (w1 & Hrun & Hex).
  exists w1. split; [exact Hrun|]. rewrite Hex. vm_compute; reflexivity.
Defined.

Lemma restoreDatabaseSchema_logs_name_witness :
  Base "dump/sa-schema-create.sql" = "sa" +:+ dbSuffix
  ∧ saFs !! "dump/sa-schema-create.sql" = Some "CREATE DATABASE `sa`;"
  ∧ logged (run saFs acceptAll PhaseDatabase
              (restoreDatabaseSchema (mkConn 0) ["dump/sa-schema-create.sql"])
              emptyWorld).2
    = [Info "restoring.database[%s]" [AStr "sa"]].
Proof.
  assert (Base "dump/sa-schema-create.sql" = "sa" +:+ dbSuffix) as Hbase
    by (vm_compute; reflexivity).
  assert (saFs !! "dump/sa-schema-create.sql" = Some "CREATE DATABASE `sa`;")
    as Hfile by (vm_compute; reflexivity).
  split; [exact Hbase|]. split; [exact Hfile|].
  destruct (restoreDatabaseSchema_logs_name saFs acceptAll PhaseDatabase
              (mkConn 0) "dump/sa-schema-create.sql" "sa"
              "CREATE DATABASE `sa`;" [] emptyWorld Hbase Hfile eq_refl)
    as [_ ->].
  reflexivity.
Defined.

Lemma phase_order_witness :
  ∃ c e,
    demoRun = Some c
    ∧ demoReachable c
    ∧ e ∈ executed (world c)
    ∧ origin e = PhaseData
    ∧ ∃ s1 s2 rest,
        executed (world c) = s1 ++ s2 ++ rest
        ∧ Forall (λ e, origin e = PhaseDatabase) s1
        ∧ Forall (λ e, origin e = PhaseSchema) s2
        ∧ Forall (λ e, origin e = PhaseData) rest.
Proof.
  destruct demoRun as [c|] eqn:Hrun; [|vm_compute in Hrun; discriminate].
  pose proof (demoRun_reachable c Hrun) as Hc.
  assert (executed (world c) !! 4
          = Some (mkEvent PhaseData (mkConn 0) "use `prod`" None)) as He.
  { vm_compute in Hrun. injection Hrun as <-. reflexivity. }
  apply list_elem_of_lookup_2 in He.
  exists c, (mkEvent PhaseData (mkConn 0) "use `prod`" None).
  split; [reflexivity|]. split; [exact Hc|]. split; [exact He|].
  split; [reflexivity|].
  destruct (phase_order demoFs acceptAll zeroSrc demoArgs demoFiles c _
              Hc He eq_refl)
    as (conn1 & conn2 & w1 & w2 & s2 & rest & _ & _ & _ & _ & _
        & Hex & H1 & H2 & H3).
  exists (executed w1), s2, rest. by repeat split.
Defined.


(** *** Where the code departs from its specification *)

(** C2 (defect of the code).  The base names "sbtest.t1-schema.sql" and
    "sbtest.t1.sql" have "sbtest" as the first segment once their suffix
    is removed, but restoreTableSchema and restoreTable use strings.Trim,
    which strips characters of the suffix at both ends: the statement
    they execute selects the database "btest". *)
Theorem use_statement_database_name :
  Split (TrimSuffix (Base "dump/sbtest.t1-schema.sql") schemaSuffix) "."
  = ["sbtest"; "t1"]
  ∧ stmt <$> executed
      (run sbtestFs acceptAll PhaseSchema
         (restoreTableSchema (mkConn 0) ["dump/sbtest.t1-schema.sql"])
         emptyWorld).2
    = ["use `btest`"; "CREATE TABLE `t1` (`a` int)"]
  ∧ Split (TrimSuffix (Base "dump/sbtest.t1.sql") tableSuffix) "."
    = ["sbtest"; "t1"]
  ∧ stmt <$> executed
      (run sbtestFs acceptAll PhaseData
         (restoreTable (mkConn 0) "dump/sbtest.t1.sql") emptyWorld).2
    = ["use `btest`"; "INSERT INTO `t1` VALUES (1)"].
Proof. by vm_compute. Qed.

(** C3 (defect of the code).  "test.s.sql" is a row-data file whose base
    name without ".sql" has the two segments "test" and "s"; strings.Trim
    also strips the table name, one segment is left, and splits[1]
    panics with an index out of range before anything is executed. *)
Theorem restoreTable_index_out_of_range :
  classify "dump/test.s.sql" = CatTable
  ∧ Split (TrimSuffix (Base "dump/test.s.sql") tableSuffix) "."
    = ["test"; "s"]
  ∧ Split (Trim (Base "dump/test.s.sql") tableSuffix) "." = ["test"]
  ∧ run sbtestFs acceptAll PhaseData
      (restoreTable (mkConn 0) "dump/test.s.sql") emptyWorld
    = (Panicked (PanicIndex 1 1), emptyWorld).
Proof. by vm_compute. Qed.

(** C6 (defect of the code).  "dump/test.s.sql" is catalogued as a
    row-data file; its name without the suffix has the two segments the
    specification asks for, and its text holds one statement.
    restoreTable never executes it: strings.Trim strips the table name
    with the suffix (the defect of C2 and C3), splits[1] panics, and
    this before the file is read, whatever the server and the
    connection. *)
Theorem row_data_statements_not_executed :
  classify "dump/test.s.sql" = CatTable
  ∧ Split (TrimSuffix (Base "dump/test.s.sql") tableSuffix) "."
    = ["test"; "s"]
  ∧ sbtestFs !! "dump/test.s.sql"
    = Some ("INSERT INTO `s` VALUES (1);" +:+ lf)
  ∧ statementsOf ("INSERT INTO `s` VALUES (1);" +:+ lf)
    = ["INSERT INTO `s` VALUES (1)"]
  ∧ ∀ server conn w,
      run sbtestFs server PhaseData (restoreTable conn "dump/test.s.sql") w
      = (Panicked (PanicIndex 1 1), w).
Proof.
  split_and!; [reflexivity..|].
  intros server conn w. reflexivity.
Qed.

(** C9 (defect of the code).  On the small dump Loader returns with
    every unit of work finished, the ticker stopped, its channel open
    and empty, and the reporter still blocked in its loop: no goroutine
    can take a step any more, so the reporter never terminates. *)
Theorem reporter_left_blocked :
  ∃ c,
    demoRun = Some c
    ∧ driver c = DReturned
    ∧ Forall (λ w, wstage w = WExited) (workers c)
    ∧ ticker c = Some (mkTicker false false false)
    ∧ reporter c = RWaiting
    ∧ ∀ t, sched demoFs acceptAll zeroSrc demoArgs demoFiles t c = None.
Proof.
  eexists. split; [vm_compute; reflexivity|].
  split_and!; try reflexivity.
  - by repeat constructor.
  - intros [|i| |]; try reflexivity.
    destruct i as [|[|i]]; reflexivity.
Qed.

End Demo.

(** * Further properties *)

(** ** The catalog: failures and ignored entries *)

Section CatalogEdges.

Lemma Walk_app (a b : list Visit) (files : Files) :
  Walk (a ++ b) files =
    match Walk a files with
    | Ok (files', None) => Walk b files'
    | other => other
    end.
Proof.
  revert files. induction a as [|v a IH]; intros files; simpl; [done|].
  destruct (walkFn files v) as [[files' [err|]]|p]; [done| |done].
  apply IH.
Qed.

(** X1. loadFiles panics at the first entry the walk could not reach,
    with the walk's error, whatever comes after it. *)
Theorem loadFiles_walk_error (pre post : list Visit) (v : Visit) (err : error) :
  Forall (λ v, verr v = None) pre →
  verr v = Some err →
  loadFiles (pre ++ v :: post)
  = Panicked (PanicLog "loader.file.walk.error:%+v" err).
Proof.
  intros Hpre Hv. unfold loadFiles.
  rewrite Walk_app, (Walk_classify _ _ Hpre). simpl.
  unfold walkFn. by rewrite Hv.
Qed.

(** X2. Directories and files that do not end in ".sql" leave no trace:
    the outcome of loadFiles is the one of the walk without them, also
    when the walk fails elsewhere. *)
Theorem loadFiles_ignores (pre post : list Visit) (v : Visit) :
  verr v = None →
  vIsDir v = true ∨ HasSuffix (vpath v) tableSuffix = false →
  loadFiles (pre ++ v :: post) = loadFiles (pre ++ post).
Proof.
  intros Herr Hv.
  assert (Hsame : ∀ files, walkFn files v = Ok (files, None)).
  { intros files. unfold walkFn. rewrite Herr.
    destruct Hv as [->|Hv]; [done|].
    destruct (vIsDir v); simpl; [done|].
    destruct (HasSuffix (vpath v) dbSuffix) eqn:Hd.
    { apply dbSuffix_ends_sql in Hd. congruence. }
    destruct (HasSuffix (vpath v) schemaSuffix) eqn:Hs.
    { apply schemaSuffix_ends_sql in Hs. congruence. }
    by rewrite Hv. }
  unfold loadFiles. rewrite !Walk_app.
  destruct (Walk pre _) as [[files' [e|]]|p]; [done| |done].
  simpl. by rewrite Hsame.
Qed.

(** X3. The only panic of loadFiles is the one of its callback, on an
    entry the walk could not reach: the error check after the walk is
    never taken, for the callback always returns nil. *)
Theorem loadFiles_panic_origin (visits : list Visit) (pn : panic) :
  loadFiles visits = Panicked pn →
  ∃ pre u post e,
    visits = pre ++ u :: post
    ∧ Forall (λ v, verr v = None) pre
    ∧ verr u = Some e
    ∧ pn = PanicLog "loader.file.walk.error:%+v" e
    ∧ ∀ files, Walk visits files = Panicked pn.
Proof.
  unfold loadFiles.
  assert (H : ∀ files, (∃ files', Walk visits files = Ok (files', None))
    ∨ ∃ pre u post e, visits = pre ++ u :: post
        ∧ Forall (λ v, verr v = None) pre ∧ verr u = Some e
        ∧ ∀ files0, Walk visits files0
                    = Panicked (PanicLog "loader.file.walk.error:%+v" e)).
  { induction visits as [|u l IH]; intros files; simpl; [by eauto|].
    destruct (verr u) as [e|] eqn:Hu.
    - right. exists [], u, l, e. split_and!; [done|done|done|].
      intros files0. unfold walkFn. by rewrite Hu.
    - assert (Hw : ∀ f, ∃ f', walkFn f u = Ok (f', None)).
      { intros f. unfold walkFn. rewrite Hu. eauto. }
      destruct (Hw files) as [f' Hf']. rewrite Hf'.
      destruct (IH f') as [?|(pre & u' & post & e & -> & Hpre & Hu' & Hall)];
        [by left|].
      right. exists (u :: pre), u', post, e. split_and!; [done|by constructor|done|].
      intros f0. destruct (Hw f0) as [f0' ->]. apply Hall. }
  destruct (H (mkFiles [] [] [])) as [[f' ->]|(pre & u & post & e & -> & ? & ? & Hall)];
    [done|].
  rewrite Hall. intros [= <-]. exists pre, u, post, e. split_and!; try done.
Qed.

End CatalogEdges.

(** ** Trim, Base and the statement separator *)

Section TrimFacts.

Lemma inCutset_self (pre cutset : string) (c : ascii) :
  inCutset cutset c = true → inCutset (pre +:+ cutset) c = true.
Proof.
  induction pre as [|d pre IH]; intros H; [done|].
  rewrite sapp_cons. simpl. rewrite IH by done. apply orb_true_r.
Qed.

Lemma TrimRight_all (b cutset : string) :
  (∀ c, inCutset b c = true → inCutset cutset c = true) →
  TrimRight b cutset = "".
Proof.
  induction b as [|d b IH]; intros H; [done|].
  simpl. rewrite IH.
  - rewrite H; [done|]. simpl. by rewrite Ascii.eqb_refl.
  - intros c Hc. apply H. simpl. rewrite Hc. apply orb_true_r.
Qed.

Lemma TrimRight_keeps (a cutset : string) (z : ascii) :
  lastByte a = Some z → inCutset cutset z = false → TrimRight a cutset = a.
Proof.
  induction a as [|c a IH]; [done|].
  destruct a as [|c' a'].
  - simpl. intros [= ->] ->. done.
  - intros Hl Hz. change (lastByte (String c (String c' a')))
      with (lastByte (String c' a')) in Hl.
    specialize (IH Hl Hz).
    change (TrimRight (String c (String c' a')) cutset)
      with (match TrimRight (String c' a') cutset with
            | EmptyString => if inCutset cutset c then EmptyString
                             else String c EmptyString
            | r => String c r
            end).
    by rewrite IH.
Qed.

Lemma TrimRight_app (a b cutset : string) :
  TrimRight b cutset = "" → TrimRight (a +:+ b) cutset = TrimRight a cutset.
Proof.
  intros Hb. induction a as [|c a IH]; [by rewrite sapp_nil_l|].
  rewrite sapp_cons. simpl. by rewrite IH.
Qed.

Lemma TrimLeft_keeps (a cutset : string) (c : ascii) :
  firstByte a = Some c → inCutset cutset c = false → TrimLeft a cutset = a.
Proof. destruct a; simpl; [done|]. by intros [= ->] ->. Qed.

Lemma Trim_app (stem cutset : string) :
  endsClearOf cutset stem → Trim (stem +:+ cutset) cutset = stem.
Proof.
  intros [(a & Ha & Hna) (z & Hz & Hnz)]. unfold Trim.
  rewrite TrimRight_app by (by apply TrimRight_all).
  rewrite (TrimRight_keeps _ _ _ Hz Hnz). by apply (TrimLeft_keeps _ _ a).
Qed.

End TrimFacts.

Section BaseFacts.

Lemma afterLastSeparator_app (a b : string) :
  afterLastSeparator (a +:+ b) =
    match afterLastSeparator b with
    | Some r => Some r
    | None => (λ r, r +:+ b) <$> afterLastSeparator a
    end.
Proof.
  induction a as [|c a IH].
  - rewrite sapp_nil_l. by destruct (afterLastSeparator b).
  - rewrite sapp_cons. simpl. rewrite IH.
    destruct (afterLastSeparator b); [done|].
    destruct (afterLastSeparator a); simpl; [done|].
    by destruct (Ascii.eqb c "/").
Qed.

Lemma afterLastSeparator_clear (s r : string) :
  afterLastSeparator s = Some r → afterLastSeparator r = None.
Proof.
  induction s as [|c s IH]; simpl; [done|].
  destruct (afterLastSeparator s) as [r'|] eqn:Hs.
  - intros [= <-]. by apply IH.
  - destruct (Ascii.eqb c "/"); [|done]. by intros [= <-].
Qed.

Lemma lastByte_app (a b : string) (z : ascii) :
  lastByte b = Some z → lastByte (a +:+ b) = Some z.
Proof.
  intros Hb. induction a as [|c a IH]; [by rewrite sapp_nil_l|].
  rewrite sapp_cons.
  destruct (a +:+ b); [done|]. exact IH.
Qed.

(** filepath.Base keeps a suffix that has no separator in it and does not
    end in one. *)
Lemma Base_app (stem suffix : string) (z : ascii) :
  afterLastSeparator suffix = None →
  lastByte suffix = Some z → z ≠ "/"%char →
  ∃ name, Base (stem +:+ suffix) = name +:+ suffix
          ∧ afterLastSeparator name = None.
Proof.
  intros Hsep Hz Hne. unfold Base.
  assert (Hnonempty : ∀ a, String.eqb (a +:+ suffix) "" = false).
  { intros a. apply String.eqb_neq. intros H.
    pose proof (lastByte_app a _ _ Hz) as HL. by rewrite H in HL. }
  rewrite Hnonempty.
  rewrite (TrimRight_keeps _ _ z).
  2:{ by apply lastByte_app. }
  2:{ simpl. apply orb_false_iff. split; [|done]. by apply Ascii.eqb_neq. }
  rewrite afterLastSeparator_app, Hsep.
  destruct (afterLastSeparator stem) as [r|] eqn:Hr; simpl.
  - rewrite Hnonempty. exists r. split; [done|].
    by eapply afterLastSeparator_clear.
  - rewrite Hnonempty. by exists stem.
Qed.

End BaseFacts.

(** ** Splitting *)

Section SplitFacts.

Lemma cutAt_occurs (s sep : string) :
  occursIn sep s → is_Some (cutAt s sep).
Proof.
  intros (before & after & ->).
  induction before as [|c before IH].
  - rewrite sapp_nil_l. rewrite cutAt_prefix; [done|].
    apply HasPrefix_spec. by exists after.
  - rewrite sapp_cons.
    destruct (HasPrefix (String c (before +:+ sep +:+ after)) sep) eqn:Hp.
    + by rewrite cutAt_prefix.
    + destruct IH as [[b a] Hba].
      destruct sep as [|d sep']; [done|].
      simpl. simpl in Hba. rewrite Hp, Hba. done.
Qed.

Lemma Split_one (s sep : string) :
  sep ≠ "" → ¬ occursIn sep s → Split s sep = [s].
Proof.
  intros Hsep Hno. unfold Split. destruct sep as [|d sep']; [done|].
  destruct (String.length s) eqn:Hl; simpl; [done|].
  destruct (cutAt s (String d sep')) as [[b a]|] eqn:Hc; [|done].
  exfalso. apply Hno. exists b, a. by apply cutAt_Some.
Qed.

Lemma Split_two (s sep : string) :
  occursIn sep s → sep ≠ "" → ∃ x y l, Split s sep = x :: y :: l.
Proof.
  intros Hocc Hsep. destruct (cutAt_occurs _ _ Hocc) as [[b a] Hc].
  unfold Split. destruct sep as [|d sep']; [done|].
  destruct (String.length s) eqn:Hl.
  - destruct s; [|done]. simpl in Hc. done.
  - cbn [genSplit]. rewrite Hc.
    destruct n; cbn [genSplit]; [by eauto|].
    destruct (cutAt a _) as [[b' a']|]; by eauto.
Qed.

(** The first separator of [q ;\n rest] is the one after q, when q has
    none. *)
Lemma cutAt_stmtSep (q rest : string) :
  ¬ occursIn stmtSep q →
  cutAt (q +:+ stmtSep +:+ rest) stmtSep = Some (q, rest).
Proof.
  induction q as [|c q IH]; intros Hno.
  - rewrite sapp_nil_l. rewrite cutAt_prefix.
    + do 2 f_equal. apply (slice_suffix stmtSep rest).
    + apply HasPrefix_spec. by exists rest.
  - rewrite sapp_cons.
    assert (Hp : HasPrefix (String c (q +:+ stmtSep +:+ rest)) stmtSep = false).
    { destruct (HasPrefix _ _) eqn:Hp; [|done]. exfalso.
      apply HasPrefix_spec in Hp as [r Hr].
      unfold stmtSep in Hr. rewrite !sapp_cons, sapp_nil_l in Hr.
      injection Hr as -> Hr.
      destruct q as [|c' q'].
      + rewrite sapp_nil_l in Hr. by injection Hr.
      + rewrite sapp_cons in Hr. injection Hr as Hc _. subst c'.
        apply Hno. exists "", q'. by rewrite sapp_nil_l. }
    change (cutAt (String c (q +:+ stmtSep +:+ rest)) stmtSep)
      with (if HasPrefix (String c (q +:+ stmtSep +:+ rest)) stmtSep
            then Some ("", slice (String c (q +:+ stmtSep +:+ rest))
                             (String.length stmtSep)
                             (String.length (String c (q +:+ stmtSep +:+ rest))))
            else match cutAt (q +:+ stmtSep +:+ rest) stmtSep with
                 | Some (before, after) => Some (String c before, after)
                 | None => None
                 end).
    rewrite Hp, IH; [done|].
    intros (b & a & ->). apply Hno. exists (String c b), a.
    by rewrite sapp_cons.
Qed.

Lemma genSplit_dumpText (n : nat) (qs : list string) :
  Forall (λ q, ¬ occursIn stmtSep q) qs → length qs ≤ n →
  genSplit n (dumpText qs) stmtSep = qs ++ [""].
Proof.
  revert qs. induction n as [|n IH]; intros qs Hqs Hn.
  - destruct qs; [done|simpl in Hn; lia].
  - destruct qs as [|q qs]; [done|].
    apply Forall_cons in Hqs as [Hq Hqs].
    cbn [genSplit dumpText]. rewrite cutAt_stmtSep by done.
    rewrite IH; [done|done|simpl in Hn; lia].
Qed.

Lemma dumpText_length (qs : list string) :
  length qs ≤ String.length (dumpText qs).
Proof.
  induction qs as [|q qs IH]; simpl; [done|].
  rewrite !slength_app. simpl. lia.
Qed.

Lemma Split_dumpText (qs : list string) :
  Forall (λ q, ¬ occursIn stmtSep q) qs →
  Split (dumpText qs) stmtSep = qs ++ [""].
Proof.
  intros Hqs. unfold Split, stmtSep at 1.
  apply genSplit_dumpText; [done|apply dumpText_length].
Qed.

(** X4. The statement splitting inverts the dump format: of a file that
    holds statements, each followed by the separator, the statements
    executed are these, in order, provided none of them contains the
    separator, is empty or starts with the comment marker. *)
Theorem statementsOf_dumpText (qs : list string) :
  Forall (λ q, ¬ occursIn stmtSep q ∧ isStatement q = true) qs →
  Split (dumpText qs) stmtSep = qs ++ [""]
  ∧ statementsOf (dumpText qs) = qs.
Proof.
  intros Hqs.
  assert (Hs : Split (dumpText qs) stmtSep = qs ++ [""]).
  { apply Split_dumpText. eapply Forall_impl; [done|]. by intros q [? _]. }
  split; [done|]. unfold statementsOf. rewrite Hs, filter_app.
  assert (filter (λ q, isStatement q = true) [""] = []) as -> by reflexivity.
  rewrite app_nil_r. clear Hs.
  induction Hqs as [|q qs [_ Hq] _ IH]; [done|].
  rewrite filter_cons_True by done. by f_equal.
Qed.

End SplitFacts.

(** ** The restorers: whole lists, composition, failure modes *)

Section RestorerFacts.

Variable fsys : gmap string string.
Variable server : list Event → Connection → string → option error.

Local Abbreviation run' := (run fsys server).

Lemma run_logged {A : Type} (o : Origin) (p : Prog A) (w : World) :
  ∃ more, logged (run' o p w).2 = logged w ++ more.
Proof.
  revert w. induction p as [a|pn|conn sql k IH|path k IH|line k IH];
    intros w; simpl.
  - exists []. by rewrite app_nil_r.
  - exists []. by rewrite app_nil_r.
  - destruct (IH (server (executed w) conn sql)
                (doExecute server o conn sql w).2) as [more Hm].
    exists more. exact Hm.
  - apply IH.
  - destruct (IH (doLog line w)) as [more ->]. simpl.
    exists (line :: more). by rewrite <- app_assoc.
Qed.

Lemma Panics_bind {A B : Type} (P : panic → Prop) (m : Prog A)
    (f : A → Prog B) :
  Panics P m → (∀ a, Panics P (f a)) → Panics P (bind m f).
Proof. induction 1; intros Hf; simpl; try constructor; auto. Qed.

Lemma Panics_run {A : Type} (P : panic → Prop) (o : Origin) (p : Prog A)
    (w w' : World) (pn : panic) :
  Panics P p → run' o p w = (Panicked pn, w') → P pn.
Proof.
  intros Hp. revert w. induction Hp; intros w; simpl; try done.
  - by intros [= <- _].
  - by apply H0.
  - by apply H0.
  - by apply IHHp.
Qed.

Lemma Panics_AssertNil (err : option error) : Panics isErrorPanic (AssertNil err).
Proof. destruct err; constructor. by eexists. Qed.

Lemma Panics_rangeQuerys (conn : Connection) (querys : list string) :
  Panics isErrorPanic (rangeQuerys conn querys).
Proof.
  induction querys as [|q querys IH]; simpl; [constructor|].
  apply Panics_bind; [|done].
  destruct (_ && _); [|constructor].
  simpl. constructor. intros r. apply Panics_AssertNil.
Qed.

Lemma Panics_restoreDatabaseSchema (conn : Connection) (dbs : list string) :
  Panics isErrorPanic (restoreDatabaseSchema conn dbs).
Proof.
  induction dbs as [|db dbs IH]; simpl; [constructor|].
  constructor. intros [data err].
  apply Panics_bind; [apply Panics_AssertNil|]. intros _. simpl.
  constructor. intros r.
  apply Panics_bind; [apply Panics_AssertNil|]. intros _. simpl.
  by constructor.
Qed.

Lemma Panics_restoreTableSchema (conn : Connection) (schemas : list string) :
  Panics isErrorPanic (restoreTableSchema conn schemas).
Proof.
  induction schemas as [|schema schemas IH]; simpl; [constructor|].
  destruct (Split_head (Trim (Base schema) schemaSuffix) ".") as (x & l & ->);
    [done|].
  simpl. constructor. intros r.
  apply Panics_bind; [apply Panics_AssertNil|]. intros _. simpl.
  constructor. intros [data err].
  apply Panics_bind; [apply Panics_AssertNil|]. intros _.
  apply Panics_bind; [apply Panics_rangeQuerys|]. intros _. simpl.
  by constructor.
Qed.

(** restoreTable either stops at splits[1] before doing anything, or
    panics only through AssertNil. *)
Lemma restoreTable_cases (conn : Connection) (table : string) :
  (Split (Trim (Base table) tableSuffix) "." = [Trim (Base table) tableSuffix]
   ∧ ¬ occursIn "." (Trim (Base table) tableSuffix)
   ∧ restoreTable conn table = Panic (PanicIndex 1 1))
  ∨ (occursIn "." (Trim (Base table) tableSuffix)
     ∧ (∃ db tbl l, Split (Trim (Base table) tableSuffix) "." = db :: tbl :: l)
     ∧ Panics isErrorPanic (restoreTable conn table)).
Proof.
  destruct (cutAt (Trim (Base table) tableSuffix) ".") as [[b a]|] eqn:Hc.
  - right.
    assert (Hocc : occursIn "." (Trim (Base table) tableSuffix)).
    { exists b, a. by apply cutAt_Some. }
    destruct (Split_two _ "." Hocc) as (db & tbl & l & Hs); [done|].
    split_and!; [done|by eauto|].
    unfold restoreTable. rewrite Hs. simpl.
    apply Panics_bind.
    { destruct l; simpl; constructor. }
    intros part. simpl. constructor. constructor. intros r.
    apply Panics_bind; [apply Panics_AssertNil|]. intros _. simpl.
    constructor. intros [data err].
    apply Panics_bind; [apply Panics_AssertNil|]. intros _.
    apply Panics_bind; [apply Panics_rangeQuerys|]. intros _. simpl.
    constructor. constructor.
  - left. apply cutAt_None in Hc.
    pose proof (Split_one _ "." ltac:(done) Hc) as Hs.
    split_and!; [done|done|]. unfold restoreTable. by rewrite Hs.
Qed.

(** X5. The schema restorers panic only through AssertNil, with the
    error of a failed read or of a rejected statement; their index
    expression splits[0] never fails. *)
Theorem schema_restorers_panic_kinds (o : Origin) (conn : Connection)
    (l : list string) (w w' : World) (pn : panic) :
  run' o (restoreDatabaseSchema conn l) w = (Panicked pn, w')
  ∨ run' o (restoreTableSchema conn l) w = (Panicked pn, w') →
  ∃ e, pn = PanicError e.
Proof.
  intros [H|H].
  - eapply (Panics_run isErrorPanic); [apply Panics_restoreDatabaseSchema|done].
  - eapply (Panics_run isErrorPanic); [apply Panics_restoreTableSchema|done].
Qed.

(** X6. restoreTable fails at splits[1], with nothing logged and nothing
    executed, exactly when the trimmed file name has no dot; every other
    panic of it comes from AssertNil; splits[0] and splits[2] never fail. *)
Theorem restoreTable_panic_kinds (o : Origin) (conn : Connection)
    (table : string) (w : World) :
  (¬ occursIn "." (Trim (Base table) tableSuffix) ↔
   run' o (restoreTable conn table) w = (Panicked (PanicIndex 1 1), w))
  ∧ (∀ pn w', run' o (restoreTable conn table) w = (Panicked pn, w') →
       (∃ e, pn = PanicError e)
       ∨ (pn = PanicIndex 1 1 ∧ w' = w
          ∧ ¬ occursIn "." (Trim (Base table) tableSuffix))).
Proof.
  destruct (restoreTable_cases conn table)
    as [(Hs & Hno & Hp)|(Hocc & _ & Hp)].
  - rewrite Hp. simpl. split; [done|].
    intros pn w' [= <- <-]. by right.
  - split.
    + split; [done|]. intros Hrun.
      destruct (Panics_run _ _ _ _ _ _ Hp Hrun) as [e [=]].
    + intros pn w' Hrun. left. by eapply (Panics_run isErrorPanic).
Qed.

End RestorerFacts.

Section RestorerRuns.

Variable fsys : gmap string string.
Variable server : list Event → Connection → string → option error.

Local Abbreviation run' := (run fsys server).

(** X7. The database phase sends each file's whole text as one single
    statement: it is neither split at the separator nor filtered for
    comments.  When every file can be read and the server accepts every
    text, the statements are the texts of the files, in the order of the
    list, and one line is logged per file, with the file's base name
    without the suffix. *)
Theorem restoreDatabaseSchema_all (o : Origin) (conn : Connection)
    (dbs : list string) (w : World) :
  Forall (λ db, is_Some (fsys !! db)) dbs →
  (∀ h db, db ∈ dbs → server h conn (textOf fsys db) = None) →
  run' o (restoreDatabaseSchema conn dbs) w =
    (Ok tt,
     mkWorld
       (executed w ++ ((λ db, mkEvent o conn (textOf fsys db) None) <$> dbs))
       (logged w ++
          ((λ db, Info "restoring.database[%s]"
                    [AStr (TrimSuffix (Base db) dbSuffix)]) <$> dbs))).
Proof.
  revert w. induction dbs as [|db dbs IH]; intros w Hread Hacc.
  - simpl. rewrite !app_nil_r. by destruct w.
  - apply Forall_cons in Hread as [[sql Hsql] Hread].
    rewrite restoreDatabaseSchema_run, Hsql. unfold doExecute.
    assert (Hdb : textOf fsys db = sql) by (unfold textOf; by rewrite Hsql).
    rewrite <- Hdb, Hacc by left.
    rewrite IH; [|done|intros h d Hd; apply Hacc; by right].
    simpl. by rewrite <- !app_assoc.
Qed.

(** X8. Restoring a list of files is restoring its first part and then
    the rest, in the world the first part leaves; a panic in the first
    part is the outcome, and nothing of the rest is touched. *)
Theorem restore_app (o : Origin) (conn : Connection) (l1 l2 : list string)
    (w : World) :
  run' o (restoreDatabaseSchema conn (l1 ++ l2)) w =
    match run' o (restoreDatabaseSchema conn l1) w with
    | (Ok _, w1) => run' o (restoreDatabaseSchema conn l2) w1
    | (Panicked pn, w1) => (Panicked pn, w1)
    end
  ∧ run' o (restoreTableSchema conn (l1 ++ l2)) w =
    match run' o (restoreTableSchema conn l1) w with
    | (Ok _, w1) => run' o (restoreTableSchema conn l2) w1
    | (Panicked pn, w1) => (Panicked pn, w1)
    end.
Proof.
  split.
  - revert w. induction l1 as [|db l1 IH]; intros w; [done|].
    rewrite <- app_comm_cons, !restoreDatabaseSchema_run.
    destruct (fsys !! db); [|done].
    destruct (doExecute _ _ _ _ _) as [[e|] w1]; [done|]. apply IH.
  - revert w. induction l1 as [|schema l1 IH]; intros w; [done|].
    destruct (Split_head (Trim (Base schema) schemaSuffix) ".")
      as (db & l & Hs); [done|].
    rewrite <- app_comm_cons.
    rewrite !(restoreTableSchema_run _ _ _ _ _ db) by (by rewrite Hs).
    destruct (doExecute _ _ _ _ _) as [[e|] w1]; [done|].
    destruct (fsys !! schema); [|done].
    destruct (executeAll _ _ _ _ _) as [[[]|pn] w2]; [|done]. apply IH.
Qed.

(** X9. Where the character trim and the literal suffix agree: when
    neither the first nor the last byte of the stem is a byte of the
    suffix, strings.Trim removes exactly the suffix, and the use
    statement names the text of the stem before its first dot. *)
Theorem use_statement_when_clear (o : Origin) (conn : Connection)
    (file stem suffix : string) (w : World) :
  Base file = stem +:+ suffix →
  endsClearOf suffix stem →
  Trim (Base file) suffix = stem
  ∧ TrimSuffix (Base file) suffix = stem
  ∧ ∃ db l,
      Split stem "." = db :: l
      ∧ Join (db :: l) "." = stem
      ∧ ¬ occursIn "." db
      ∧ (suffix = schemaSuffix → ∀ rest, ∃ more,
           executed (run' o (restoreTableSchema conn (file :: rest)) w).2
           = executed w
             ++ mkEvent o conn (Sprintf_use db)
                  (server (executed w) conn (Sprintf_use db)) :: more)
      ∧ (suffix = tableSuffix → is_Some (l !! 0) → ∃ more,
           executed (run' o (restoreTable conn file) w).2
           = executed w
             ++ mkEvent o conn (Sprintf_use db)
                  (server (executed w) conn (Sprintf_use db)) :: more).
Proof.
  intros Hbase Hclear.
  assert (Htrim : Trim (Base file) suffix = stem).
  { rewrite Hbase. by apply Trim_app. }
  split; [done|]. split; [rewrite Hbase; apply TrimSuffix_app|].
  destruct (Split_head stem ".") as (db & l & Hs); [done|].
  exists db, l. split; [done|]. split; [rewrite <- Hs; by apply Split_Join|].
  split.
  { pose proof (Split_complete stem "." ltac:(done)) as Hc.
    rewrite Hs in Hc. by apply Forall_cons in Hc as [? _]. }
  split.
  - intros -> rest. simpl. rewrite Htrim, Hs. simpl.
    destruct (run_executed fsys server o
                (AssertNil (server (executed w) conn (Sprintf_use db)) ;;;
                 r <- common_ReadFile file ;;
                 let '(data, err) := r in
                 AssertNil err ;;;
                 rangeQuerys conn (Split data stmtSep) ;;;
                 log_Info "restoring.schema[%s]" [AStr stem] ;;;
                 restoreTableSchema conn rest)
                (doExecute server o conn (Sprintf_use db) w).2)
      as (evs & Hevs & _).
    exists evs. etrans; [exact Hevs|]. simpl. by rewrite <- app_assoc.
  - intros -> [tbl Htbl]. destruct l as [|tbl' l]; [done|].
    injection Htbl as ->.
    unfold restoreTable. rewrite Htrim, Hs. simpl.
    destruct l as [|part' l]; simpl.
    all: match goal with
         | |- ∃ _, executed (run ?f ?s ?o ?p ?w0).2 = _ =>
             destruct (run_executed f s o p w0) as (evs & Hevs & _);
             exists evs; etrans; [exact Hevs|]; simpl;
             by rewrite <- app_assoc
         end.
Qed.

(** X10. The part of a row-data file: the third dot-separated segment
    of the trimmed name when there is one, "0" otherwise; the table is
    the second segment.  The first thing restoreTable does is to log
    them with the connection's ID, before any statement is executed. *)
Theorem restoreTable_part (o : Origin) (conn : Connection)
    (table db tbl : string) (rest : list string) (w : World) :
  Split (Trim (Base table) tableSuffix) "." = db :: tbl :: rest →
  ∃ p' : Prog Z,
    act fsys server o (restoreTable conn table) w =
      (p', mkWorld (executed w)
             (logged w ++
                [Info "restoring.tables[%s].parts[%s].thread[%d]"
                   [AStr tbl; AStr (default "0" (head rest));
                    AInt (Z.of_nat (ID conn))]]))
    ∧ ∃ more,
        logged (run' o (restoreTable conn table) w).2 =
          logged w ++
            Info "restoring.tables[%s].parts[%s].thread[%d]"
              [AStr tbl; AStr (default "0" (head rest));
               AInt (Z.of_nat (ID conn))] :: more.
Proof.
  intros Hs. unfold restoreTable. rewrite Hs.
  destruct rest as [|part rest]; simpl.
  all: eexists; split; [reflexivity|].
  all: match goal with
       | |- ∃ _, logged (run ?f ?s ?o ?p ?w0).2 = _ =>
           destruct (run_logged f s o p w0) as (more & Hmore);
           exists more; etrans; [exact Hmore|]; simpl;
           by rewrite <- app_assoc
       end.
Qed.

(** X11. The base name of a catalogued file still ends in the suffix
    that put it in its list, and what precedes the suffix has no path
    separator: for a database file, it is the name that is logged. *)
Theorem Base_keeps_suffix (path : string) :
  (endsIn path dbSuffix →
   ∃ name, Base path = name +:+ dbSuffix
           ∧ TrimSuffix (Base path) dbSuffix = name
           ∧ afterLastSeparator name = None)
  ∧ (endsIn path schemaSuffix →
     ∃ name, Base path = name +:+ schemaSuffix
             ∧ afterLastSeparator name = None)
  ∧ (endsIn path tableSuffix →
     ∃ name, Base path = name +:+ tableSuffix
             ∧ afterLastSeparator name = None).
Proof.
  split_and!; intros [stem ->].
  - destruct (Base_app stem dbSuffix "l") as (name & Hn & Hsep); try done.
    exists name. rewrite Hn. split_and!; [done|apply TrimSuffix_app|done].
  - by apply (Base_app stem schemaSuffix "l").
  - by apply (Base_app stem tableSuffix "l").
Qed.

Lemma Calls_bind {A B : Type} (E : Connection → Prop) (R : string → Prop)
    (m : Prog A) (f : A → Prog B) :
  Calls E R m → (∀ a, Calls E R (f a)) → Calls E R (bind m f).
Proof. induction 1; intros Hf; simpl; try constructor; auto. Qed.

Lemma Calls_weaken {A : Type} (E : Connection → Prop) (R R' : string → Prop)
    (p : Prog A) :
  (∀ x, R x → R' x) → Calls E R p → Calls E R' p.
Proof. intros HR. induction 1; constructor; auto. Qed.

Lemma Calls_AssertNil (E : Connection → Prop) (R : string → Prop)
    (err : option error) :
  Calls E R (AssertNil err).
Proof. destruct err; constructor. Qed.

Lemma Calls_rangeQuerys (conn : Connection) (R : string → Prop)
    (querys : list string) :
  Calls (λ c, c = conn) R (rangeQuerys conn querys).
Proof.
  induction querys as [|q querys IH]; simpl; [constructor|].
  apply Calls_bind; [|done].
  destruct (_ && _); [|constructor].
  simpl. constructor; [done|]. intros r. apply Calls_AssertNil.
Qed.

Lemma Calls_index (E : Connection → Prop) (R : string → Prop)
    (l : list string) (i : nat) :
  Calls E R (index l i).
Proof. unfold index. destruct (l !! i); constructor. Qed.

Lemma Calls_restoreDatabaseSchema (conn : Connection) (dbs : list string) :
  Calls (λ c, c = conn) (λ path, path ∈ dbs) (restoreDatabaseSchema conn dbs).
Proof.
  induction dbs as [|db dbs IH]; simpl; [constructor|].
  constructor; [left|]. intros [data err].
  apply Calls_bind; [apply Calls_AssertNil|]. intros _. simpl.
  constructor; [done|]. intros r.
  apply Calls_bind; [apply Calls_AssertNil|]. intros _. simpl.
  constructor. eapply Calls_weaken; [|exact IH]. intros x Hx. by right.
Qed.

Lemma Calls_restoreTableSchema (conn : Connection) (schemas : list string) :
  Calls (λ c, c = conn) (λ path, path ∈ schemas)
    (restoreTableSchema conn schemas).
Proof.
  induction schemas as [|schema schemas IH]; simpl; [constructor|].
  apply Calls_bind; [apply Calls_index|]. intros db. simpl.
  constructor; [done|]. intros r.
  apply Calls_bind; [apply Calls_AssertNil|]. intros _. simpl.
  constructor; [left|]. intros [data err].
  apply Calls_bind; [apply Calls_AssertNil|]. intros _.
  apply Calls_bind; [apply Calls_rangeQuerys|]. intros _. simpl.
  constructor. eapply Calls_weaken; [|exact IH]. intros x Hx. by right.
Qed.

Lemma Calls_restoreTable (conn : Connection) (table : string) :
  Calls (λ c, c = conn) (λ path, path = table) (restoreTable conn table).
Proof.
  unfold restoreTable.
  apply Calls_bind; [apply Calls_index|]. intros db.
  apply Calls_bind; [apply Calls_index|]. intros tbl.
  apply Calls_bind.
  { destruct (_ <? _); [apply Calls_index|constructor]. }
  intros part. simpl. constructor. constructor; [done|]. intros r.
  apply Calls_bind; [apply Calls_AssertNil|]. intros _. simpl.
  constructor; [done|]. intros [data err].
  apply Calls_bind; [apply Calls_AssertNil|]. intros _.
  apply Calls_bind; [apply Calls_rangeQuerys|]. intros _. simpl.
  constructor. constructor.
Qed.

Lemma Calls_run {A : Type} (E : Connection → Prop) (R : string → Prop)
    (o : Origin) (p : Prog A) (w : World) :
  Calls E R p →
  ∃ evs, executed (run' o p w).2 = executed w ++ evs
         ∧ Forall (λ e, E (onConn e)) evs.
Proof.
  intros Hp. revert w.
  induction Hp as [a|pn|conn sql k HE _ IH|path k _ _ IH|line k _ IH];
    intros w; simpl.
  - exists []. by rewrite app_nil_r.
  - exists []. by rewrite app_nil_r.
  - destruct (IH (server (executed w) conn sql)
                (doExecute server o conn sql w).2) as (evs & Hevs & Hall).
    exists (mkEvent o conn sql (server (executed w) conn sql) :: evs).
    split; [|by constructor].
    etrans; [exact Hevs|]. simpl. by rewrite <- app_assoc.
  - apply IH.
  - apply (IH (doLog line w)).
Qed.

(** X12. A restorer calls the server only on the connection it was
    given, and reads only the files it was given: the whole lists of the
    schema restorers, the one file of restoreTable. *)
Theorem restorers_stay_on_connection (conn : Connection) :
  (∀ dbs, Calls (λ c, c = conn) (λ path, path ∈ dbs)
            (restoreDatabaseSchema conn dbs))
  ∧ (∀ schemas, Calls (λ c, c = conn) (λ path, path ∈ schemas)
                  (restoreTableSchema conn schemas))
  ∧ (∀ table, Calls (λ c, c = conn) (λ path, path = table)
                (restoreTable conn table))
  ∧ (∀ o l w, ∃ evs,
       executed (run' o (restoreDatabaseSchema conn l) w).2
       = executed w ++ evs
       ∧ Forall (λ e, onConn e = conn) evs)
  ∧ (∀ o l w, ∃ evs,
       executed (run' o (restoreTableSchema conn l) w).2
       = executed w ++ evs
       ∧ Forall (λ e, onConn e = conn) evs)
  ∧ (∀ o table w, ∃ evs,
       executed (run' o (restoreTable conn table) w).2
       = executed w ++ evs
       ∧ Forall (λ e, onConn e = conn) evs).
Proof.
  split_and!.
  - apply Calls_restoreDatabaseSchema.
  - apply Calls_restoreTableSchema.
  - apply Calls_restoreTable.
  - intros o l w.
    apply (Calls_run (λ c, c = conn) _ _ _ _ (Calls_restoreDatabaseSchema conn l)).
  - intros o l w.
    apply (Calls_run (λ c, c = conn) _ _ _ _ (Calls_restoreTableSchema conn l)).
  - intros o table w.
    apply (Calls_run (λ c, c = conn) _ _ _ _ (Calls_restoreTable conn table)).
Qed.

End RestorerRuns.

(** ** The shuffle reaches every order *)

Section ShuffleReach.

Lemma shuffleLoop_app (src : nat → nat) (l1 l2 : list nat) (a : list string) :
  shuffleLoop src (l1 ++ l2) a =
    match shuffleLoop src l1 a with
    | Ok a' => shuffleLoop src l2 a'
    | Panicked p => Panicked p
    end.
Proof.
  revert a. induction l1 as [|i l1 IH]; intros a; simpl; [done|].
  destruct (swap a i _); [apply IH|done].
Qed.

Lemma shuffleLoop_ext (src src' : nat → nat) (l : list nat) (a : list string) :
  (∀ i, i ∈ l → src i = src' i) →
  shuffleLoop src l a = shuffleLoop src' l a.
Proof.
  revert a. induction l as [|i l IH]; intros a Hl; simpl; [done|].
  unfold Intn. rewrite (Hl i) by left.
  destruct (swap a i _); [|done]. apply IH. intros k Hk. apply Hl. by right.
Qed.

Lemma swap_app_l (a b a' : list string) (i j : nat) :
  swap a i j = Ok a' → swap (a ++ b) i j = Ok (a' ++ b).
Proof.
  unfold swap. destruct (a !! j) as [aj|] eqn:Hj; [|done].
  destruct (a !! i) as [ai|] eqn:Hi; [|done]. intros [= <-].
  rewrite (lookup_app_l_Some _ _ _ _ Hj), (lookup_app_l_Some _ _ _ _ Hi).
  apply lookup_lt_Some in Hj, Hi.
  rewrite (insert_app_l a b i) by done.
  rewrite (insert_app_l (<[i:=aj]> a) b j) by (by rewrite length_insert).
  done.
Qed.

Lemma shuffleLoop_app_l (src : nat → nat) (l : list nat)
    (a b a' : list string) :
  shuffleLoop src l a = Ok a' → shuffleLoop src l (a ++ b) = Ok (a' ++ b).
Proof.
  revert a. induction l as [|i l IH]; intros a; simpl.
  - by intros [= <-].
  - destruct (swap a i _) as [a1|] eqn:Hs; [|done].
    rewrite (swap_app_l _ _ _ _ _ Hs). apply IH.
Qed.

Lemma list_snoc_length {A : Type} (n : nat) (a : list A) :
  length a = S n → ∃ b x, a = b ++ [x] ∧ length b = n.
Proof.
  destruct a as [|y a] using rev_ind; [done|].
  rewrite length_app. simpl. intros H. exists a, y. split; [done|lia].
Qed.

Lemma Shuffle_last (src : nat → nat) (b b' : list string) (x : string)
    (j : nat) :
  Shuffle src b = Ok b' → j ≤ length b →
  Shuffle (λ i, if i =? length b then j else src i) (b ++ [x])
  = swap (b' ++ [x]) (length b) j.
Proof.
  intros Hb Hj. unfold Shuffle in *.
  rewrite length_app. simpl. rewrite Nat.add_1_r, seq_S, shuffleLoop_app.
  simpl.
  rewrite (shuffleLoop_ext _ src).
  2:{ intros i Hi. apply elem_of_seq in Hi.
      destruct (Nat.eqb_spec i (length b)); [lia|done]. }
  rewrite (shuffleLoop_app_l _ _ _ _ _ Hb).
  unfold Intn. rewrite Nat.eqb_refl.
  rewrite Nat.mod_small by lia.
  by destruct (swap _ _ _).
Qed.

Lemma Shuffle_reach (n : nat) (a a' : list string) :
  length a = n → a' ≡ₚ a → ∃ src, Shuffle src a = Ok a'.
Proof.
  revert a a'. induction n as [|n IH]; intros a a' Hlen Hperm.
  - apply nil_length_inv in Hlen as ->.
    apply Permutation_nil_r in Hperm as ->. by exists (λ _, 0).
  - destruct (list_snoc_length n a Hlen) as (b & x & -> & Hb).
    assert (Hlen' : length a' = S n).
    { rewrite (Permutation_length Hperm), length_app. simpl. lia. }
    destruct (list_snoc_length n a' Hlen') as (t & y & -> & Ht).
    destruct (decide (x ∈ t)) as [Hx|Hx].
    + apply list_elem_of_lookup_1 in Hx as [j Hj].
      pose proof (lookup_lt_Some _ _ _ Hj) as Hjn.
      assert (Hb' : <[j := y]> t ≡ₚ b).
      { apply (Permutation_cons_inv (a := x)).
        rewrite insert_take_drop by done.
        rewrite <- Permutation_middle.
        rewrite (Permutation_swap y x).
        rewrite <- delete_take_drop.
        rewrite <- (delete_Permutation _ _ _ Hj).
        by rewrite (Permutation_cons_append t y), (Permutation_cons_append b x). }
      destruct (IH b (<[j := y]> t) Hb Hb') as [src Hsrc].
      exists (λ i, if i =? length b then j else src i).
      rewrite (Shuffle_last _ _ _ _ _ Hsrc) by lia.
      unfold swap.
      assert (Hlen_b' : length (<[j := y]> t) = length b).
      { by rewrite length_insert, Ht, Hb. }
      rewrite (lookup_app_l (<[j:=y]> t) [x] j) by (rewrite length_insert; lia).
      rewrite list_lookup_insert_eq by done.
      rewrite <- Hlen_b' at 1.
      rewrite (lookup_app_r (<[j:=y]> t) [x]) by lia.
      rewrite Nat.sub_diag. simpl. f_equal.
      rewrite <- Hlen_b'.
      rewrite (insert_app_r_alt (<[j:=y]> t) [x]) by lia.
      rewrite Nat.sub_diag. simpl.
      rewrite (insert_app_l (<[j:=y]> t) [y] j) by (rewrite length_insert; lia).
      rewrite list_insert_insert_eq, list_insert_id by done. done.
    + assert (y = x) as ->.
      { assert (Hin : x ∈ t ++ [y]).
        { rewrite Hperm. apply elem_of_app. right. by left. }
        apply elem_of_app in Hin as [?|Hin]; [done|].
        by apply list_elem_of_singleton in Hin. }
      assert (Hb' : t ≡ₚ b).
      { apply (Permutation_cons_inv (a := x)).
        by rewrite (Permutation_cons_append t x), (Permutation_cons_append b x). }
      destruct (IH b t Hb Hb') as [src Hsrc].
      exists (λ i, if i =? length b then length b else src i).
      rewrite (Shuffle_last _ _ _ _ _ Hsrc) by lia.
      unfold swap.
      assert (Hlen_t : length t = length b) by lia.
      rewrite <- Hlen_t.
      rewrite (lookup_app_r t [x]) by lia.
      rewrite Nat.sub_diag. simpl. f_equal.
      rewrite !(insert_app_r_alt t) by lia.
      by rewrite Nat.sub_diag.
Qed.

(** X13. The shuffle can produce every order of the table files: for
    each permutation of the list there is a random source under which
    the loop leaves exactly it. *)
Theorem Shuffle_reaches_every_order (a a' : list string) :
  a' ≡ₚ a → ∃ src, Shuffle src a = Ok a'.
Proof. by apply (Shuffle_reach (length a)). Qed.

End ShuffleReach.

(** ** The orchestrator: connections, progress, edge cases *)

Section OrchestratorFacts.

Variable fsys : gmap string string.
Variable server : list Event → Connection → string → option error.
Variable src : nat → nat.
Variable args : Args.
Variable files : Files.

Local Abbreviation sched' := (sched fsys server src args files).
Local Abbreviation step' := (step fsys server src args files).
Local Abbreviation init' := (init args files).
Local Abbreviation reachable' := (reachable fsys server src args files).

Lemma holds_insert (ws : list Worker) (i : nat) (w w' : Worker) :
  ws !! i = Some w →
  ∃ hs, ws ≫= workerHolds ≡ₚ workerHolds w ++ hs
        ∧ <[i := w']> ws ≫= workerHolds ≡ₚ workerHolds w' ++ hs.
Proof.
  intros Hw. exists ((take i ws ≫= workerHolds) ++ (drop (S i) ws ≫= workerHolds)).
  pose proof (lookup_lt_Some _ _ _ Hw) as Hi.
  rewrite insert_take_drop by done.
  rewrite <- (take_drop_middle ws i w Hw) at 1.
  rewrite !bind_app, !bind_cons.
  split; by rewrite !(assoc_L (++)), (comm (++) (take i ws ≫= workerHolds)).
Qed.

Lemma poolInv_driver (c c' : Config) :
  poolInv args c →
  driverStep fsys server src args files c = Some c' →
  poolInv args c'.
Proof.
  unfold poolInv, held, driverStep. intros Hinv Hstep.
  destruct c as [d tb po n ws b w tk rp cr]; simpl in *.
  destruct d; simpl in *; repeat case_match; simplify_eq/=; try done.
  all: rewrite <- Hinv.
  - symmetry. apply Permutation_middle.
  - by rewrite <- (assoc_L (++)).
  - symmetry. apply Permutation_middle.
  - by rewrite <- (assoc_L (++)).
  - rewrite bind_app, bind_singleton. unfold workerHolds at 2. simpl.
    rewrite (assoc_L (++)). symmetry. apply Permutation_cons_append.
Qed.

Lemma poolInv_worker (i : nat) (c c' : Config) :
  poolInv args c →
  workerStep fsys server i c = Some c' →
  poolInv args c'.
Proof.
  unfold poolInv, held, workerStep, setStage. intros Hinv Hstep.
  destruct (workers c !! i) as [w|] eqn:Hw; [|done].
  destruct (holds_insert (workers c) i w
              (mkWorker (wconn w) (wtable w)
                 match wstage w with
                 | WRestore (Ret r) => WAdd r
                 | WRestore (Panic pn) => WPanicDone pn
                 | WRestore p => WRestore (act fsys server PhaseData p (world c)).1
                 | WAdd _ => WDone
                 | WDone => WPut
                 | WPanicDone pn => WPanicPut pn
                 | WPanicPut pn => WFatal pn
                 | _ => WExited
                 end) Hw) as (hs & Hws & Hws').
  rewrite Hws in Hinv. unfold workerHolds in Hinv, Hws'.
  destruct c as [d tb po n ws b wd tk rp cr]; simpl in *.
  destruct (wstage w) as [p|r| | | |pn'|pn'|pn'] eqn:Hst; simplify_eq/=;
    [destruct p as [r|pn|conn sql k|path k|line k]; simplify_eq/=|..];
    try done; rewrite ?Hws'; simpl; try done.
  all: first
    [ rewrite Hws; unfold workerHolds; by rewrite Hst
    | rewrite <- Hinv, <- (assoc_L (++));
      apply Permutation_app; [done|];
      exact (Permutation_middle (driverHolds d) hs (wconn w)) ].
Qed.

Lemma poolInv_reachable (c : Config) : reachable' c → poolInv args c.
Proof.
  apply (reachable_inv fsys server src args files); clear c.
  - unfold poolInv, held. simpl. by rewrite app_nil_r.
  - intros c c' t Hc Hinv Hstep.
    unfold sched in Hstep. destruct (crashed c); [done|].
    destruct t as [|i| |].
    + by eapply poolInv_driver.
    + by eapply poolInv_worker.
    + unfold timerStep in Hstep. unfold poolInv, held in *.
      repeat case_match; simplify_eq/=; done.
    + unfold reporterStep in Hstep. unfold poolInv, held in *.
      repeat case_match; simplify_eq/=; done.
Qed.

Lemma NewPool_NoDup (n : nat) : NoDup (NewPool n).
Proof.
  unfold NewPool. apply NoDup_fmap_2; [|apply NoDup_seq].
  by intros x y [=].
Qed.

Lemma holds_distinct (ws : list Worker) (i j : nat) (wi wj : Worker) :
  NoDup (ws ≫= workerHolds) →
  i < j → ws !! i = Some wi → ws !! j = Some wj →
  holdsConn (wstage wi) = true → holdsConn (wstage wj) = true →
  wconn wi ≠ wconn wj.
Proof.
  intros Hnd Hij Hi Hj Hhi Hhj Heq.
  rewrite <- (take_drop_middle ws i wi Hi) in Hnd.
  rewrite bind_app, bind_cons in Hnd.
  apply NoDup_app in Hnd as (_ & _ & Hnd).
  apply NoDup_app in Hnd as (_ & Hnd & _).
  unfold workerHolds at 1 in Hnd. rewrite Hhi in Hnd.
  apply (Hnd (wconn wi)); [left|].
  apply list_elem_of_bind. exists wj. split.
  - unfold workerHolds. rewrite Hhj, Heq. left.
  - apply list_elem_of_lookup. exists (j - S i).
    rewrite lookup_drop. rewrite <- Hj. f_equal. lia.
Qed.

(** X14. Connections are neither lost nor shared: at every moment the
    free connections and the connections in use are together the
    connections of the pool, each once; so at most [Threads] goroutines
    hold a connection, and two goroutines that have not put theirs back
    hold different ones. *)
Theorem pool_discipline (c : Config) :
  reachable' c →
  pool c ++ held c ≡ₚ NewPool (Threads args)
  ∧ NoDup (pool c ++ held c)
  ∧ length (pool c) + length (held c) = Threads args
  ∧ (∀ i j wi wj,
       i ≠ j → workers c !! i = Some wi → workers c !! j = Some wj →
       holdsConn (wstage wi) = true → holdsConn (wstage wj) = true →
       wconn wi ≠ wconn wj)
  ∧ (∀ conn, conn ∈ pool c ++ held c → ID conn < Threads args).
Proof.
  intros Hc. pose proof (poolInv_reachable c Hc) as Hinv.
  unfold poolInv in Hinv.
  assert (Hnd : NoDup (pool c ++ held c)).
  { rewrite Hinv. apply NewPool_NoDup. }
  split_and!; [done|done|..].
  - rewrite <- length_app, Hinv. unfold NewPool.
    by rewrite length_fmap, length_seq.
  - intros i j wi wj Hij Hi Hj Hhi Hhj.
    apply NoDup_app in Hnd as (_ & _ & Hnd). unfold held in Hnd.
    apply NoDup_app in Hnd as (_ & _ & Hnd).
    destruct (decide (i < j)).
    + by eapply (holds_distinct _ i j).
    + intros Heq. symmetry in Heq. revert Heq.
      eapply (holds_distinct _ j i); [done|lia|done..].
  - intros conn Hin. rewrite Hinv in Hin. unfold NewPool in Hin.
    apply list_elem_of_fmap in Hin as (k & -> & Hk).
    apply elem_of_seq in Hk. simpl. lia.
Qed.

Lemma workerStep_enabled (i : nat) (c : Config) (w : Worker) :
  workers c !! i = Some w → holdsConn (wstage w) = true →
  is_Some (workerStep fsys server i c).
Proof.
  intros Hw Hh. unfold workerStep. rewrite Hw.
  destruct (wstage w) as [p|r| | | |pn'|pn'|pn']; [destruct p|..]; done.
Qed.

Lemma holds_nonempty (ws : list Worker) :
  ws ≫= workerHolds ≠ [] →
  ∃ i w, ws !! i = Some w ∧ holdsConn (wstage w) = true.
Proof.
  induction ws as [|w ws IH]; [done|]. rewrite bind_cons.
  unfold workerHolds at 1.
  destruct (holdsConn (wstage w)) eqn:Hh.
  - intros _. by exists 0, w.
  - intros H. destruct (IH H) as (i & w' & ? & ?). by exists (S i), w'.
Qed.

Lemma countNotDone_nonzero (ws : list Worker) :
  countNotDone ws ≠ 0%Z →
  ∃ i w, ws !! i = Some w ∧ holdsConn (wstage w) = true.
Proof.
  unfold countNotDone. induction ws as [|w ws IH]; [done|].
  cbn [sumOver]. destruct (notDone (wstage w)) eqn:Hnd.
  - intros _. exists 0, w. split; [done|]. by destruct (wstage w).
  - intros H. destruct (IH H) as (i & w' & ? & ?). by exists (S i), w'.
Qed.

(** X15. With at least one connection the loader cannot block for
    good: as long as it has neither returned nor died, the main
    goroutine or one of the goroutines it started can take a step.  A
    pool.Get that finds no free connection, and wg.Wait, wait for a
    goroutine that is still running. *)
Theorem Loader_never_stuck (c : Config) :
  1 ≤ Threads args →
  reachable' c →
  crashed c = None →
  driver c ≠ DReturned →
  is_Some (sched' TDriver c)
  ∨ ∃ i w, workers c !! i = Some w
           ∧ holdsConn (wstage w) = true
           ∧ is_Some (sched' (TWorker i) c).
Proof.
  intros Hth Hc Hcr Hd.
  pose proof (poolInv_reachable c Hc) as Hpool.
  pose proof (progressInv_reachable fsys server src args files c Hc)
    as (_ & Hwg & _ & Hws & _).
  unfold poolInv, held in Hpool. unfold sched. rewrite Hcr.
  assert (Hne : pool c = [] → driverHolds (driver c) = [] →
                ∃ i w, workers c !! i = Some w
                       ∧ holdsConn (wstage w) = true).
  { intros Hp Hdh. apply holds_nonempty. intros Hnil.
    rewrite Hp, Hdh, Hnil in Hpool. simpl in Hpool.
    apply Permutation_nil_l in Hpool. unfold NewPool in Hpool.
    destruct (Threads args); [lia|done]. }
  assert (Hworker : (∃ i w, workers c !! i = Some w
                            ∧ holdsConn (wstage w) = true) →
    ∃ i w, workers c !! i = Some w ∧ holdsConn (wstage w) = true
           ∧ is_Some (workerStep fsys server i c)).
  { intros (i & w & Hw & Hh). exists i, w.
    split_and!; [done|done|by eapply workerStep_enabled]. }
  unfold driverStep.
  destruct (driver c) as [|conn p|conn| |conn p|conn| |rest| | | | | | |conn pn|pn|] eqn:Hdr;
    simpl in *; try (left; done).
  - destruct (pool c) eqn:Hp; [|by left]. right. by apply Hworker, Hne.
  - left. by destruct p.
  - destruct (pool c) eqn:Hp; [|by left]. right. by apply Hworker, Hne.
  - left. by destruct p.
  - left. by destruct (Shuffle src (ctables c)).
  - destruct rest as [|table rest]; [by left|].
    destruct (pool c) eqn:Hp; [|by left]. right. by apply Hworker, Hne.
  - left. by destruct (tickDuration args <=? 0)%Z.
  - destruct (wg c =? 0)%Z eqn:Hz; [by left|]. right. apply Hworker.
    apply countNotDone_nonzero. rewrite <- Hwg. by apply Z.eqb_neq.
Qed.

(** X16. With an empty pool nothing happens at all: the first pool.Get
    never returns, so no file is read and no statement is executed. *)
Theorem Loader_without_connections (c : Config) :
  Threads args = 0 →
  reachable' c →
  c = init' ∧ world c = emptyWorld ∧ ∀ t, sched' t c = None.
Proof.
  intros Hth Hc.
  assert (Hinit : ∀ t, sched' t init' = None).
  { intros t. unfold sched, init. simpl. rewrite Hth.
    by destruct t. }
  assert (c = init') as ->.
  { revert c Hc. apply (reachable_inv fsys server src args files); [done|].
    intros c c' t _ -> Hstep. by rewrite Hinit in Hstep. }
  done.
Qed.

Lemma countNotDone_bounds (ws : list Worker) :
  (0 ≤ countNotDone ws ≤ Z.of_nat (length ws))%Z.
Proof.
  unfold countNotDone. induction ws as [|w ws IH]; cbn [sumOver length]; [lia|].
  destruct (notDone (wstage w)); lia.
Qed.

(** X17. One goroutine per row-data file: the goroutines started so far
    are those of the files the dispatch loop has passed, in the
    shuffled order; once the loop is left their files are a permutation
    of the catalogued table files.  The WaitGroup counter is the number
    of goroutines that have not called Done: it is never negative and
    never more than the number of table files. *)
Theorem one_goroutine_per_table (c : Config) :
  reachable' c →
  (∃ rest, (wtable <$> workers c) ++ rest = ctables c
           ∧ (dispatched (driver c) = true → rest = []))
  ∧ ctables c ≡ₚ tables files
  ∧ (dispatched (driver c) = true → wtable <$> workers c ≡ₚ tables files)
  ∧ length (workers c) ≤ length (tables files)
  ∧ wg c = countNotDone (workers c)
  ∧ (0 ≤ wg c ≤ Z.of_nat (length (tables files)))%Z.
Proof.
  intros Hc.
  pose proof (progressInv_reachable fsys server src args files c Hc)
    as (_ & Hwg & _ & Hws & _).
  pose proof (ctables_perm fsys server src args files c Hc) as Hperm.
  assert (Hrest : ∃ rest, (wtable <$> workers c) ++ rest = ctables c
                          ∧ (dispatched (driver c) = true → rest = [])).
  { destruct (driver c); simpl in Hws;
      first [ by eexists; split; [exact Hws|]
            | exists []; rewrite app_nil_r; by split
            | exists (ctables c); rewrite Hws; by split ]. }
  assert (Hlen : length (workers c) ≤ length (tables files)).
  { destruct Hrest as (rest & Hr & _).
    rewrite <- (Permutation_length Hperm), <- Hr, length_app, length_fmap. lia. }
  split_and!; try done.
  - intros Hd. destruct Hrest as (rest & Hr & Hnil).
    rewrite (Hnil Hd), app_nil_r in Hr. by rewrite Hr.
  - rewrite Hwg. pose proof (countNotDone_bounds (workers c)). lia.
  - rewrite Hwg. pose proof (countNotDone_bounds (workers c)). lia.
Qed.

(** The duration handed to time.NewTicker is the interval in
    nanoseconds as long as the product fits an int64. *)
Lemma tickDuration_exact :
  (-9223372036854 ≤ IntervalMs args ≤ 9223372036854)%Z →
  tickDuration args = (1000000 * IntervalMs args)%Z.
Proof.
  intros Hb. unfold tickDuration, int64, time_Millisecond.
  change (2 ^ 63)%Z with 9223372036854775808%Z.
  change (2 ^ 64)%Z with 18446744073709551616%Z.
  rewrite (Z.mod_small (IntervalMs args + _)) by lia.
  rewrite Z.add_simpl_r.
  rewrite Z.mod_small by lia. lia.
Qed.

Lemma driverStep_ticker (c c' : Config) :
  (tickDuration args ≤ 0)%Z →
  driverStep fsys server src args files c = Some c' →
  tickerStarted (driver c) = false →
  tickerStarted (driver c') = false.
Proof.
  unfold driverStep. intros Hi Hstep Hd.
  destruct c as [d tb po n ws b w tk rp cr]; simpl in *.
  destruct d; simpl in *; repeat case_match; simplify_eq/=; try done.
  apply Z.leb_gt in H. lia.
Qed.

(** X18. When the duration handed to time.NewTicker, the int64 product
    time.Millisecond * time.Duration(args.IntervalMs), is not positive,
    NewTicker panics: the loader never reaches wg.Wait, no ticker and no
    reporter ever exist, the summary is never logged, and the panic
    comes only after a goroutine has been started for every table file;
    the main goroutine then runs the deferred pool.Close() and the run
    ends.  As long as the product does not wrap around, this is the case
    exactly of an interval that is not positive. *)
Theorem nonpositive_interval (c : Config) :
  (tickDuration args ≤ 0)%Z →
  reachable' c →
  tickerStarted (driver c) = false
  ∧ ticker c = None
  ∧ reporter c = RNotStarted
  ∧ (driver c = DNewTicker → crashed c = None →
     (∃ c', runSchedule fsys server src args files [TDriver; TDriver] c
            = Some c'
            ∧ crashed c' = Some PanicTicker
            ∧ world c' = world c ∧ workers c' = workers c)
     ∧ wtable <$> workers c ≡ₚ tables files)
  ∧ ((-9223372036854 ≤ IntervalMs args ≤ 9223372036854)%Z →
     (IntervalMs args ≤ 0)%Z).
Proof.
  intros Hi Hc.
  assert (Hd : tickerStarted (driver c) = false).
  { revert c Hc. apply (reachable_inv fsys server src args files); [done|].
    intros c c' t _ Hd Hstep.
    unfold sched in Hstep. destruct (crashed c) eqn:Hc0; [done|].
    destruct t as [|i| |].
    - by eapply driverStep_ticker.
    - apply workerStep_frame in Hstep as (Hd' & _). by rewrite Hd'.
    - apply timerStep_frame in Hstep as (Hd' & _). by rewrite Hd'.
    - apply reporterStep_frame in Hstep as (Hd' & _). by rewrite Hd'. }
  pose proof (reporterInv_reachable fsys server src args files c Hc)
    as (_ & Hrep & Htick & _).
  rewrite Hd in Hrep. split_and!; [done|by apply Htick|done| |].
  - intros Hdr Hcr. split.
    + eexists. unfold runSchedule, sched, driverStep. rewrite Hcr, Hdr.
      rewrite (proj2 (Z.leb_le _ _) Hi). simpl. rewrite Hcr. by split.
    + pose proof (progressInv_reachable fsys server src args files c Hc)
        as (_ & _ & _ & Hws & _).
      rewrite Hdr in Hws. simpl in Hws. rewrite Hws.
      by apply (ctables_perm fsys server src args files).
  - intros Hb. rewrite (tickDuration_exact Hb) in Hi. lia.
Qed.

(** The units that have added their count, once wg.Wait() has returned
    and none has panicked, are all of them. *)
Lemma added_total (c : Config) :
  reachable' c →
  pastWait (driver c) = true →
  Forall (λ w, panicking (wstage w) = false) (workers c) →
  addedBytes fsys (workers c) = totalBytes fsys (tables files).
Proof.
  intros Hc Hpw Hnp.
  pose proof (progressInv_reachable fsys server src args files c Hc)
    as (_ & _ & _ & Hws & Hdone).
  rewrite addedBytes_all.
  - assert (Heq : wtable <$> workers c = ctables c).
    { by destruct (driver c). }
    rewrite Heq. apply sumOver_perm.
    by apply (ctables_perm fsys server src args files).
  - specialize (Hdone Hpw). rewrite Forall_forall in Hdone, Hnp.
    apply Forall_forall. intros w Hw.
    specialize (Hdone w Hw). specialize (Hnp w Hw). simpl in *.
    by destruct (wstage w).
Qed.

(** X19. The summary reports whole mebibytes of the units that added
    their count: the figure logged after wg.Wait is the sum of the byte
    lengths of the files whose goroutine reached its atomic add, divided
    by 1024 twice with the remainders dropped (the division is on the
    uint64, before the conversion to float64), provided the total is
    below 2^64.  It is the figure of the total when no unit panicked; a
    unit that panicked, whose deferred wg.Done() lets wg.Wait return all
    the same, is missing from it.  The step logs this one line and
    executes nothing. *)
Theorem summary_figure (c : Config) :
  reachable' c →
  driver c = DSummary →
  crashed c = None →
  (totalBytes fsys (tables files) < 2 ^ 64)%Z →
  ∃ c',
    sched' TDriver c = Some c'
    ∧ driver c' = DTickStop
    ∧ executed (world c') = executed (world c)
    ∧ logged (world c') =
        logged (world c) ++
          [Info "restoring.all.done.cost[%.2fsec].allbytes[%.2fMB].rate[%.2fMB/s]"
             [AClock; AInt (addedBytes fsys (workers c) / 1024 / 1024)%Z;
              AClock]]
    ∧ (addedBytes fsys (workers c) / 1024 / 1024
       = addedBytes fsys (workers c) / 2 ^ 20)%Z
    ∧ (0 ≤ addedBytes fsys (workers c) ≤ totalBytes fsys (tables files))%Z
    ∧ (Forall (λ w, panicking (wstage w) = false) (workers c) →
       addedBytes fsys (workers c) = totalBytes fsys (tables files)).
Proof.
  intros Hc Hdr Hcr Hbound.
  pose proof (bytes_exact fsys server src args files c Hc Hbound) as Hb.
  pose proof (addedBytes_bound fsys server src args files c Hc) as Hnn.
  eexists. unfold sched, driverStep. rewrite Hcr, Hdr.
  split; [reflexivity|]. simpl. rewrite Hb.
  split_and!; try done; try lia.
  - rewrite Z.div_div by lia. done.
  - intros Hnp. apply added_total; [done|by rewrite Hdr|done].
Qed.

(** X20. A schema phase that fails in the run itself, on the connection
    the main goroutine took from the pool, ends everything: from the
    moment restoreDatabaseSchema or restoreTableSchema has panicked,
    whatever steps follow, nothing more is executed or logged, no
    goroutine is ever started, files.tables stays unshuffled, and the
    run ends with that panic after the deferred pool.Close(). *)
Theorem schema_failure_stops_load (c0 c : Config) (pn : panic) :
  reachable' c0 →
  schemaPanic pn (driver c0) →
  rtc step' c0 c →
  world c = world c0
  ∧ workers c = []
  ∧ beforeDispatch (driver c) = true
  ∧ ctables c = tables files
  ∧ Forall (λ e, origin e ≠ PhaseData) (executed (world c))
  ∧ schemaPanic pn (driver c)
  ∧ (crashed c0 = None → crashed c = None ∨ crashed c = Some pn).
Proof.
  intros Hc0 Hp0 Hsteps.
  destruct (schema_panic_final fsys server src args files c0 c pn
              Hc0 Hp0 Hsteps)
    as (Hp & Hw & _ & Hws & Htb & _ & _ & Hcr).
  assert (Hb : beforeDispatch (driver c) = true).
  { by destruct Hp as (conn & [-> | [-> | ->]]). }
  assert (Hc : reachable' c) by (unfold reachable; by etrans).
  pose proof (phaseInv_reachable fsys server src args files c Hc) as Hph.
  unfold phaseInv in Hph. rewrite Hb in Hph.
  destruct Hph as (_ & _ & Hev & _).
  by split_and!.
Qed.

Lemma Panics_act {A : Type} (P : panic → Prop) (o : Origin) (p : Prog A)
    (w : World) :
  Panics P p → Panics P (act fsys server o p w).1.
Proof.
  intros Hp. destruct Hp as [a|pn Hpn|conn sql k Hk|path k Hk|line k Hk]; simpl.
  - constructor.
  - by constructor.
  - apply Hk.
  - apply Hk.
  - done.
Qed.

Lemma Panics_weaken {A : Type} (P Q : panic → Prop) (p : Prog A) :
  (∀ pn, P pn → Q pn) → Panics P p → Panics Q p.
Proof. intros HPQ. induction 1; constructor; auto. Qed.

Lemma Panics_restoreTable (conn : Connection) (table : string) :
  Panics (tablePanic table) (restoreTable conn table).
Proof.
  destruct (restoreTable_cases conn table) as [(_ & Hno & ->)|(_ & _ & Hp)].
  - constructor. by right.
  - eapply Panics_weaken; [|exact Hp]. by left.
Qed.

Lemma ticker_frame (c c' : Config) :
  timerStep c = Some c' ∨ reporterStep c = Some c' →
  driver c' = driver c ∧ workers c' = workers c ∧ crashed c' = crashed c.
Proof.
  unfold timerStep, reporterStep.
  intros [H|H]; repeat case_match; simplify_eq/=; done.
Qed.

Lemma panicsInv_reachable (c : Config) : reachable' c → panicsInv args c.
Proof.
  apply (reachable_inv fsys server src args files); clear c.
  - unfold panicsInv. simpl. split_and!; [done|constructor|done].
  - intros c c' t Hc (Hd & Hws & _) Hstep. unfold panicsInv.
    unfold sched in Hstep. destruct (crashed c) eqn:Hcr; [done|].
    destruct t as [|i| |].
    + unfold driverStep in Hstep.
      destruct c as [d tb po n ws b w tk rp cr]; simpl in *.
      destruct d as [|conn p| | |conn p| | |rest| | | | | | |conn pn|pn|];
        try (pose proof (Panics_act isErrorPanic PhaseDatabase p w Hd) as Hdb;
             pose proof (Panics_act isErrorPanic PhaseSchema p w Hd) as Hsch;
             destruct p as [a|pn|conn' sql k|path k|line k]);
        simpl in *; repeat case_match; simplify_eq/=;
        split_and!; try done;
        try apply Panics_restoreDatabaseSchema;
        try apply Panics_restoreTableSchema.
      * by inversion Hd.
      * by inversion Hd.
      * destruct (Shuffle_perm src tb) as (a' & Ha' & _). congruence.
      * apply Forall_app. split; [done|].
        constructor; [|done]. apply Panics_restoreTable.
      * by apply Z.leb_le.
      * intros ? [= <-]. left. by eexists.
      * intros ? [= <-]. right. by left.
    + unfold workerStep, setStage in Hstep.
      destruct (workers c !! i) as [w|] eqn:Hw; [|done].
      pose proof (Forall_lookup_1 _ _ _ _ Hws Hw) as Hwf.
      destruct c as [d tb po n ws b wd tk rp cr]; simpl in *.
      destruct (wstage w) as [p|r| | | |pn'|pn'|pn'] eqn:Hst; simplify_eq/=;
        try (split_and!; [done| |done]; by apply Forall_insert).
      * pose proof (Panics_act (tablePanic (wtable w)) PhaseData p wd Hwf)
          as Hact.
        destruct p as [a|pn|conn sql k|path k|line k]; simplify_eq/=;
          split_and!; try done; try by apply Forall_insert.
        apply Forall_insert; [done|]. simpl. by inversion Hwf.
      * split_and!; [done|done|].
        intros ? [= <-]. right. right. exists w.
        split; [by eapply list_elem_of_lookup_2|done].
    + destruct (ticker_frame c c' (or_introl Hstep)) as (-> & -> & ->).
      by rewrite Hcr.
    + destruct (ticker_frame c c' (or_intror Hstep)) as (-> & -> & ->).
      by rewrite Hcr.
Qed.

(** X21. What the run can end of, once the catalog is loaded, and
    where: a failed read or rejected statement of a schema phase
    (AssertNil), in the main goroutine, after its deferred
    pool.Close(); the panic of time.NewTicker on a duration that is not
    positive, likewise; or, in a goroutine of the row-data phase that
    has run its deferred wg.Done() and pool.Put(conn), a failed read or
    rejected statement of its table file, or the index panic of
    restoreTable when the trimmed name of the file has no dot.  The
    shuffle never indexes out of range. *)
Theorem causes_of_death (c : Config) (pn : panic) :
  reachable' c →
  crashed c = Some pn →
  ((∃ e conn, pn = PanicError e ∧ driver c = DPanicRestore conn pn)
   ∨ (pn = PanicTicker ∧ driver c = DPanicTicker
      ∧ (tickDuration args ≤ 0)%Z)
   ∨ (∃ w, w ∈ workers c ∧ wstage w = WFatal pn
           ∧ wtable w ∈ tables files
           ∧ ((∃ e, pn = PanicError e)
              ∨ (pn = PanicIndex 1 1
                 ∧ ¬ occursIn "." (Trim (Base (wtable w)) tableSuffix)))))
  ∧ (∀ pn', driver c ≠ DPanicShuffle pn').
Proof.
  intros Hc Hcr.
  pose proof (panicsInv_reachable c Hc) as (Hd & Hws & Hp).
  split; [|intros pn' Hdr; by rewrite Hdr in Hd].
  destruct (Hp pn Hcr) as [[conn Hdr]|[[-> Hdr]|(w & Hw & Hst)]].
  - left. rewrite Hdr in Hd. destruct Hd as [e ->]. by exists e, conn.
  - right. left. rewrite Hdr in Hd. done.
  - right. right. exists w. split_and!; [done|done| |].
    + destruct (workers_tables fsys server src args files c Hc)
        as [rest Hperm].
      rewrite <- Hperm. apply elem_of_app. left.
      by apply list_elem_of_fmap_2.
    + rewrite Forall_forall in Hws. specialize (Hws w Hw).
      rewrite Hst in Hws. exact Hws.
Qed.

End OrchestratorFacts.

(** ** The further properties on the small dump *)

Section FurtherExamples.

Lemma loadFiles_walk_error_witness :
  Forall (λ v, verr v = None) (take 2 brokenVisits)
  ∧ loadFiles brokenVisits
    = Panicked (PanicLog "loader.file.walk.error:%+v" (WalkError "dump/lost")).
Proof.
  assert (H : Forall (λ v, verr v = None) (take 2 brokenVisits)).
  { repeat constructor. }
  split; [exact H|].
  exact (loadFiles_walk_error (take 2 brokenVisits) (drop 3 brokenVisits)
           (mkVisit "dump/lost" false (Some (WalkError "dump/lost")))
           (WalkError "dump/lost") H eq_refl).
Defined.

Lemma loadFiles_ignores_witness :
  HasSuffix "dump/metadata" tableSuffix = false
  ∧ loadFiles demoVisits = loadFiles (take 1 demoVisits ++ drop 2 demoVisits).
Proof.
  assert (H : HasSuffix "dump/metadata" tableSuffix = false) by reflexivity.
  split; [exact H|].
  exact (loadFiles_ignores (take 1 demoVisits) (drop 2 demoVisits)
           (mkVisit "dump/metadata" false None) eq_refl (or_intror H)).
Defined.

Lemma loadFiles_panic_origin_witness :
  loadFiles brokenVisits
  = Panicked (PanicLog "loader.file.walk.error:%+v" (WalkError "dump/lost"))
  ∧ ∃ pre u post e,
      brokenVisits = pre ++ u :: post
      ∧ Forall (λ v, verr v = None) pre
      ∧ verr u = Some e
      ∧ PanicLog "loader.file.walk.error:%+v" (WalkError "dump/lost")
        = PanicLog "loader.file.walk.error:%+v" e.
Proof.
  assert (H : loadFiles brokenVisits
              = Panicked (PanicLog "loader.file.walk.error:%+v"
                            (WalkError "dump/lost"))) by reflexivity.
  split; [exact H|].
  destruct (loadFiles_panic_origin brokenVisits _ H)
    as (pre & u & post & e & H1 & H2 & H3 & H4 & _).
  by exists pre, u, post, e.
Defined.

Lemma statementsOf_dumpText_witness :
  Forall (λ q, ¬ occursIn stmtSep q ∧ isStatement q = true)
    ["INSERT INTO `t1` VALUES (1)"; "INSERT INTO `t1` VALUES (2)"]
  ∧ statementsOf
      ("INSERT INTO `t1` VALUES (1);" +:+ lf +:+
       "INSERT INTO `t1` VALUES (2);" +:+ lf)
    = ["INSERT INTO `t1` VALUES (1)"; "INSERT INTO `t1` VALUES (2)"].
Proof.
  assert (H : Forall (λ q, ¬ occursIn stmtSep q ∧ isStatement q = true)
                ["INSERT INTO `t1` VALUES (1)"; "INSERT INTO `t1` VALUES (2)"]).
  { repeat constructor.
    all: intros Hocc; apply cutAt_occurs in Hocc as [x Hx];
      vm_compute in Hx; discriminate. }
  split; [exact H|].
  exact (proj2 (statementsOf_dumpText _ H)).
Defined.

Lemma schema_restorers_panic_kinds_witness :
  run ∅ acceptAll PhaseDatabase
    (restoreDatabaseSchema (mkConn 0) ["dump/gone-schema-create.sql"])
    emptyWorld
  = (Panicked (PanicError (ReadError "dump/gone-schema-create.sql")),
     emptyWorld)
  ∧ ∃ e, PanicError (ReadError "dump/gone-schema-create.sql") = PanicError e.
Proof.
  assert (H : run ∅ acceptAll PhaseDatabase
                (restoreDatabaseSchema (mkConn 0)
                   ["dump/gone-schema-create.sql"]) emptyWorld
              = (Panicked (PanicError (ReadError "dump/gone-schema-create.sql")),
                 emptyWorld)) by reflexivity.
  split; [exact H|].
  exact (schema_restorers_panic_kinds ∅ acceptAll PhaseDatabase (mkConn 0)
           ["dump/gone-schema-create.sql"] emptyWorld emptyWorld _
           (or_introl H)).
Defined.

Lemma restoreDatabaseSchema_all_witness :
  Forall (λ db, is_Some (demoFs !! db)) (databases demoFiles)
  ∧ stmt <$> executed
      (run demoFs acceptAll PhaseDatabase
         (restoreDatabaseSchema (mkConn 0) (databases demoFiles))
         emptyWorld).2
    = ["CREATE DATABASE `prod`;"].
Proof.
  assert (H : Forall (λ db, is_Some (demoFs !! db)) (databases demoFiles)).
  { repeat constructor. by eexists. }
  split; [exact H|].
  rewrite (restoreDatabaseSchema_all demoFs acceptAll PhaseDatabase (mkConn 0)
             (databases demoFiles) emptyWorld H (λ _ _ _, eq_refl)).
  reflexivity.
Defined.

Lemma use_statement_when_clear_witness :
  Base "dump/prod.t1-schema.sql" = "prod.t1" +:+ schemaSuffix
  ∧ endsClearOf schemaSuffix "prod.t1"
  ∧ Trim (Base "dump/prod.t1-schema.sql") schemaSuffix = "prod.t1".
Proof.
  assert (H1 : Base "dump/prod.t1-schema.sql" = "prod.t1" +:+ schemaSuffix)
    by reflexivity.
  assert (H2 : endsClearOf schemaSuffix "prod.t1").
  { split; eexists; (split; [reflexivity|reflexivity]). }
  split; [exact H1|]. split; [exact H2|].
  exact (proj1 (use_statement_when_clear demoFs acceptAll PhaseSchema
                  (mkConn 0) _ _ _ emptyWorld H1 H2)).
Defined.

Lemma restoreTable_part_witness :
  Split (Trim (Base "dump/prod.t1.2.sql") tableSuffix) "."
  = ["prod"; "t1"; "2"]
  ∧ ∃ more,
      logged (run demoFs acceptAll PhaseData
                (restoreTable (mkConn 1) "dump/prod.t1.2.sql") emptyWorld).2
      = Info "restoring.tables[%s].parts[%s].thread[%d]"
          [AStr "t1"; AStr "2"; AInt 1] :: more.
Proof.
  assert (H : Split (Trim (Base "dump/prod.t1.2.sql") tableSuffix) "."
              = ["prod"; "t1"; "2"]) by reflexivity.
  split; [exact H|].
  destruct (restoreTable_part demoFs acceptAll PhaseData (mkConn 1)
              "dump/prod.t1.2.sql" "prod" "t1" ["2"] emptyWorld H)
    as (_ & _ & more & Hmore).
  exists more. exact Hmore.
Defined.

Lemma Shuffle_reaches_every_order_witness :
  ["c"; "b"; "a"] ≡ₚ ["a"; "b"; "c"]
  ∧ ∃ src, Shuffle src ["a"; "b"; "c"] = Ok ["c"; "b"; "a"].
Proof.
  assert (H : ["c"; "b"; "a"] ≡ₚ ["a"; "b"; "c"]).
  { exact (reverse_Permutation ["a"; "b"; "c"]). }
  split; [exact H|].
  exact (Shuffle_reaches_every_order ["a"; "b"; "c"] ["c"; "b"; "a"] H).
Defined.

Local Abbreviation demoReachable' :=
  (reachable demoFs acceptAll zeroSrc demoArgs demoFiles).

Lemma schedule_reachable (server : list Event → Connection → string → option error)
    (args : Args) (ts : list Thread) (c : Config) :
  runSchedule demoFs server zeroSrc args demoFiles ts (init args demoFiles)
  = Some c →
  reachable demoFs server zeroSrc args demoFiles c.
Proof.
  apply runSchedule_reachable. unfold reachable. apply rtc_refl.
Qed.

Lemma pool_discipline_witness :
  ∃ c,
    demoWaiting = Some c
    ∧ demoReachable' c
    ∧ pool c = []
    ∧ held c = [mkConn 0; mkConn 1]
    ∧ length (pool c) + length (held c) = 2.
Proof.
  destruct demoWaiting as [c|] eqn:Hrun; [|vm_compute in Hrun; discriminate].
  pose proof (schedule_reachable _ _ _ c Hrun) as Hc.
  exists c. split; [reflexivity|]. split; [exact Hc|].
  split; [vm_compute in Hrun; injection Hrun as <-; reflexivity|].
  split; [vm_compute in Hrun; injection Hrun as <-; reflexivity|].
  exact (proj1 (proj2 (proj2
           (pool_discipline demoFs acceptAll zeroSrc demoArgs demoFiles c Hc)))).
Defined.

Lemma Loader_never_stuck_witness :
  ∃ c,
    demoWaiting = Some c
    ∧ demoReachable' c
    ∧ driver c = DWait
    ∧ sched demoFs acceptAll zeroSrc demoArgs demoFiles TDriver c = None
    ∧ (is_Some (sched demoFs acceptAll zeroSrc demoArgs demoFiles TDriver c)
       ∨ ∃ i w, workers c !! i = Some w
                ∧ holdsConn (wstage w) = true
                ∧ is_Some (sched demoFs acceptAll zeroSrc demoArgs demoFiles
                             (TWorker i) c)).
Proof.
  destruct demoWaiting as [c|] eqn:Hrun; [|vm_compute in Hrun; discriminate].
  pose proof (schedule_reachable _ _ _ c Hrun) as Hc.
  assert (Hd : driver c = DWait).
  { vm_compute in Hrun. injection Hrun as <-. reflexivity. }
  assert (Hcr : crashed c = None).
  { vm_compute in Hrun. injection Hrun as <-. reflexivity. }
  assert (Hth : 1 ≤ Threads demoArgs) by (simpl; lia).
  assert (Hnr : driver c ≠ DReturned) by (rewrite Hd; discriminate).
  exists c. split; [reflexivity|]. split; [exact Hc|]. split; [exact Hd|].
  split; [vm_compute in Hrun; injection Hrun as <-; reflexivity|].
  exact (Loader_never_stuck demoFs acceptAll zeroSrc demoArgs demoFiles c
           Hth Hc Hcr Hnr).
Defined.

Lemma Loader_without_connections_witness :
  Threads noPoolArgs = 0
  ∧ ∀ t, sched demoFs acceptAll zeroSrc noPoolArgs demoFiles t
           (init noPoolArgs demoFiles) = None.
Proof.
  split; [reflexivity|].
  exact (proj2 (proj2
           (Loader_without_connections demoFs acceptAll zeroSrc noPoolArgs
              demoFiles (init noPoolArgs demoFiles) eq_refl (rtc_refl _ _)))).
Defined.

Lemma one_goroutine_per_table_witness :
  ∃ c,
    demoRun = Some c
    ∧ demoReachable' c
    ∧ dispatched (driver c) = true
    ∧ wtable <$> workers c ≡ₚ tables demoFiles
    ∧ wg c = 0%Z.
Proof.
  destruct demoRun as [c|] eqn:Hrun; [|vm_compute in Hrun; discriminate].
  pose proof (schedule_reachable _ _ _ c Hrun) as Hc.
  assert (Hd : dispatched (driver c) = true).
  { vm_compute in Hrun. injection Hrun as <-. reflexivity. }
  destruct (one_goroutine_per_table demoFs acceptAll zeroSrc demoArgs
              demoFiles c Hc) as (_ & _ & Hperm & _).
  exists c. split; [reflexivity|]. split; [exact Hc|]. split; [exact Hd|].
  split; [exact (Hperm Hd)|].
  vm_compute in Hrun. injection Hrun as <-. reflexivity.
Defined.

Lemma runSchedule_steps
    (server : list Event → Connection → string → option error)
    (args : Args) (ts : list Thread) (c c' : Config) :
  runSchedule demoFs server zeroSrc args demoFiles ts c = Some c' →
  rtc (step demoFs server zeroSrc args demoFiles) c c'.
Proof.
  revert c. induction ts as [|t ts IH]; intros c; simpl.
  - by intros [= <-].
  - destruct (sched _ _ _ _ _ t c) as [c1|] eqn:Ht; [|done].
    intros H. eapply rtc_l; [by exists t|by apply IH].
Qed.

Example tickDuration_wraps :
  (0 < tickDuration (mkArgs 2 (-9223372036855)))%Z
  ∧ (tickDuration (mkArgs 2 9223372036855) ≤ 0)%Z.
Proof. by vm_compute. Qed.

Lemma nonpositive_interval_witness :
  ∃ c,
    noTickRun = Some c
    ∧ (tickDuration noTickArgs ≤ 0)%Z
    ∧ driver c = DNewTicker
    ∧ (∃ c', runSchedule demoFs acceptAll zeroSrc noTickArgs demoFiles
               [TDriver; TDriver] c = Some c'
             ∧ crashed c' = Some PanicTicker
             ∧ world c' = world c ∧ workers c' = workers c)
    ∧ ticker c = None.
Proof.
  destruct noTickRun as [c|] eqn:Hrun; [|vm_compute in Hrun; discriminate].
  pose proof (schedule_reachable _ _ _ c Hrun) as Hc.
  assert (Hi : (tickDuration noTickArgs ≤ 0)%Z) by (by vm_compute).
  assert (Hd : driver c = DNewTicker).
  { vm_compute in Hrun. injection Hrun as <-. reflexivity. }
  assert (Hcr : crashed c = None).
  { vm_compute in Hrun. injection Hrun as <-. reflexivity. }
  destruct (nonpositive_interval demoFs acceptAll zeroSrc noTickArgs
              demoFiles c Hi Hc) as (_ & Htk & _ & Hstep & _).
  exists c. split; [reflexivity|]. split; [exact Hi|]. split; [exact Hd|].
  split; [exact (proj1 (Hstep Hd Hcr))|exact Htk].
Defined.

Lemma summary_figure_witness :
  ∃ c c',
    demoSummary = Some c
    ∧ driver c = DSummary
    ∧ (totalBytes demoFs (tables demoFiles) < 2 ^ 64)%Z
    ∧ sched demoFs acceptAll zeroSrc demoArgs demoFiles TDriver c = Some c'
    ∧ logged (world c') =
        logged (world c) ++
          [Info "restoring.all.done.cost[%.2fsec].allbytes[%.2fMB].rate[%.2fMB/s]"
             [AClock; AInt 0; AClock]].
Proof.
  destruct demoSummary as [c|] eqn:Hrun; [|vm_compute in Hrun; discriminate].
  pose proof (schedule_reachable _ _ _ c Hrun) as Hc.
  assert (Hd : driver c = DSummary).
  { vm_compute in Hrun. injection Hrun as <-. reflexivity. }
  assert (Hcr : crashed c = None).
  { vm_compute in Hrun. injection Hrun as <-. reflexivity. }
  assert (Hlt : (totalBytes demoFs (tables demoFiles) < 2 ^ 64)%Z)
    by (vm_compute; reflexivity).
  assert (Ha : addedBytes demoFs (workers c) = 87%Z).
  { vm_compute in Hrun. injection Hrun as <-. reflexivity. }
  destruct (summary_figure demoFs acceptAll zeroSrc demoArgs demoFiles c
              Hc Hd Hcr Hlt) as (c' & Hstep & _ & _ & Hlog & _).
  rewrite Ha in Hlog.
  exists c, c'. split; [reflexivity|]. split; [exact Hd|].
  split; [exact Hlt|]. split; [exact Hstep|]. exact Hlog.
Defined.

(** The deferred wg.Done() of a goroutine that panicked lets wg.Wait()
    return: here the summary is logged although the second shard was
    rejected, and the counter holds the first shard only. *)
Example summary_after_failure :
  ∃ c,
    lateRun = Some c
    ∧ crashed c = None
    ∧ driver c = DTickStop
    ∧ wstage <$> workers c
      = [WPanicPut (PanicError (ExecError 0 "INSERT INTO `t1` VALUES (3)"));
         WExited]
    ∧ bytes c = 58%Z
    ∧ totalBytes demoFs (tables demoFiles) = 87%Z
    ∧ last (logged (world c))
      = Some (Info "restoring.all.done.cost[%.2fsec].allbytes[%.2fMB].rate[%.2fMB/s]"
                [AClock; AInt 0; AClock]).
Proof.
  destruct lateRun as [c|] eqn:Hrun; [|vm_compute in Hrun; discriminate].
  vm_compute in Hrun. injection Hrun as <-.
  eexists. split; [reflexivity|]. by split_and!.
Qed.

Lemma schema_failure_stops_load_witness :
  ∃ c0 c,
    rejectedRun = Some c0
    ∧ driver c0
      = DRestoreDb (mkConn 0)
          (Panic (PanicError (ExecError 0 "CREATE DATABASE `prod`;")))
    ∧ rejectedEnd = Some c
    ∧ world c = world c0
    ∧ workers c = []
    ∧ Forall (λ e, origin e ≠ PhaseData) (executed (world c)).
Proof.
  destruct rejectedRun as [c0|] eqn:Hrun0; [|vm_compute in Hrun0; discriminate].
  destruct rejectedEnd as [c|] eqn:Hrun; [|vm_compute in Hrun; discriminate].
  pose proof (schedule_reachable _ _ _ c0 Hrun0) as Hc0.
  assert (Hd : driver c0
               = DRestoreDb (mkConn 0)
                   (Panic (PanicError (ExecError 0 "CREATE DATABASE `prod`;")))).
  { vm_compute in Hrun0. injection Hrun0 as <-. reflexivity. }
  assert (Hp : schemaPanic (PanicError (ExecError 0 "CREATE DATABASE `prod`;"))
                 (driver c0)).
  { exists (mkConn 0). by left. }
  assert (Hsteps : rtc (step demoFs rejectAll zeroSrc demoArgs demoFiles) c0 c).
  { apply (runSchedule_steps _ _ [TDriver; TDriver]).
    vm_compute in Hrun0. injection Hrun0 as <-.
    vm_compute in Hrun. injection Hrun as <-. reflexivity. }
  destruct (schema_failure_stops_load demoFs rejectAll zeroSrc demoArgs
              demoFiles c0 c _ Hc0 Hp Hsteps)
    as (Hw & Hws & _ & _ & Hev & _).
  exists c0, c. split; [reflexivity|]. split; [exact Hd|].
  split; [reflexivity|]. split; [exact Hw|]. split; [exact Hws|exact Hev].
Defined.

Lemma causes_of_death_witness :
  ∃ c,
    rejectedEnd = Some c
    ∧ crashed c
      = Some (PanicError (ExecError 0 "CREATE DATABASE `prod`;"))
    ∧ ((∃ e conn,
          PanicError (ExecError 0 "CREATE DATABASE `prod`;") = PanicError e
          ∧ driver c
            = DPanicRestore conn
                (PanicError (ExecError 0 "CREATE DATABASE `prod`;")))
       ∨ (PanicError (ExecError 0 "CREATE DATABASE `prod`;") = PanicTicker
          ∧ driver c = DPanicTicker
          ∧ (tickDuration demoArgs ≤ 0)%Z)
       ∨ (∃ w, w ∈ workers c
               ∧ wstage w
                 = WFatal (PanicError (ExecError 0 "CREATE DATABASE `prod`;"))
               ∧ wtable w ∈ tables demoFiles
               ∧ ((∃ e, PanicError (ExecError 0 "CREATE DATABASE `prod`;")
                        = PanicError e)
                  ∨ (PanicError (ExecError 0 "CREATE DATABASE `prod`;")
                     = PanicIndex 1 1
                     ∧ ¬ occursIn "." (Trim (Base (wtable w)) tableSuffix))))).
Proof.
  destruct rejectedEnd as [c|] eqn:Hrun; [|vm_compute in Hrun; discriminate].
  pose proof (schedule_reachable _ _ _ c Hrun) as Hc.
  assert (Hcr : crashed c
                = Some (PanicError (ExecError 0 "CREATE DATABASE `prod`;"))).
  { vm_compute in Hrun. injection Hrun as <-. reflexivity. }
  exists c. split; [reflexivity|]. split; [exact Hcr|].
  exact (proj1 (causes_of_death demoFs rejectAll zeroSrc demoArgs demoFiles
                  c _ Hc Hcr)).
Defined.

(** C8, the claim as it stands.  Against a server that rejects the
    statement of the second shard, the run reaches a state in which the
    rejected statement is followed by a statement of the other shard,
    executed by its goroutine on its own connection: the run was not
    aborted at once. *)
Lemma other_units_continue :
  ∃ c,
    raceRun = Some c
    ∧ reachable demoFs rejectThree zeroSrc demoArgs demoFiles c
    ∧ crashed c = None
    ∧ drop 4 (executed (world c))
      = [mkEvent PhaseData (mkConn 0) "use `prod`" None;
         mkEvent PhaseData (mkConn 0) "INSERT INTO `t1` VALUES (3)"
           (Some (ExecError 0 "INSERT INTO `t1` VALUES (3)"));
         mkEvent PhaseData (mkConn 1) "use `prod`" None]
    ∧ ¬ abortsAtOnce (executed (world c)).
Proof.
  destruct raceRun as [c|] eqn:Hrun; [|vm_compute in Hrun; discriminate].
  pose proof (schedule_reachable _ _ _ c Hrun) as Hc.
  exists c. split; [reflexivity|]. split; [exact Hc|].
  vm_compute in Hrun. injection Hrun as <-.
  split; [reflexivity|]. split; [reflexivity|].
  intros Habort.
  specialize (Habort
    (take 5 (executed (world (default (init demoArgs demoFiles) raceRun))))
    (mkEvent PhaseData (mkConn 0) "INSERT INTO `t1` VALUES (3)"
       (Some (ExecError 0 "INSERT INTO `t1` VALUES (3)")))
    [mkEvent PhaseData (mkConn 1) "use `prod`" None]
    eq_refl (mk_is_Some _ _ eq_refl)).
  discriminate.
Qed.

End FurtherExamples.
